(** * Multi-year statement reconciliation: a model of [helpers/merger_helper.py]

    The development embeds the merge helper of the financial statement
    scraper: the normalisers, the flattener, the three-tier item matcher, the
    greedy section and item aligners, the catalog builder, the presence
    reconciler, the orderer and the aggregate entry point.

    Conventions of the embedding.
    - A Python [str] is a [string] of code points below 256; [str.lower]
      acts on the letters A-Z (no other code point below 256 lowers to a
      character that [[^a-z0-9 ]] keeps).
    - A Python [dict] is an association list in insertion order; assignment
      to a present key keeps its place, assignment to an absent key appends.
    - A value cell is a raw scalar or a [{value, meta}] dictionary.  Scalars
      are [None], an [int], a [str], or the float [0.0] that the code itself
      writes.
    - A raised exception is a result [Raise e]; objects the code mutates in
      place are threaded explicitly. *)

From Stdlib Require Import List String Ascii Bool Arith ZArith Lia QArith.
From Stdlib Require Import Sorting.Sorted Sorting.Permutation.
From Stdlib Require Import Numbers.DecimalString.
Import ListNotations.
Local Open Scope string_scope.
Local Open Scope list_scope.
Local Close Scope Q_scope.
Local Open Scope bool_scope.

Set Implicit Arguments.

(** ** Exceptions *)

Inductive exn : Type :=
| IndexError
| ValueError
| KeyError
| TypeError
| AttributeError.

Inductive res (A : Type) : Type :=
| Ok (a : A)
| Raise (e : exn).
Arguments Ok {A} a.
Arguments Raise {A} e.

Definition bind {A B : Type} (m : res A) (f : A -> res B) : res B :=
  match m with
  | Ok a => f a
  | Raise e => Raise e
  end.

Notation "'do' x <- m ;; k" := (bind m (fun x => k))
  (at level 10, x pattern, m at level 100, k at level 200).

(** [for x in l: s = body(s, x)] where the body may raise. *)
Fixpoint foldM {S X : Type} (body : S -> X -> res S) (l : list X) (s : S) : res S :=
  match l with
  | [] => Ok s
  | x :: l' => do s' <- body s x ;; foldM body l' s'
  end.

(** ** Python strings *)

Module PyStr.

Definition chars (s : string) : list ascii := list_ascii_of_string s.
Definition str (l : list ascii) : string := string_of_list_ascii l.

Definition code (c : ascii) : nat := nat_of_ascii c.

Definition between (lo hi n : nat) : bool := Nat.leb lo n && Nat.leb n hi.

Definition is_digit (c : ascii) : bool := between 48 57 (code c).
Definition is_upper (c : ascii) : bool := between 65 90 (code c).
Definition is_lower (c : ascii) : bool := between 97 122 (code c).

(** [str.isspace] on code points below 256. *)
Definition is_space (c : ascii) : bool :=
  let n := code c in
  between 9 13 n || between 28 32 n || Nat.eqb n 133 || Nat.eqb n 160.

Definition lower_char (c : ascii) : ascii :=
  if is_upper c then ascii_of_nat (code c + 32) else c.

Definition sp : ascii := " "%char.

(** [s.strip()] *)
Fixpoint lstrip (l : list ascii) : list ascii :=
  match l with
  | c :: l' => if is_space c then lstrip l' else l
  | [] => []
  end.

Definition strip_chars (l : list ascii) : list ascii :=
  rev (lstrip (rev (lstrip l))).

Definition strip (s : string) : string := str (strip_chars (chars s)).

(** [s.replace(c, "")] for a one-character [c]. *)
Definition remove_char (c : ascii) (l : list ascii) : list ascii :=
  filter (fun d => negb (Ascii.eqb d c)) l.

(** [s[:n]] *)
Definition take (n : nat) (s : string) : string := str (firstn n (chars s)).

Definition startswith (p s : string) : bool := String.prefix p s.

(** [str(z)] for an [int]. *)
Definition str_of_int (z : Z) : string := NilZero.string_of_int (Z.to_int z).

(** [int(s)]: surrounding white space, an optional sign, decimal digits
    with single underscores between digits; [ValueError] otherwise. *)
Fixpoint int_digits (acc : Z) (prev_digit : bool) (l : list ascii) : option Z :=
  match l with
  | [] => if prev_digit then Some acc else None
  | c :: l' =>
      if is_digit c then int_digits (10 * acc + Z.of_nat (code c - 48)) true l'
      else if Ascii.eqb c "_"%char then
        if prev_digit then int_digits acc false l' else None
      else None
  end.

Definition int (s : string) : res Z :=
  let body := strip_chars (chars s) in
  let parsed :=
    match body with
    | c :: l' =>
        if Ascii.eqb c "-"%char then option_map Z.opp (int_digits 0 false l')
        else if Ascii.eqb c "+"%char then int_digits 0 false l'
        else int_digits 0 false body
    | [] => None
    end in
  match parsed with
  | Some z => Ok z
  | None => Raise ValueError
  end.

(** Split at the first and at the last ["|"]. *)
Definition bar : ascii := "|"%char.

Fixpoint split_first (l : list ascii) : option (list ascii * list ascii) :=
  match l with
  | [] => None
  | c :: l' =>
      if Ascii.eqb c bar then Some ([], l')
      else match split_first l' with
           | Some (a, b) => Some (c :: a, b)
           | None => None
           end
  end.

Definition split_last (l : list ascii) : option (list ascii * list ascii) :=
  match split_first (rev l) with
  | Some (b, a) => Some (rev a, rev b)
  | None => None
  end.

End PyStr.

(** ** Normalizer *)

(** A value is falsy when it is [None] or the empty string. *)
Definition str_or_empty (o : option string) : string :=
  match o with
  | Some s => s
  | None => ""
  end.

Definition truthy_str (o : option string) : bool :=
  match o with
  | Some s => negb (String.eqb s "")
  | None => false
  end.

(** [re.sub(r"[^a-z0-9 ]", " ", label.lower())] on one character. *)
Definition clean_char (c : ascii) : ascii :=
  let d := PyStr.lower_char c in
  if PyStr.is_lower d || PyStr.is_digit d then d else PyStr.sp.

(** [re.sub(r"\s+", " ", s).strip()] on a string of letters, digits and
    spaces: runs of spaces collapse, leading and trailing ones go. *)
Fixpoint squeeze (started pending : bool) (l : list ascii) : list ascii :=
  match l with
  | [] => []
  | c :: l' =>
      if Ascii.eqb c PyStr.sp then squeeze started started l'
      else (if pending then [PyStr.sp; c] else [c]) ++ squeeze true false l'
  end.

Definition normalize_label (label : option string) : string :=
  match label with
  | None => ""
  | Some s =>
      if String.eqb s "" then ""
      else PyStr.str (squeeze false false (map clean_char (PyStr.chars s)))
  end.

(** [re.search(r"(20\d{2}|19\d{2})", s)]: the leftmost year token. *)
Definition year_at (l : list ascii) : option (list ascii) :=
  match l with
  | a :: b :: c :: d :: _ =>
      if ((Ascii.eqb a "2"%char && Ascii.eqb b "0"%char)
          || (Ascii.eqb a "1"%char && Ascii.eqb b "9"%char))
         && PyStr.is_digit c && PyStr.is_digit d
      then Some [a; b; c; d] else None
  | _ => None
  end.

Fixpoint search_year (l : list ascii) : option (list ascii) :=
  match year_at l with
  | Some y => Some y
  | None => match l with
            | [] => None
            | _ :: l' => search_year l'
            end
  end.

Definition normalize_year_key (key : string) : string :=
  if String.eqb key "" then ""
  else match search_year (PyStr.chars key) with
       | Some y => PyStr.str y
       | None => key
       end.


(** ** Dictionaries in insertion order *)

Module Dict.
Section Ops.
Variable V : Type.

Definition t : Type := list (string * V).

Fixpoint get (k : string) (d : t) : option V :=
  match d with
  | [] => None
  | (k', v) :: d' => if String.eqb k' k then Some v else get k d'
  end.

Definition mem (k : string) (d : t) : bool :=
  match get k d with
  | Some _ => true
  | None => false
  end.

(** [d[k] = v] *)
Fixpoint set (k : string) (v : V) (d : t) : t :=
  match d with
  | [] => [(k, v)]
  | (k', v') :: d' =>
      if String.eqb k' k then (k', v) :: d' else (k', v') :: set k v d'
  end.

Definition keys (d : t) : list string := map fst d.
Definition vals (d : t) : list V := map snd d.

(** [dict(pairs)]: later bindings of a key replace earlier ones. *)
Definition of_list (l : list (string * V)) : t :=
  fold_left (fun d kv => set (fst kv) (snd kv) d) l [].
End Ops.
End Dict.

Definition in_strs (x : string) (l : list string) : bool :=
  existsb (String.eqb x) l.

(** ** Data model *)

Inductive scalar : Type :=
| PNone
| PInt (z : Z)
| PFloat0
| PStr (s : string).

Definition Meta : Type := list (string * option string).

Inductive cell : Type :=
| Raw (v : scalar)
| Cell (value : scalar) (meta : Meta).

(** The float [0.0] written for a missing value. *)
Definition zero : cell := Raw PFloat0.

Definition Values : Type := Dict.t cell.

(** Period input. A field that may be missing is an [option]. *)
Record Item : Type := mkItem {
  i_label : option string;
  i_gaap : option string;
  i_values : option Values
}.

Record Section : Type := mkSection {
  s_section : option string;
  s_gaap : option string;
  s_items : option (list Item)
}.

Record Filing : Type := mkFiling {
  periods : option (list string);
  sections : option (list Section)
}.

(** Catalog entries and flattened rows.  A row is an entry-shaped dictionary
    with two more keys, so everything that reads an entry reads a row. *)
Record Payload : Type := mkPayload {
  section_gaap : option string;
  section_label : option string;
  item_gaap : option string;
  item_label : option string;
  values : Values
}.

Record Row : Type := mkRow {
  data :> Payload;
  position : Z;
  force_label_only : bool
}.

Definition Catalog : Type := Dict.t Payload.

Definition set_values (p : Payload) (vs : Values) : Payload :=
  mkPayload (section_gaap p) (section_label p) (item_gaap p) (item_label p) vs.

Definition set_section (p : Payload) (g l : option string) : Payload :=
  mkPayload g l (item_gaap p) (item_label p) (values p).

Definition row_set_section (r : Row) (g l : option string) : Row :=
  mkRow (set_section r g l) (position r) (force_label_only r).

(** ** Flattener *)

Definition normalize_values (vs : option Values) : Values :=
  match vs with
  | Some d =>
      fold_left (fun new_vals kv =>
                   Dict.set (normalize_year_key (fst kv)) (snd kv) new_vals) d []
  | None => []
  end.

Definition or_nil {A : Type} (o : option (list A)) : list A :=
  match o with
  | Some l => l
  | None => []
  end.

Definition enumerate {A : Type} (l : list A) : list (nat * A) :=
  combine (seq 0 (List.length l)) l.

Definition flatten_section (section : Section) : list Row :=
  map (fun ix =>
         mkRow (mkPayload (s_gaap section) (s_section section)
                          (i_gaap (snd ix)) (i_label (snd ix))
                          (normalize_values (i_values (snd ix))))
               (Z.of_nat (fst ix)) false)
      (enumerate (or_nil (s_items section))).

(** Returns the rows and the document as the call leaves it:
    [filing["periods"]] is reassigned. *)
Definition flatten_with_positions (filing : Filing) : list Row * Filing :=
  let filing' :=
    mkFiling (Some (map normalize_year_key (or_nil (periods filing))))
             (sections filing) in
  (flat_map flatten_section (or_nil (sections filing')), filing').

(** ** Collision detection *)

Definition detect_gaap_collisions (section_rows : list Row) : list string :=
  let counts :=
    fold_left (fun counts (r : Row) =>
                 if truthy_str (item_gaap r) then
                   let g := str_or_empty (item_gaap r) in
                   Dict.set g (S (match Dict.get g counts with
                                  | Some c => c
                                  | None => 0
                                  end)) counts
                 else counts)
              section_rows [] in
  map fst (filter (fun gc => Nat.ltb 1 (snd gc)) counts).

(** [g in collision_gaaps] for an optional tag [g]. *)
Definition in_collisions (g : option string) (collision_gaaps : list string) : bool :=
  match g with
  | Some s => in_strs s collision_gaaps
  | None => false
  end.

(** ** Item matcher *)

Definition opt_str_eqb (a b : option string) : bool :=
  match a, b with
  | Some x, Some y => String.eqb x y
  | None, None => true
  | _, _ => false
  end.

Definition extract_value (v : cell) : scalar :=
  match v with
  | Cell value _ => value
  | Raw x => x
  end.

(** [val in (0, None, "", "0")] *)
Definition is_blank (val : scalar) : bool :=
  match val with
  | PNone => true
  | PInt z => Z.eqb z 0
  | PFloat0 => true
  | PStr s => String.eqb s "" || String.eqb s "0"
  end.

Definition str_of_scalar (val : scalar) : string :=
  match val with
  | PNone => "None"
  | PInt z => PyStr.str_of_int z
  | PFloat0 => "0.0"
  | PStr s => s
  end.

(** The parenthesis rule shared by both [normalize_value] helpers. *)
Definition unparen (val_str : list ascii) : list ascii :=
  match val_str, rev val_str with
  | "("%char :: rest, ")"%char :: _ => "-"%char :: removelast rest
  | _, _ => val_str
  end.

Definition clean_number (s : string) : string :=
  PyStr.str (unparen (PyStr.strip_chars
    (PyStr.remove_char " "%char (PyStr.remove_char ","%char (PyStr.chars s))))).

Module Matcher.

Definition normalize_value (val : scalar) : option string :=
  match val with
  | PNone => None
  | _ => Some (clean_number (str_of_scalar val))
  end.

(** [{y: extract_value(v) for y, v in item["values"].items()
      if y in overlap_years and extract_value(v) not in (0, None, "", "0")}] *)
Definition kept_values (overlap_years : list string) (item : Payload)
  : Dict.t scalar :=
  flat_map (fun yv =>
              if in_strs (fst yv) overlap_years
                 && negb (is_blank (extract_value (snd yv)))
              then [(fst yv, extract_value (snd yv))] else [])
           (values item).

Definition opt_eqb (a b : option string) : bool := opt_str_eqb a b.

(** Equality of two dictionaries with distinct keys. *)
Definition dict_eqb (d1 d2 : Dict.t (option string)) : bool :=
  Nat.eqb (List.length d1) (List.length d2)
  && forallb (fun kv => match Dict.get (fst kv) d2 with
                        | Some w => opt_eqb (snd kv) w
                        | None => false
                        end) d1.

Definition gaap_tier (ignore_gaap : bool) (item1 item2 : Payload) : bool :=
  negb ignore_gaap && truthy_str (item_gaap item1)
  && opt_str_eqb (item_gaap item1) (item_gaap item2).

Definition label_tier (item1 item2 : Payload) : bool :=
  String.eqb (normalize_label (item_label item1))
             (normalize_label (item_label item2)).

Definition value_tier (overlap_years : list string) (item1 item2 : Payload) : bool :=
  let overlap_years := map normalize_year_key overlap_years in
  let norm := map (fun yv : string * scalar => (fst yv, normalize_value (snd yv))) in
  let v1_norm := norm (kept_values overlap_years item1) in
  let v2_norm := norm (kept_values overlap_years item2) in
  negb (Nat.eqb (List.length v1_norm) 0) && negb (Nat.eqb (List.length v2_norm) 0)
  && dict_eqb v1_norm v2_norm.

End Matcher.

Definition match_line_items (item1 item2 : Payload) (overlap_years : list string)
                            (ignore_gaap : bool) : bool :=
  if Matcher.gaap_tier ignore_gaap item1 item2 then true
  else if Matcher.label_tier item1 item2 then true
  else if Matcher.value_tier overlap_years item1 item2 then true
  else false.

(** [set(a["values"].keys()) & set(b["values"].keys())] *)
Definition overlap_of (a b : Payload) : list string :=
  filter (fun y => Dict.mem y (values b)) (Dict.keys (values a)).


(** ** Section keys and indexes *)

Definition _sec_key (gaap label : option string) : string :=
  if truthy_str gaap then str_or_empty gaap
  else normalize_label (Some (str_or_empty label)).

Definition sec_key_of (p : Payload) : string :=
  _sec_key (section_gaap p) (section_label p).

Definition _item_identity_for_positions (row : Payload) (collision_gaaps : list string)
  : string :=
  if in_collisions (item_gaap row) collision_gaaps
  then normalize_label (Some (str_or_empty (item_label row)))
  else if truthy_str (item_gaap row) then str_or_empty (item_gaap row)
       else normalize_label (Some (str_or_empty (item_label row))).

(** [d[k].append(x)] on a [defaultdict(list)]. *)
Definition group_append {A : Type} (k : string) (x : A) (d : Dict.t (list A))
  : Dict.t (list A) :=
  Dict.set k (match Dict.get k d with
              | Some l => l ++ [x]
              | None => [x]
              end) d.

Definition group_by {A : Type} (key : A -> string) (l : list A) : Dict.t (list A) :=
  fold_left (fun d x => group_append (key x) x d) l [].

Definition _build_unified_section_index (unified : Catalog) : Dict.t (list Payload) :=
  group_by sec_key_of (Dict.vals unified).

(** First-appearance map from section key to [(gaap, label)]. *)
Definition first_sections {A : Type} (view : A -> Payload) (l : list A)
  : Dict.t (option string * option string) :=
  fold_left (fun seen x =>
               let sk := sec_key_of (view x) in
               if Dict.mem sk seen then seen
               else Dict.set sk (section_gaap (view x), section_label (view x)) seen)
            l [].

Definition _list_unified_sections (unified : Catalog)
  : Dict.t (option string * option string) :=
  first_sections (fun p => p) (Dict.vals unified).

Definition _candidate_sections_in_order (section_rows : list Row)
  : Dict.t (option string * option string) :=
  first_sections data section_rows.

Definition _same_section_gate (g1 l1 g2 l2 : option string) : bool :=
  (truthy_str g1 && opt_str_eqb g1 g2)
  || String.eqb (normalize_label l1) (normalize_label l2).

(** ** Section aligner: the greedy identity pass *)

Fixpoint first_free_section (unified_secs : Dict.t (option string * option string))
         (used_unified : list string) (cg cl : option string) : option string :=
  match unified_secs with
  | [] => None
  | (sk_u, (ug, ul)) :: rest =>
      if in_strs sk_u used_unified then first_free_section rest used_unified cg cl
      else if _same_section_gate ug ul cg cl then Some sk_u
      else first_free_section rest used_unified cg cl
  end.

Definition greedy_section_step (unified_secs : Dict.t (option string * option string))
  (st : list string * Dict.t (option string))
  (c : string * (option string * option string))
  : list string * Dict.t (option string) :=
  let match_sk_u := first_free_section unified_secs (fst st) (fst (snd c)) (snd (snd c)) in
  (match match_sk_u with
   | Some sk_u => sk_u :: fst st
   | None => fst st
   end,
   Dict.set (fst c) match_sk_u (snd st)).

Definition _build_greedy_section_map (unified : Catalog)
  (flat_rows_for_this_filing : list Row) : Dict.t (option string) :=
  let unified_secs := _list_unified_sections unified in
  let cand_secs := _candidate_sections_in_order flat_rows_for_this_filing in
  snd (fold_left (greedy_section_step unified_secs) cand_secs ([], [])).

(** ** Greedy one-to-one item map *)

Fixpoint first_free_item (existing_pool : list (string * Payload))
         (used_keys : list string) (cand : Row) (ignore_gaap : bool) : option string :=
  match existing_pool with
  | [] => None
  | (key, ex) :: rest =>
      if in_strs key used_keys then first_free_item rest used_keys cand ignore_gaap
      else if match_line_items cand ex (overlap_of cand ex) ignore_gaap then Some key
      else first_free_item rest used_keys cand ignore_gaap
  end.

Definition greedy_item_step (existing_pool : list (string * Payload))
  (collision_gaaps : list string)
  (st : list string * list (nat * string)) (ic : nat * Row)
  : list string * list (nat * string) :=
  let ignore_gaap := in_collisions (item_gaap (snd ic)) collision_gaaps in
  match first_free_item existing_pool (fst st) (snd ic) ignore_gaap with
  | Some key => (key :: fst st, snd st ++ [(fst ic, key)])
  | None => st
  end.

Definition _build_greedy_item_map (unified : Catalog) (allowed_sec_key : option string)
  (section_rows : list Row) (collision_gaaps : list string) : list (nat * string) :=
  match allowed_sec_key with
  | None => []
  | Some allowed =>
      let existing_pool :=
        filter (fun kex => String.eqb (sec_key_of (snd kex)) allowed) unified in
      snd (fold_left (greedy_item_step existing_pool collision_gaaps)
                     (enumerate section_rows) ([], []))
  end.

Fixpoint idx_get (idx : nat) (m : list (nat * string)) : option string :=
  match m with
  | [] => None
  | (i, k) :: m' => if Nat.eqb i idx then Some k else idx_get idx m'
  end.

(** ** Presence reconciler *)

Module Reconciler.

(** Truth value of [d.get(year)]. *)
Definition truthy (v : option cell) : bool :=
  match v with
  | None => false
  | Some (Cell _ _) => true
  | Some (Raw PNone) => false
  | Some (Raw (PInt z)) => negb (Z.eqb z 0)
  | Some (Raw PFloat0) => false
  | Some (Raw (PStr s)) => negb (String.eqb s "")
  end.

(** [v != 0] for a stored cell. *)
Definition ne_zero (v : cell) : bool :=
  match v with
  | Raw (PInt z) => negb (Z.eqb z 0)
  | Raw PFloat0 => false
  | _ => true
  end.

Definition normalize_value (v : scalar) : option string :=
  match v with
  | PNone => None
  | PFloat0 => None
  | PInt z => if Z.eqb z 0 then None else Some (clean_number (PyStr.str_of_int z))
  | PStr s => Some (clean_number s)
  end.

Definition value_check (unified_year_val auth_year_val : option cell) : bool :=
  if truthy unified_year_val && truthy auth_year_val then
    match unified_year_val, auth_year_val with
    | Some u, Some a =>
        let unified_norm := normalize_value (extract_value u) in
        let auth_norm := normalize_value (extract_value a) in
        truthy_str unified_norm && truthy_str auth_norm
        && opt_str_eqb unified_norm auth_norm
    | _, _ => false
    end
  else false.

(** One turn of the loop over [auth_section_items]. *)
Definition item_matches (payload : Payload) (year : string) (auth_item : Row) : bool :=
  let unified_gaap := item_gaap payload in
  let auth_gaap := item_gaap auth_item in
  if truthy_str unified_gaap && truthy_str auth_gaap
     && opt_str_eqb unified_gaap auth_gaap then true
  else
    let unified_label := normalize_label (item_label payload) in
    let auth_label := normalize_label (item_label auth_item) in
    if negb (String.eqb unified_label "") && negb (String.eqb auth_label "")
       && String.eqb unified_label auth_label then true
    else value_check (Dict.get year (values payload))
                     (Dict.get year (values auth_item)).

Definition years_in (rows : list Row) : list string :=
  flat_map (fun r : Row => Dict.keys (values r)) rows.

(** Step 1: period key -> first filing, newest first, that mentions it. *)
Definition authoritative_step (flat_all : Dict.t (list Row))
  (m : Dict.t string) (filing_year : string) : res (Dict.t string) :=
  match Dict.get filing_year flat_all with
  | None => Raise KeyError
  | Some rows =>
      Ok (fold_left (fun m year =>
                       if Dict.mem year m then m else Dict.set year filing_year m)
                    (years_in rows) m)
  end.

Definition year_to_authoritative_filing (flat_all : Dict.t (list Row))
  (years_sorted : list string) : res (Dict.t string) :=
  foldM (authoritative_step flat_all) years_sorted [].

(** Step 2: filing -> section key -> rows. *)
Definition filing_sections (flat_all : Dict.t (list Row)) (years_sorted : list string)
  : Dict.t (Dict.t (list Row)) :=
  fold_left (fun fs filing_year =>
               match Dict.get filing_year flat_all with
               | Some rows => Dict.set filing_year (group_by (fun r : Row => sec_key_of r) rows) fs
               | None => fs
               end)
            years_sorted [].

Definition auth_section_items (fs : Dict.t (Dict.t (list Row)))
  (authoritative_filing sec_key : string) : list Row :=
  match Dict.get authoritative_filing fs with
  | Some sections =>
      match Dict.get sec_key sections with
      | Some items => items
      | None => []
      end
  | None => []
  end.

Definition zero_if_set (payload : Payload) (year : string) : Payload :=
  match Dict.get year (values payload) with
  | Some v =>
      if ne_zero v then set_values payload (Dict.set year zero (values payload))
      else payload
  | None => payload
  end.

(** Step 3, one period key of one entry. *)
Definition check_year (y2a : Dict.t string) (fs : Dict.t (Dict.t (list Row)))
  (sec_key : string) (payload : Payload) (year : string) : Payload :=
  match Dict.get year y2a with
  | None => payload
  | Some authoritative_filing =>
      let items := auth_section_items fs authoritative_filing sec_key in
      match items with
      | [] => zero_if_set payload year
      | _ =>
          if existsb (item_matches payload year) items then payload
          else zero_if_set payload year
      end
  end.

Definition check_payload (y2a : Dict.t string) (fs : Dict.t (Dict.t (list Row)))
  (payload : Payload) : Payload :=
  fold_left (check_year y2a fs (sec_key_of payload)) (Dict.keys (values payload)) payload.

End Reconciler.

Definition zero_out_overlapping_years_for_new_items (unified : Catalog)
  (flat_all : Dict.t (list Row)) (years_sorted : list string) : res Catalog :=
  do y2a <- Reconciler.year_to_authoritative_filing flat_all years_sorted ;;
  let fs := Reconciler.filing_sections flat_all years_sorted in
  Ok (map (fun kp => (fst kp, Reconciler.check_payload y2a fs (snd kp))) unified).

(** ** Section aligner: the similarity fallback *)

Module Fallback.

(** One entry of [all_match_attempts].  Ratios are exact rationals: the
    quotient of two list lengths is compared only with such quotients and
    with the threshold. *)
Record Attempt : Type := mkAttempt {
  existing_sk : string;
  matched_items : list (option string * option string);
  unmatched_items : list (option string);
  total_count : nat
}.

Definition ratio_of (matched total : nat) : Q :=
  match total with
  | O => 0%Q
  | S _ => (Z.of_nat matched # Pos.of_nat total)%Q
  end.

Definition ratio (a : Attempt) : Q :=
  ratio_of (List.length (matched_items a)) (total_count a).

Definition Qge_bool (a b : Q) : bool := Qle_bool b a.
Definition Qgt_bool (a b : Q) : bool := negb (Qle_bool a b).

(** The label of the first existing item that matches [cand], if any. *)
Fixpoint matched_to (existing_items : list Payload) (cand : Row) (ignore_gaap : bool)
  : option (option string) :=
  match existing_items with
  | [] => None
  | ex :: rest =>
      if match_line_items cand ex (overlap_of cand ex) ignore_gaap
      then Some (item_label ex)
      else matched_to rest cand ignore_gaap
  end.

Definition attempt (unified_by_sec : Dict.t (list Payload)) (candidate_rows : list Row)
  (collision_gaaps : list string) (sk : string) : Attempt :=
  let existing_items := match Dict.get sk unified_by_sec with
                        | Some l => l
                        | None => []
                        end in
  let scan := map (fun cand : Row =>
                     (cand, matched_to existing_items cand
                              (in_collisions (item_gaap cand) collision_gaaps)))
                  candidate_rows in
  mkAttempt sk
    (flat_map (fun cm => match snd cm with
                         | Some l => [(item_label (fst cm : Row), l)]
                         | None => []
                         end) scan)
    (flat_map (fun cm => match snd cm with
                         | Some _ => []
                         | None => [item_label (fst cm : Row)]
                         end) scan)
    (List.length candidate_rows).

(** [best_match_sk, best_match_ratio] after one more attempt. *)
Definition better (ratio_threshold : Q) (best : option string * Q) (a : Attempt)
  : option string * Q :=
  if Qge_bool (ratio a) ratio_threshold && Qgt_bool (ratio a) (snd best)
  then (Some (existing_sk a), ratio a) else best.

(** The attempt the trace prints in detail: the first one of highest ratio. *)
Fixpoint top_attempt (l : list Attempt) : option Attempt :=
  match l with
  | [] => None
  | a :: rest =>
      match top_attempt rest with
      | Some b => if Qgt_bool (ratio b) (ratio a) then Some b else Some a
      | None => Some a
      end
  end.

Definition is_none {A : Type} (o : option A) : bool :=
  match o with
  | None => true
  | Some _ => false
  end.

(** The trace slices labels ([label[:50]]); slicing [None] is a [TypeError]. *)
Definition trace_raises (l : list Attempt) : bool :=
  match top_attempt l with
  | None => false
  | Some a =>
      Qgt_bool (ratio a) 0%Q
      && (existsb (fun m => is_none (fst m) || is_none (snd m))
                  (firstn 3 (matched_items a))
          || (negb (Nat.eqb (List.length (unmatched_items a)) 0)
              && Nat.leb (List.length (unmatched_items a)) 5
              && existsb is_none (unmatched_items a)))
  end.

Definition claimed (sk : string) (updated_map : Dict.t (option string)) : bool :=
  existsb (fun v => opt_str_eqb v (Some sk)) (Dict.vals updated_map).

Definition candidate_step (unified_by_sec : Dict.t (list Payload))
  (candidate_sections : Dict.t (list Row)) (ratio_threshold : Q)
  (updated_map : Dict.t (option string)) (entry : string * option string)
  : res (Dict.t (option string)) :=
  match snd entry with
  | Some _ => Ok updated_map
  | None =>
      let candidate_sk := fst entry in
      match Dict.get candidate_sk candidate_sections with
      | None => Raise KeyError
      | Some candidate_rows =>
          let collision_gaaps := detect_gaap_collisions candidate_rows in
          let all_match_attempts :=
            map (attempt unified_by_sec candidate_rows collision_gaaps)
                (filter (fun sk => negb (claimed sk updated_map))
                        (Dict.keys unified_by_sec)) in
          let best := fold_left (better ratio_threshold) all_match_attempts (None, 0%Q) in
          if trace_raises all_match_attempts then Raise TypeError
          else match fst best with
               | Some best_match_sk => Ok (Dict.set candidate_sk (Some best_match_sk) updated_map)
               | None => Ok updated_map
               end
      end
  end.

End Fallback.

Definition _apply_fallback_section_matching (unified : Catalog)
  (flat_rows_for_this_filing : list Row) (greedy_sec_map : Dict.t (option string))
  (ratio_threshold : Q) : res (Dict.t (option string)) :=
  let unified_by_sec := _build_unified_section_index unified in
  let candidate_sections := group_by (fun r : Row => sec_key_of r) flat_rows_for_this_filing in
  foldM (Fallback.candidate_step unified_by_sec candidate_sections ratio_threshold)
        greedy_sec_map greedy_sec_map.

Definition default_ratio_threshold : Q := (1 # 2)%Q.

(** ** Duplicate section tags within one filing *)

Definition flag_row (first_label_for_gaap : Dict.t string) (r : Row)
  : Dict.t string * Row :=
  let g := PyStr.strip (str_or_empty (section_gaap r)) in
  if String.eqb g "" then (first_label_for_gaap, r)
  else
    let lbl_norm := normalize_label (Some (str_or_empty (section_label r))) in
    match Dict.get g first_label_for_gaap with
    | None => (Dict.set g lbl_norm first_label_for_gaap, r)
    | Some first =>
        if String.eqb first lbl_norm then (first_label_for_gaap, r)
        else (first_label_for_gaap,
              mkRow (set_section r (Some "") (section_label r)) (position r) true)
    end.

Fixpoint flag_rows (first_label_for_gaap : Dict.t string) (rows : list Row) : list Row :=
  match rows with
  | [] => []
  | r :: rest =>
      let fr := flag_row first_label_for_gaap r in
      snd fr :: flag_rows (fst fr) rest
  end.

(** The rows as the in-place pass leaves them. *)
Definition _flag_duplicate_section_gaaps_label_only (rows : list Row) : list Row :=
  flag_rows [] rows.

(** ** Sorting: [list.sort] and [sorted] are stable *)

Section StableSort.
Variable A : Type.
Variable leb : A -> A -> bool.

Fixpoint insert_sorted (x : A) (l : list A) : list A :=
  match l with
  | [] => [x]
  | y :: l' => if leb x y then x :: l else y :: insert_sorted x l'
  end.

Definition stable_sort (l : list A) : list A :=
  fold_right insert_sorted [] l.
End StableSort.

Definition str_leb (a b : string) : bool := String.leb a b.

(** [sorted(keys, reverse=True)] *)
Definition sorted_desc (l : list string) : list string :=
  stable_sort (fun a b => str_leb b a) l.

(** [sorted(set_of_strings)] *)
Definition sorted_set (l : list string) : list string :=
  stable_sort str_leb (nodup string_dec l).

(** ** Padding *)

Definition _collect_all_target_years (flat_all : Dict.t (list Row)) : list string :=
  sorted_set (flat_map Reconciler.years_in (Dict.vals flat_all)).

Definition is_none_cell (v : cell) : bool :=
  match v with
  | Raw PNone => true
  | _ => false
  end.

Definition pad_year (vals : Values) (y : string) : Values :=
  match Dict.get y vals with
  | None => Dict.set y zero vals
  | Some v => if is_none_cell v then Dict.set y zero vals else vals
  end.

Definition pad_payload (target_years : list string) (payload : Payload) : Payload :=
  set_values payload (fold_left pad_year target_years (values payload)).

Definition _pad_missing_years_in_mapping (mapping : Catalog) (target_years : list string)
  : Catalog :=
  map (fun kp => (fst kp, pad_payload target_years (snd kp))) mapping.

(** ** Catalog builder: merging one filing *)

Module Builder.

(** [r["section_gaap"] or normalize_label(r["section_label"])] *)
Definition sec_of (r : Payload) : string :=
  if truthy_str (section_gaap r) then str_or_empty (section_gaap r)
  else normalize_label (section_label r).

(** [greedy_sec_map.get(sec)] *)
Definition target_of (greedy_sec_map : Dict.t (option string)) (sec : string)
  : option string :=
  match Dict.get sec greedy_sec_map with
  | Some target => target
  | None => None
  end.

(** Rows of a bound candidate section take the target section's tag and label. *)
Definition rewrite_step (unified_by_sec : Dict.t (list Payload)) (rows : list Row)
  (entry : string * option string) : list Row :=
  match snd entry with
  | None => rows
  | Some target_sk =>
      if String.eqb (fst entry) target_sk then rows
      else match Dict.get target_sk unified_by_sec with
           | Some (target :: _) =>
               map (fun r : Row =>
                      if String.eqb (sec_key_of r) (fst entry)
                      then row_set_section r (section_gaap target) (section_label target)
                      else r) rows
           | _ => rows
           end
  end.

(** [int(normalize_year_key(yr[:4])) >
     int(normalize_year_key(list(vals.keys())[0]))] *)
Definition newer_than_first (yr : string) (vals : Values) : res bool :=
  do filing_year <- PyStr.int (normalize_year_key (PyStr.take 4 yr)) ;;
  match Dict.keys vals with
  | [] => Raise IndexError
  | first :: _ =>
      do recorded <- PyStr.int (normalize_year_key first) ;;
      Ok (Z.ltb recorded filing_year)
  end.

(** [v if v is not None else 0.0] *)
Definition clean (v : cell) : cell :=
  if is_none_cell v then zero else v.

(** One turn of [for y, v in row["values"].items()] on a matched entry. *)
Definition merge_value (yr : string) (vals : Values) (yv : string * cell) : res Values :=
  if negb (Dict.mem (fst yv) vals) then Ok (Dict.set (fst yv) (snd yv) vals)
  else do newer <- newer_than_first yr vals ;;
       Ok (if newer then Dict.set (fst yv) (snd yv) vals else vals).

Definition merge_values (yr : string) (cleaning : bool) (row : Row) (vals : Values)
  : res Values :=
  foldM (merge_value yr)
        (if cleaning then map (fun yv => (fst yv, clean (snd yv))) (values row)
         else values row)
        vals.

Definition item_key (ignore_gaap : bool) (row : Row) : string :=
  if ignore_gaap then normalize_label (item_label row)
  else if truthy_str (item_gaap row) then str_or_empty (item_gaap row)
       else normalize_label (item_label row).

Definition unified_key (ignore_gaap : bool) (row : Row) (sec : string) : string :=
  item_key ignore_gaap row ++ "|" ++ sec.

Definition new_payload (row : Row) : Payload :=
  mkPayload (section_gaap row) (section_label row) (item_gaap row) (item_label row)
            (Dict.of_list (map (fun kv => (fst kv, clean (snd kv))) (values row))).

Definition create (ignore_gaap : bool) (row : Row) (sec : string) (unified : Catalog)
  : Catalog :=
  Dict.set (unified_key ignore_gaap row sec) (new_payload row) unified.

(** The key the greedy item map preselected, if the section gate and the
    matcher confirm it. *)
Definition confirm (unified : Catalog) (row : Row) (ignore_gaap : bool)
  (pre_key : option string) : res (option string) :=
  match pre_key with
  | None => Ok None
  | Some k =>
      match Dict.get k unified with
      | None => Raise KeyError
      | Some existing =>
          let same_section :=
            (truthy_str (section_gaap existing)
             && opt_str_eqb (section_gaap existing) (section_gaap row))
            || String.eqb (normalize_label (section_label existing))
                          (normalize_label (section_label row)) in
          if same_section
             && match_line_items row existing (overlap_of existing row) ignore_gaap
          then Ok (Some k) else Ok None
      end
  end.

(** One of the two identical update blocks of the row loop. *)
Definition update_block (yr : string) (cleaning : bool) (matched_key : option string)
  (ignore_gaap : bool) (row : Row) (sec : string) (unified : Catalog) : res Catalog :=
  match matched_key with
  | Some k =>
      if String.eqb k "" then Ok (create ignore_gaap row sec unified)
      else if PyStr.startswith "review_needed" k then Ok unified
      else match Dict.get k unified with
           | None => Raise KeyError
           | Some existing =>
               do vals <- merge_values yr cleaning row (values existing) ;;
               Ok (Dict.set k (set_values existing vals) unified)
           end
  | None => Ok (create ignore_gaap row sec unified)
  end.

Definition merge_row (yr : string) (allowed_unified_sk : option string)
  (greedy_item_map : list (nat * string)) (collision_gaaps : list string)
  (sec : string) (unified : Catalog) (ir : nat * Row) : res Catalog :=
  let row := snd ir in
  let ignore_gaap := in_collisions (item_gaap row) collision_gaaps in
  let pre_key := match allowed_unified_sk with
                 | Some _ => idx_get (fst ir) greedy_item_map
                 | None => None
                 end in
  do matched_key <- confirm unified row ignore_gaap pre_key ;;
  do unified1 <- update_block yr false matched_key ignore_gaap row sec unified ;;
  update_block yr true matched_key ignore_gaap row sec unified1.

Definition merge_section (yr : string) (greedy_sec_map : Dict.t (option string))
  (unified : Catalog) (group : string * list Row) : res Catalog :=
  let sec := fst group in
  let section_rows := snd group in
  let collision_gaaps := detect_gaap_collisions section_rows in
  let allowed_unified_sk := target_of greedy_sec_map sec in
  let greedy_item_map :=
    _build_greedy_item_map unified allowed_unified_sk section_rows collision_gaaps in
  foldM (merge_row yr allowed_unified_sk greedy_item_map collision_gaaps sec)
        (enumerate section_rows) unified.

(** [section_groups]: the row objects grouped under the key they had before
    any rewrite, read after the rewrites. *)
Definition section_groups (secs : list string) (rows : list Row) : Dict.t (list Row) :=
  map (fun g => (fst g, map snd (snd g)))
      (group_by fst (combine secs rows)).

(** One turn of [for _, rows in flat_all.items()].  [yr] is the variable the
    earlier loop over [years_sorted] left behind.  Returns the catalog and
    the rows as rewritten in place. *)
Definition merge_filing (yr : string) (unified : Catalog) (rows : list Row)
  : res (Catalog * list Row) :=
  let secs := map (fun r : Row => sec_of r) rows in
  let greedy_sec_map := _build_greedy_section_map unified rows in
  let unified_by_sec := _build_unified_section_index unified in
  let rows' := fold_left (rewrite_step unified_by_sec) greedy_sec_map rows in
  do unified' <- foldM (merge_section yr greedy_sec_map) (section_groups secs rows') unified ;;
  Ok (unified', rows').

Definition merge_all (yr : string) (flat_all : Dict.t (list Row))
  : res (Catalog * Dict.t (list Row)) :=
  foldM (fun st yrows =>
           do ur <- merge_filing yr (fst st) (snd yrows) ;;
           Ok (fst ur, Dict.set (fst yrows) (snd ur) (snd st)))
        flat_all ([], flat_all).

End Builder.

(** ** Catalog orderer *)

Module Orderer.

(** [positions_map]: [(sec_key, item_key) -> {year: position}]. *)
Definition PosMap : Type := list ((string * string) * Dict.t Z).

Definition pair_eqb (a b : string * string) : bool :=
  String.eqb (fst a) (fst b) && String.eqb (snd a) (snd b).

Fixpoint pm_get (k : string * string) (m : PosMap) : Dict.t Z :=
  match m with
  | [] => []
  | (k', d) :: m' => if pair_eqb k' k then d else pm_get k m'
  end.

(** [positions_map[k][yr] = pos] *)
Fixpoint pm_set (k : string * string) (yr : string) (pos : Z) (m : PosMap) : PosMap :=
  match m with
  | [] => [(k, [(yr, pos)])]
  | (k', d) :: m' =>
      if pair_eqb k' k then (k', Dict.set yr pos d) :: m'
      else (k', d) :: pm_set k yr pos m'
  end.

(** [collisions_per_year_section[(yr, sk)]] for the rows of filing [yr]. *)
Definition collisions_in (rows : list Row) (sk : string) : list string :=
  detect_gaap_collisions (filter (fun r : Row => String.eqb (sec_key_of r) sk) rows).

Definition positions_of_filing (m : PosMap) (yrows : string * list Row) : PosMap :=
  fold_left (fun m (r : Row) =>
               let sk := sec_key_of r in
               let ik := _item_identity_for_positions r (collisions_in (snd yrows) sk) in
               pm_set (sk, ik) (fst yrows) (position r) m)
            (snd yrows) m.

Definition rows_of (flat_all : Dict.t (list Row)) (yr : string) : list Row :=
  match Dict.get yr flat_all with
  | Some rows => rows
  | None => []
  end.

Definition build_positions_map (flat_all : Dict.t (list Row)) (years_sorted : list string)
  : PosMap :=
  fold_left (fun m yr => positions_of_filing m (yr, rows_of flat_all yr)) years_sorted [].

(** [latest_section_order]: section key -> rank of first appearance. *)
Definition build_latest_section_order (rows : list Row) : Dict.t Z :=
  fold_left (fun order (r : Row) =>
               let sk := sec_key_of r in
               if Dict.mem sk order then order
               else Dict.set sk (Z.of_nat (List.length order)) order)
            rows [].

Definition big : Z := 1000000000%Z.

Definition _parse_unified_key (orig_key : string) : res (string * string) :=
  if PyStr.startswith "review_needed|" orig_key then
    match PyStr.split_first (skipn 14 (PyStr.chars orig_key)) with
    | Some (sec_key, norm_label) => Ok (PyStr.str sec_key, PyStr.str norm_label)
    | None => Raise ValueError
    end
  else
    match PyStr.split_last (PyStr.chars orig_key) with
    | Some (itm, sec) => Ok (PyStr.str sec, PyStr.str itm)
    | None => Ok ("", orig_key)
    end.

Definition _item_identity_from_unified_key (sk key : string) (payload : Payload)
  : res string :=
  do parsed <- _parse_unified_key key ;;
  if negb (String.eqb (fst parsed) "") && negb (String.eqb (fst parsed) sk) then
    Ok (if truthy_str (item_gaap payload) then str_or_empty (item_gaap payload)
        else normalize_label (Some (str_or_empty (item_label payload))))
  else Ok (snd parsed).

(** An entry with the position the ordering uses for it. *)
Record Placed : Type := mkPlaced {
  orig_key : string;
  payload : Payload;
  pos : Z
}.

(** Position in the most recent year the item is known in, else [10**9]. *)
Fixpoint most_recent_pos (years_sorted : list string) (pos_by_year : Dict.t Z) : Z :=
  match years_sorted with
  | [] => big
  | y :: rest =>
      match Dict.get y pos_by_year with
      | Some p => p
      | None => most_recent_pos rest pos_by_year
      end
  end.

(** Split a section's entries into the latest-year spine and the older-only
    items, both in catalog order. *)
Definition separate_step (positions_map : PosMap) (latest_year : string)
  (years_sorted : list string) (sk : string)
  (st : list Placed * list Placed) (kp : string * Payload)
  : res (list Placed * list Placed) :=
  do ik <- _item_identity_from_unified_key sk (fst kp) (snd kp) ;;
  let pos_by_year := pm_get (sk, ik) positions_map in
  match Dict.get latest_year pos_by_year with
  | Some p => Ok (fst st ++ [mkPlaced (fst kp) (snd kp) p], snd st)
  | None =>
      Ok (fst st,
          snd st ++ [mkPlaced (fst kp) (snd kp) (most_recent_pos years_sorted pos_by_year)])
  end.

Definition label_of (x : Placed) : string := normalize_label (item_label (payload x)).

Definition spine_leb (a b : Placed) : bool :=
  Z.ltb (pos a) (pos b)
  || (Z.eqb (pos a) (pos b) && str_leb (label_of a) (label_of b)).

(** [anchor_index_for_pos] *)
Fixpoint anchor_index_for_pos (spine_positions : list Z) (p : Z) : nat :=
  match spine_positions with
  | [] => 0
  | sp :: rest => if Z.leb p sp then 0 else S (anchor_index_for_pos rest p)
  end.

(** [spine_positions.index(p)] for a [p] that occurs *)
Fixpoint index_of (spine_positions : list Z) (p : Z) : nat :=
  match spine_positions with
  | [] => 0
  | sp :: rest => if Z.eqb sp p then 0 else S (index_of rest p)
  end.

Record Sortable : Type := mkSortable {
  anchor_idx : nat;
  priority_flag : nat;
  tie : string;
  item : Placed
}.

Definition sortable_leb (x y : Sortable) : bool :=
  Nat.ltb (anchor_idx x) (anchor_idx y)
  || (Nat.eqb (anchor_idx x) (anchor_idx y)
      && (Nat.ltb (priority_flag x) (priority_flag y)
          || (Nat.eqb (priority_flag x) (priority_flag y)
              && str_leb (tie x) (tie y)))).

(** The final sequence of one section, given its spine candidates and its
    older-only items. *)
Definition arrange (latest_items older_only_items : list Placed) : list Sortable :=
  let spine := stable_sort spine_leb latest_items in
  let spine_positions := map pos spine in
  let sortable :=
    map (fun x => mkSortable (anchor_index_for_pos spine_positions (pos x)) 0
                             (label_of x) x) older_only_items
    ++ map (fun x => mkSortable (index_of spine_positions (pos x)) 1
                                (label_of x) x) spine in
  stable_sort sortable_leb sortable.

Definition order_section (positions_map : PosMap) (latest_year : string)
  (years_sorted : list string) (sk : string) (items : list (string * Payload))
  : res (list Sortable) :=
  do parts <- foldM (separate_step positions_map latest_year years_sorted sk)
                    items ([], []) ;;
  Ok (arrange (fst parts) (snd parts)).

Definition emit (ordered : Catalog) (l : list Sortable) : Catalog :=
  fold_left (fun ordered x => Dict.set (orig_key (item x)) (payload (item x)) ordered)
            l ordered.

End Orderer.

(** ** Catalog builder: the whole pass for one statement type *)

Definition first_value {A : Type} (d : Dict.t A) : res A :=
  match d with
  | [] => Raise IndexError
  | (_, v) :: _ => Ok v
  end.

(** The first loop: flatten every filing and blank recycled section tags. *)
Definition flatten_all (years_json : Dict.t (Dict.t Filing)) : res (Dict.t (list Row)) :=
  foldM (fun flat_all yf =>
           do stmt <- first_value (snd yf) ;;
           let rows := fst (flatten_with_positions stmt) in
           Ok (Dict.set (fst yf) (_flag_duplicate_section_gaaps_label_only rows) flat_all))
        years_json [].

(** [latest_section_labels] and the relabelling of every entry. *)
Definition latest_section_labels (rows : list Row)
  : Dict.t (option string * option string) :=
  first_sections data rows.

Definition relabel (labels : Dict.t (option string * option string)) (payload : Payload)
  : Payload :=
  match Dict.get (sec_key_of payload) labels with
  | Some gl => set_section payload (fst gl) (snd gl)
  | None => payload
  end.

Definition rank_of (latest_section_order : Dict.t Z) (sk : string) : Z :=
  match Dict.get sk latest_section_order with
  | Some i => i
  | None => Orderer.big
  end.

(** One turn of [for sk in section_keys_sorted]: emit the section, then pad
    everything emitted so far. *)
Definition emit_section (positions_map : Orderer.PosMap) (latest_year : string)
  (years_sorted : list string) (target_years : list string)
  (by_section : Dict.t (list (string * Payload)))
  (ordered : Catalog) (sk : string) : res Catalog :=
  let items := match Dict.get sk by_section with
               | Some items => items
               | None => []
               end in
  do sortable <- Orderer.order_section positions_map latest_year years_sorted sk items ;;
  Ok (_pad_missing_years_in_mapping (Orderer.emit ordered sortable) target_years).

Definition order_catalog (unified : Catalog) (flat_all : Dict.t (list Row))
  (positions_map : Orderer.PosMap) (latest_section_order : Dict.t Z)
  (latest_year : string) (years_sorted : list string) : res Catalog :=
  let by_section :=
    group_by (fun kp : string * Payload => Builder.sec_of (snd kp)) unified in
  let section_keys_sorted :=
    stable_sort (fun a b => Z.leb (rank_of latest_section_order a)
                                  (rank_of latest_section_order b))
                (Dict.keys by_section) in
  foldM (emit_section positions_map latest_year years_sorted
                      (_collect_all_target_years flat_all) by_section)
        section_keys_sorted [].

Definition build_unified_catalog (years_json : Dict.t (Dict.t Filing))
  (statement_type : string) : res Catalog :=
  let years_sorted := sorted_desc (Dict.keys years_json) in
  match years_sorted with
  | [] => Raise IndexError
  | latest_year :: _ =>
      do flat_all <- flatten_all years_json ;;
      let positions_map := Orderer.build_positions_map flat_all years_sorted in
      let latest_section_order :=
        Orderer.build_latest_section_order (Orderer.rows_of flat_all latest_year) in
      let yr := last years_sorted latest_year in
      do merged <- Builder.merge_all yr flat_all ;;
      do unified <- zero_out_overlapping_years_for_new_items
                      (fst merged) (snd merged) years_sorted ;;
      let labels := latest_section_labels (Orderer.rows_of (snd merged) latest_year) in
      let unified := map (fun kp => (fst kp, relabel labels (snd kp))) unified in
      order_catalog unified (snd merged) positions_map latest_section_order
                    latest_year years_sorted
  end.


(** ** Aggregate entry point *)

(** What the aggregate entry point may find under a statement type: a
    dictionary (with or without an ['error'] key, with the value of its
    ['source_url'] key if any) or some other value. *)
Inductive StmtValue : Type :=
| StmtDict (error : bool) (source_url : option string) (stmt : Filing)
| StmtOther.

(** A year's data: a dictionary, or a value such as [None] on which the
    membership test raises. *)
Inductive YearData : Type :=
| YearDict (d : Dict.t StmtValue)
| YearOther.

(** The value under ["years"]: a dictionary, or another value with its
    truth value. *)
Inductive YearsData : Type :=
| YearsDict (d : Dict.t YearData)
| YearsOther (truthy : bool).

(** The argument: a dictionary, with or without ["years"], or not one. *)
Inductive YearsJson : Type :=
| JsonDict (years : option YearsData)
| JsonOther.

Inductive ResultValue : Type :=
| Cat (c : Catalog)
| Urls (l : list string).

Definition Results : Type := Dict.t ResultValue.

(** [try: body except Exception: handler] *)
Definition try_except {A : Type} (body : res A) (handler : exn -> res A) : res A :=
  match body with
  | Ok a => Ok a
  | Raise e => handler e
  end.

Definition statement_types : list string :=
  ["income_statement"; "balance_sheet"; "cash_flow_statement"].

Definition empty_results : Results :=
  [("income_statement", Cat []); ("balance_sheet", Cat []);
   ("cash_flow_statement", Cat [])].

Module Aggregate.

Definition has_error (v : StmtValue) : bool :=
  match v with
  | StmtDict error _ _ => error
  | StmtOther => false
  end.

Definition url_of (v : StmtValue) : option string :=
  match v with
  | StmtDict _ source_url _ => source_url
  | StmtOther => None
  end.

(** One turn of [for year_key, year_data in years_data.items()]. *)
Definition collect_year (stmt_type : string)
  (st : Dict.t (Dict.t StmtValue) * list string) (yd : string * YearData)
  : res (Dict.t (Dict.t StmtValue) * list string) :=
  match snd yd with
  | YearOther => Raise TypeError
  | YearDict year_data =>
      match Dict.get stmt_type year_data with
      | None => Ok st
      | Some doc =>
          if has_error doc then Ok st
          else
            let source_urls :=
              if truthy_str (url_of doc) && negb (in_strs (str_or_empty (url_of doc)) (snd st))
              then snd st ++ [str_or_empty (url_of doc)] else snd st in
            Ok (Dict.set (fst yd) [(stmt_type, doc)] (fst st), source_urls)
      end
  end.

Definition collect (stmt_type : string) (years_data : YearsData)
  : res (Dict.t (Dict.t StmtValue) * list string) :=
  match years_data with
  | YearsOther _ => Raise AttributeError
  | YearsDict d => foldM (collect_year stmt_type) d ([], [])
  end.

(** A document that is not a dictionary makes the flattener raise. *)
Definition as_filing (v : StmtValue) : res Filing :=
  match v with
  | StmtDict _ _ stmt => Ok stmt
  | StmtOther => Raise AttributeError
  end.

Fixpoint mapM {A B : Type} (f : A -> res B) (l : list A) : res (list B) :=
  match l with
  | [] => Ok []
  | x :: l' => do y <- f x ;; do ys <- mapM f l' ;; Ok (y :: ys)
  end.

Definition as_filings (stmt_years : Dict.t (Dict.t StmtValue))
  : res (Dict.t (Dict.t Filing)) :=
  mapM (fun yf =>
          do docs <- mapM (fun kv => do f <- as_filing (snd kv) ;; Ok (fst kv, f)) (snd yf) ;;
          Ok (fst yf, docs))
       stmt_years.

Definition run_build (stmt_years : Dict.t (Dict.t StmtValue)) (stmt_type : string)
  : res Catalog :=
  do years_json <- as_filings stmt_years ;;
  build_unified_catalog years_json stmt_type.

(** The body of the inner [try]. *)
Definition process (years_data : YearsData) (results : Results) (stmt_type : string)
  : res Results :=
  do collected <- collect stmt_type years_data ;;
  match fst collected with
  | _ :: _ =>
      do unified_result <- run_build (fst collected) stmt_type ;;
      Ok (Dict.set (stmt_type ++ "_url") (Urls (snd collected))
            (Dict.set stmt_type (Cat unified_result) results))
  | [] =>
      Ok (Dict.set (stmt_type ++ "_url") (Urls [])
            (Dict.set stmt_type (Cat []) results))
  end.

Definition statement (years_data : YearsData) (results : Results) (stmt_type : string)
  : res Results :=
  try_except (process years_data results stmt_type)
             (fun _ => Ok (Dict.set stmt_type (Cat []) results)).

Definition years_falsy (years_data : YearsData) : bool :=
  match years_data with
  | YearsDict [] => true
  | YearsDict _ => false
  | YearsOther truthy => negb truthy
  end.

End Aggregate.

Definition build_unified_catalog_all_statements (years_json : YearsJson) : res Results :=
  try_except
    (match years_json with
     | JsonOther => Raise AttributeError
     | JsonDict years =>
         let years_data := match years with
                           | Some y => y
                           | None => YearsDict []
                           end in
         if Aggregate.years_falsy years_data then Ok empty_results
         else foldM (Aggregate.statement years_data) statement_types []
     end)
    (fun _ => Ok empty_results).

(** * The producer of the merger's input: [_restructure_for_merger]
      ([helpers/end_to_end_v2.py], and the same function in
      [streamlit_app/production_code/scraper_final.py])

    The scraper's flat table (a list of rows, each with a line item and the
    values found on the line) is turned into the sections and items that
    the flattener reads.  A line without values is a candidate section
    header; a line with values is an item of the current section.  The
    section under construction is the last element of [sections]: the code
    appends it when it creates it and goes on mutating it. *)

Module Restructure.

(** A row of the flat table; a field that may be missing is an [option]. *)
Record FlatRow : Type := mkFlatRow {
  line_item : option string;
  row_values : option Values
}.

(** [s.rstrip(":")] *)
Fixpoint drop_colons (l : list ascii) : list ascii :=
  match l with
  | c :: l' => if Ascii.eqb c ":"%char then drop_colons l' else l
  | [] => []
  end.

Definition rstrip_colons (s : string) : string :=
  PyStr.str (rev (drop_colons (rev (PyStr.chars s)))).

(** [row.get("line_item", "").strip()] and [row.get("values", {})] *)
Definition label_of_row (row : FlatRow) : string :=
  PyStr.strip (str_or_empty (line_item row)).

Definition values_of (row : FlatRow) : Values :=
  match row_values row with
  | Some values => values
  | None => []
  end.

(** [bool(values)] *)
Definition has_values (row : FlatRow) : bool :=
  match values_of row with
  | [] => false
  | _ :: _ => true
  end.

(** The tag of an item: the ["name"] of the metadata of its first value
    that is a dictionary with metadata. *)
Definition gaap_of_values (values : Values) : option string :=
  match find (fun yv : string * cell =>
                match snd yv with
                | Cell _ _ => true
                | Raw _ => false
                end) values with
  | Some (_, Cell _ meta) =>
      match Dict.get "name" meta with
      | Some name => name
      | None => None
      end
  | _ => None
  end.

Definition item_of (row : FlatRow) : Item :=
  mkItem (Some (label_of_row row)) (gaap_of_values (values_of row))
         (Some (values_of row)).

Definition new_section (label : string) : Section :=
  mkSection (Some label) None (Some []).

(** [current_section["items"].append(item)] *)
Definition append_item (sections : list Section) (item : Item) : list Section :=
  match rev sections with
  | [] => []
  | current :: before =>
      rev before
      ++ [mkSection (s_section current) (s_gaap current)
                    (Some (or_nil (s_items current) ++ [item]))]
  end.

(** One turn of [for row in rows], on [sections] and
    [pending_section_candidates]. *)
Definition step (st : list Section * list string) (row : FlatRow)
  : list Section * list string :=
  if negb (has_values row) then (fst st, snd st ++ [label_of_row row])
  else
    let sections1 :=
      match snd st with
      | [] => fst st
      | _ :: _ =>
          fst st ++ [new_section (PyStr.strip (rstrip_colons (last (snd st) "")))]
      end in
    let sections2 :=
      match sections1 with
      | [] => [new_section "Main"]
      | _ :: _ => sections1
      end in
    (append_item sections2 (item_of row), []).

End Restructure.

(** The document returned for the flat table's ["years"] and ["rows"]. *)
Definition _restructure_for_merger (years : option (list string))
  (rows : option (list Restructure.FlatRow)) : Filing :=
  mkFiling (Some (or_nil years))
           (Some (fst (fold_left Restructure.step (or_nil rows) ([], [])))).

(** ** Specification-side notions used by the statements *)

(** Python's [v == 0.0] on a stored cell. *)
Definition equals_zero (v : cell) : bool := negb (Reconciler.ne_zero v).

(** The first period, newest first, whose rows mention period key [P]. *)
Definition authoritative_period (flat_all : Dict.t (list Row))
  (years_sorted : list string) (P : string) : option string :=
  find (fun filing_year =>
          in_strs P (Reconciler.years_in (Orderer.rows_of flat_all filing_year)))
       years_sorted.

(** The rows of a period that lie under a section key. *)
Definition rows_under (flat_all : Dict.t (list Row)) (period sk : string) : list Row :=
  filter (fun r : Row => String.eqb (sec_key_of r) sk) (Orderer.rows_of flat_all period).

(** What one statement type yields on its own: its merged catalog, or the
    empty one when it has no usable data or its processing raises. *)
Definition own_catalog (years_data : YearsData) (stmt_type : string) : Catalog :=
  match Aggregate.collect stmt_type years_data with
  | Ok ((_ :: _) as stmt_years, _) =>
      match Aggregate.run_build stmt_years stmt_type with
      | Ok c => c
      | Raise _ => []
      end
  | _ => []
  end.

(** A statement type has no usable data in a year: the year has no document
    for it, or the document carries an ['error'] field. *)
Definition no_data_in (stmt_type : string) (year_data : YearData) : bool :=
  match year_data with
  | YearDict d =>
      match Dict.get stmt_type d with
      | None => true
      | Some doc => Aggregate.has_error doc
      end
  | YearOther => false
  end.

(** The normalised period keys that occur in a document, and in the
    documents of all input periods. *)
Definition document_period_keys (stmt : Filing) : list string :=
  flat_map (fun section : Section =>
              flat_map (fun item : Item =>
                          map normalize_year_key
                              (Dict.keys (match i_values item with
                                          | Some d => d
                                          | None => []
                                          end)))
                       (or_nil (s_items section)))
           (or_nil (sections stmt)).

Definition observed_period_keys (years_json : Dict.t (Dict.t Filing)) : list string :=
  flat_map (fun yf : string * Dict.t Filing =>
              match snd yf with
              | (_, stmt) :: _ => document_period_keys stmt
              | [] => []
              end)
           years_json.

(** The catalog as the merge loop of [build_unified_catalog] leaves it,
    before reconciliation and ordering. *)
Definition merged_catalog (years_json : Dict.t (Dict.t Filing)) : res Catalog :=
  let years_sorted := sorted_desc (Dict.keys years_json) in
  match years_sorted with
  | [] => Raise IndexError
  | latest_year :: _ =>
      do flat_all <- flatten_all years_json ;;
      do merged <- Builder.merge_all (last years_sorted latest_year) flat_all ;;
      Ok (fst merged)
  end.

(** The value an entry of a returned catalog holds for a period key. *)
Definition value_in (c : res Catalog) (key P : string) : option cell :=
  match c with
  | Ok catalog =>
      match Dict.get key catalog with
      | Some payload => Dict.get P (values payload)
      | None => None
      end
  | Raise _ => None
  end.

(** Merging a filing's rows a second time into the catalog obtained by
    merging them once leaves that catalog as it is. *)
Definition merge_idempotent_on (yr : string) (rows : list Row) : Prop :=
  exists unified rows',
    Builder.merge_filing yr [] rows = Ok (unified, rows')
    /\ Builder.merge_filing yr unified rows' = Ok (unified, rows').

(** A period key the overwrite test can read as a number. *)
Definition year_like (k : string) : Prop :=
  exists z, PyStr.int (normalize_year_key k) = Ok z.

(** The catalog entries that the rows of one section give rise to, and the
    entries of a whole filing, section by section. *)
Definition section_entries (group : string * list Row) : list (string * Payload) :=
  map (fun r : Row =>
         (Builder.unified_key
            (in_collisions (item_gaap r) (detect_gaap_collisions (snd group)))
            r (fst group),
          Builder.new_payload r))
      (snd group).

Definition filing_entries (rows : list Row) : list (string * Payload) :=
  flat_map section_entries (group_by (fun r : Row => Builder.sec_of r) rows).

(** [d[k] = v] for a pair. *)
Definition put {V : Type} (d : Dict.t V) (kv : string * V) : Dict.t V :=
  Dict.set (fst kv) (snd kv) d.

(** ** Notions used by the proofs *)

(** A group of rows seen as a section: its key with the tag and label of
    its first row. *)
Definition section_rep {A : Type} (view : A -> Payload) (group : string * list A)
  : string * (option string * option string) :=
  (fst group,
   match snd group with
   | x :: _ => (section_gaap (view x), section_label (view x))
   | [] => (None, None)
   end).

(** One turn of the loop that [first_sections] runs. *)
Definition first_sections_step {A : Type} (view : A -> Payload)
  (seen : Dict.t (option string * option string)) (x : A)
  : Dict.t (option string * option string) :=
  let sk := sec_key_of (view x) in
  if Dict.mem sk seen then seen
  else Dict.set sk (section_gaap (view x), section_label (view x)) seen.

(** The catalog binding that an ordered item stands for. *)
Definition placed_binding (x : Orderer.Placed) : string * Payload :=
  (Orderer.orig_key x, Orderer.payload x).

Definition sortable_binding (e : Orderer.Sortable) : string * Payload :=
  placed_binding (Orderer.item e).

(** The entries of a catalog that lie under a section key. *)
Definition entries_under (unified : Catalog) (sk : string) : list (string * Payload) :=
  filter (fun kp : string * Payload => String.eqb (Builder.sec_of (snd kp)) sk) unified.

(** The order in which the orderer visits the sections of a catalog. *)
Definition section_keys_sorted (unified : Catalog) (latest_section_order : Dict.t Z)
  : list string :=
  stable_sort (fun a b => Z.leb (rank_of latest_section_order a)
                                (rank_of latest_section_order b))
              (Dict.keys (group_by (fun kp : string * Payload => Builder.sec_of (snd kp))
                                   unified)).

(** A candidate section bound to the catalog section of the same key. *)
Definition bound_to_itself (c : string * (option string * option string))
  : string * option string :=
  (fst c, Some (fst c)).


Definition explicit (vals : Values) (y : string) : Prop :=
  forall v, Dict.get y vals = Some v -> v <> Raw PNone.

(** An entry is total over a set of period keys [U] when its value keys
    are exactly [U] and each is bound to a value other than [None]. *)
Definition total_over (U : list string) (p : Payload) : Prop :=
  (forall y, In y (Dict.keys (values p)) <-> In y U)
  /\ (forall y v, Dict.get y (values p) = Some v -> v <> Raw PNone).

Definition keys_within (U : list string) (c : Catalog) : Prop :=
  forall k p, In (k, p) c -> forall y, In y (Dict.keys (values p)) -> In y U.

Definition row_within (U : list string) (r : Row) : Prop :=
  forall y, In y (Dict.keys (values r)) -> In y U.

Definition same_values (fl fl0 : Dict.t (list Row)) : Prop :=
  Forall2 (fun a b => fst a = fst b
                      /\ map (fun r : Row => values r) (snd a)
                         = map (fun r : Row => values r) (snd b)) fl fl0.

(** What the sequence of a section is made of. *)
Definition shaped (latest_items older_only_items : list Orderer.Placed)
  (e : Orderer.Sortable) : Prop :=
  let sp := map Orderer.pos (stable_sort Orderer.spine_leb latest_items) in
  Orderer.tie e = Orderer.label_of (Orderer.item e)
  /\ ((Orderer.priority_flag e = 0
       /\ In (Orderer.item e) older_only_items
       /\ Orderer.anchor_idx e = Orderer.anchor_index_for_pos sp (Orderer.pos (Orderer.item e)))
      \/ (Orderer.priority_flag e = 1
          /\ In (Orderer.item e) latest_items
          /\ Orderer.anchor_idx e = Orderer.index_of sp (Orderer.pos (Orderer.item e)))).

(** How the entries of a section are told apart: an entry is a spine item
    when its identity has a position in the latest year, an older-only item
    otherwise. *)
Definition classified (positions_map : Orderer.PosMap) (latest_year : string)
  (years_sorted : list string) (sk : string) (latest : bool) (x : Orderer.Placed) : Prop :=
  exists ik,
    Orderer._item_identity_from_unified_key sk (Orderer.orig_key x) (Orderer.payload x)
    = Ok ik
    /\ if latest
       then Dict.get latest_year (Orderer.pm_get (sk, ik) positions_map)
            = Some (Orderer.pos x)
       else Dict.get latest_year (Orderer.pm_get (sk, ik) positions_map) = None
            /\ Orderer.pos x
               = Orderer.most_recent_pos years_sorted
                   (Orderer.pm_get (sk, ik) positions_map).

(** ** Worked inputs *)

Module Examples.

Definition s (x : string) : cell := Raw (PStr x).

Definition item (label : string) (vs : Values) : Item :=
  mkItem (Some label) None (Some vs).

Definition section (label : string) (items : list Item) : Section :=
  mkSection (Some label) None (Some items).

Definition statement (secs : list Section) : Filing :=
  mkFiling None (Some secs).

Definition filing (secs : list Section) : Dict.t Filing :=
  [("income_statement", statement secs)].

Definition rows_of (secs : list Section) : list Row :=
  _flag_duplicate_section_gaaps_label_only
    (fst (flatten_with_positions (statement secs))).

(** Two blank items: no tag, labels that normalise to the empty string. *)
Definition blank1 : Payload := mkPayload None None None (Some "") [].
Definition blank2 : Payload := mkPayload None None None (Some "---") [].
Definition blank_row : Row := mkRow blank2 0 false.

(** A document whose period list is not yet normalised. *)
Definition fy_doc : Filing := mkFiling (Some ["FY2023"]) (Some []).

(** The older filing is merged first; the newer one restates 2023. *)
Definition restated : Dict.t (Dict.t Filing) :=
  [("2023", filing [section "Main" [item "Net income" [("2023", s "90")]]]);
   ("2024", filing [section "Main"
                      [item "Net income" [("2024", s "100"); ("2023", s "95")]]])].

(** The filings come newest first; both report 2022, the older one with a
    different figure. *)
Definition comparative : Dict.t (Dict.t Filing) :=
  [("2024", filing [section "Main"
                      [item "Net income" [("2022", s "80"); ("2024", s "100")]]]);
   ("2023", filing [section "Main"
                      [item "Net income" [("2022", s "75"); ("2023", s "90")]]])].

(** The same two items under a section whose label changed. *)
Definition renamed_2024 : list Section :=
  [section "Assets" [item "Cash" [("2024", s "10")];
                     item "Inventory" [("2024", s "7")]]].
Definition renamed_2023 : list Section :=
  [section "Total holdings" [item "Cash" [("2023", s "9")];
                             item "Inventory" [("2023", s "6")]]].
Definition renamed : Dict.t (Dict.t Filing) :=
  [("2024", filing renamed_2024); ("2023", filing renamed_2023)].

(** One period in which a label occurs twice in a section. *)
Definition repeated_label : list Row :=
  rows_of [section "S" [item "A" [("2022", s "1")];
                        item "A" [("2022", s "2"); ("2021", s "9")];
                        item "B" [("2022", s "2")];
                        item "C" [("2022", s "2")]]].

(** Filing 2023 reports item B for 2023; filing 2024, which is authoritative
    for period key 2023, has no such item. *)
Definition ghost_rows : Dict.t (list Row) :=
  [("2024", rows_of [section "Main" [item "A" [("2024", s "1"); ("2023", s "2")]]]);
   ("2023", rows_of [section "Main" [item "B" [("2023", s "7"); ("2022", s "3")]]])].

Definition ghost_entry : Payload :=
  mkPayload None (Some "Main") None (Some "B") [("2023", s "7"); ("2022", s "3")].

Definition ghost_catalog : Catalog :=
  [("a|main", mkPayload None (Some "Main") None (Some "A")
                        [("2024", s "1"); ("2023", s "2")]);
   ("b|main", ghost_entry)].

(** A section whose latest filing lists five items; the oldest filing lists
    them too, followed by two fillers and, at position 7, an item that
    occurs nowhere else. *)
Definition spine_items : list Item :=
  [item "Alpha" [("2024", s "1")]; item "Bravo" [("2024", s "2")];
   item "Charlie" [("2024", s "3")]; item "Delta" [("2024", s "4")];
   item "Echo" [("2024", s "5")]].

Definition anchored_rows : Dict.t (list Row) :=
  [("2024", rows_of [section "Main" spine_items]);
   ("2023", rows_of [section "Main" spine_items]);
   ("2022", rows_of [section "Main"
              (spine_items ++ [item "Foxtrot" [("2022", s "6")];
                               item "Golf" [("2022", s "7")];
                               item "Legacy" [("2022", s "8")]])])].

Definition anchored_years : list string := ["2024"; "2023"; "2022"].

Definition anchored_section : list (string * Payload) :=
  map (fun l => (normalize_label (Some l) ++ "|main",
                 mkPayload None (Some "Main") None (Some l) []))%string
      ["Legacy"; "Echo"; "Golf"; "Delta"; "Charlie"; "Foxtrot"; "Bravo"; "Alpha"].

Definition anchored_out : list Orderer.Sortable :=
  match Orderer.order_section
          (Orderer.build_positions_map anchored_rows anchored_years)
          "2024" anchored_years "main" anchored_section with
  | Ok out => out
  | Raise _ => []
  end.

Definition legacy : Orderer.Sortable :=
  Orderer.mkSortable 5 0 "legacy"
    (Orderer.mkPlaced "legacy|main"
       (mkPayload None (Some "Main") None (Some "Legacy") []) 7).

(** The income statement of 2024 is not a dictionary; the balance sheet is
    sound; there is no cash flow statement. *)
Definition one_bad : YearsData :=
  YearsDict
    [("2024",
      YearDict
        [("income_statement", StmtOther);
         ("balance_sheet",
          StmtDict false (Some "https://example.org/10k")
                   (statement [section "Assets" [item "Cash" [("2024", s "10")]]]))])].

End Examples.

(** ** Further notions used by the statements *)

(** A call either returns a result that satisfies [P] or raises an
    exception that satisfies [Q]. *)
Definition outcome {A : Type} (P : A -> Prop) (Q : exn -> Prop) (r : res A) : Prop :=
  match r with
  | Ok a => P a
  | Raise e => Q e
  end.

(** Every period key of every entry, or of every row, satisfies [K]. *)
Definition entry_keys_satisfy (K : string -> Prop) (c : Catalog) : Prop :=
  forall k p, In (k, p) c -> forall y, In y (Dict.keys (values p)) -> K y.

Definition row_keys_satisfy (K : string -> Prop) (rows : list Row) : Prop :=
  forall r : Row, In r rows -> forall y, In y (Dict.keys (values r)) -> K y.

(** The items of a document, and the documents the builder reads: the first
    one of each period. *)
Definition document_items (stmt : Filing) : list Item :=
  flat_map (fun section : Section => or_nil (s_items section)) (or_nil (sections stmt)).

Definition first_documents (years_json : Dict.t (Dict.t Filing)) : list Filing :=
  flat_map (fun yf : string * Dict.t Filing =>
              match snd yf with
              | (_, stmt) :: _ => [stmt]
              | [] => []
              end)
           years_json.

(** ** Further worked inputs *)

Module Samples.

Definition entry (sec_gaap : option string) (sec_label item_label : string)
  (item_gaap : option string) (vs : Values) : Payload :=
  mkPayload sec_gaap (Some sec_label) item_gaap (Some item_label) vs.

Definition row (sec_gaap : option string) (sec_label item_label : string)
  (item_gaap : option string) (vs : Values) (position : Z) : Row :=
  mkRow (entry sec_gaap sec_label item_label item_gaap vs) position false.

(** An entry with a tag and one without, with the same figure for 2023. *)
Definition cash_tagged : Payload :=
  entry None "Assets" "Cash" (Some "us-gaap_Cash")
        [("2024", Examples.s "10"); ("2023", Examples.s "9")].
Definition cash_plain : Payload :=
  entry None "Assets" "Cash and cash equivalents" None
        [("2023", Examples.s "9"); ("2022", Examples.s "8")].

(** An entry all of whose values are blank. *)
Definition blank_line : Payload :=
  entry None "Assets" "Other" None [("2023", Examples.s "0"); ("2022", Raw PNone)].

(** A catalog with one section, and a filing in which two sections carry
    that section's label, the second one under a tag. *)
Definition assets_catalog : Catalog :=
  [("cash|assets", entry None "Assets" "Cash" None [("2024", Examples.s "10")])].
Definition twin_sections : list Row :=
  [row None "Assets" "Cash" None [("2023", Examples.s "9")] 0;
   row (Some "us-gaap_AssetsAbstract") "Assets" "Inventory" None
       [("2023", Examples.s "6")] 0].

(** A section that lists the same item twice. *)
Definition twin_items : list Row :=
  [row None "Assets" "Cash" None [("2023", Examples.s "9")] 0;
   row None "Assets" "Cash" None [("2023", Examples.s "9")] 1].

(** Two filings with one section each, and the catalog of their two
    entries, the older section first. *)
Definition two_filings : Dict.t (list Row) :=
  [("2024", [row None "Main" "A" None [("2024", Examples.s "1")] 0]);
   ("2023", [row None "Old" "B" None [("2023", Examples.s "7")] 0])].
Definition old_entry : Payload := entry None "Old" "B" None [("2023", Examples.s "7")].
Definition main_entry : Payload := entry None "Main" "A" None [("2024", Examples.s "1")].
Definition two_sections : Catalog := [("b|old", old_entry); ("a|main", main_entry)].

End Samples.

(** * Properties *)

Unset Implicit Arguments.

Lemma normalize_label_or_empty (l : option string) :
  normalize_label (Some (str_or_empty l)) = normalize_label l.
Proof. destruct l as [s|]; reflexivity. Qed.

(** ** Item matcher *)

(** C6: the label tier of [match_line_items] does not ask for non-empty
    labels.  Two items without a tag and without values, whose labels both
    normalise to the empty string, are matched by the label tier, whereas
    the presence reconciler's own label check rejects the same pair. *)
Theorem label_tier_accepts_empty_labels :
  normalize_label (item_label Examples.blank1) = ""
  /\ normalize_label (item_label Examples.blank2) = ""
  /\ Matcher.gaap_tier false Examples.blank1 Examples.blank2 = false
  /\ Matcher.label_tier Examples.blank1 Examples.blank2 = true
  /\ match_line_items Examples.blank1 Examples.blank2 [] false = true
  /\ Reconciler.item_matches Examples.blank1 "2023" Examples.blank_row = false.
Proof. repeat split; vm_compute; reflexivity. Qed.

(** ** Flattener *)

(** C9, as stated, fails: the call reassigns the document's period list. *)
Lemma flatten_rewrites_periods :
  snd (flatten_with_positions Examples.fy_doc) <> Examples.fy_doc.
Proof. vm_compute. discriminate. Qed.

(** C9, amended: [flatten_with_positions] leaves the sections and items of
    the document as they were and replaces its period list by the list of
    normalised period keys (the empty list when the document had none); a
    document without sections yields no rows. *)
Theorem flatten_with_positions_effect (filing : Filing) :
  sections (snd (flatten_with_positions filing)) = sections filing
  /\ periods (snd (flatten_with_positions filing))
     = Some (map normalize_year_key (or_nil (periods filing)))
  /\ fst (flatten_with_positions filing)
     = flat_map flatten_section (or_nil (sections filing))
  /\ fst (flatten_with_positions (mkFiling (periods filing) None)) = [].
Proof. repeat split. Qed.

(** ** Catalog builder on worked inputs *)

(** C1: the overwrite test compares the year left in [yr] by an earlier loop
    (the oldest filing) with the first period key of the entry, not the
    merging filing with the filing that recorded the value.  With filing
    2023 merged before filing 2024, the entry keeps 2023's value ["90"] for
    period key ["2023"] although the newer filing carries ["95"]; and with
    the filings supplied newest first, the older filing 2023 replaces the
    value ["80"] that the newer filing 2024 recorded for ["2022"] by its
    own ["75"]. *)
Theorem recency_stale_year_keeps_older_value :
  value_in (merged_catalog Examples.restated) "net income|main" "2023"
  = Some (Examples.s "90")
  /\ value_in (build_unified_catalog Examples.restated "income_statement")
              "net income|main" "2023"
     = Some (Examples.s "90")
  /\ value_in (merged_catalog Examples.comparative) "net income|main" "2022"
     = Some (Examples.s "75")
  /\ value_in (build_unified_catalog Examples.comparative "income_statement")
              "net income|main" "2022"
     = Some (Examples.s "75").
Proof. repeat split; vm_compute; reflexivity. Qed.

(** C2: the builder never calls the similarity fallback.  For a 2023
    section whose label changed but whose two items both match the 2024
    section, the fallback would bind the candidate (ratio 1 against the
    threshold 1/2), yet the builder files its rows under a new section. *)
Theorem fallback_not_applied_by_builder :
  exists unified rows24,
    Builder.merge_filing "2023" [] (Examples.rows_of Examples.renamed_2024)
    = Ok (unified, rows24)
    /\ _build_greedy_section_map unified (Examples.rows_of Examples.renamed_2023)
       = [("total holdings", None)]
    /\ _apply_fallback_section_matching unified
         (Examples.rows_of Examples.renamed_2023)
         [("total holdings", None)] default_ratio_threshold
       = Ok [("total holdings", Some "assets")]
    /\ option_map (fun ur => Dict.keys (fst ur))
         (match Builder.merge_filing "2023" unified
                  (Examples.rows_of Examples.renamed_2023) with
          | Ok ur => Some ur
          | Raise _ => None
          end)
       = Some ["cash|assets"; "inventory|assets";
               "cash|total holdings"; "inventory|total holdings"]
    /\ option_map (@Dict.keys Payload)
         (match build_unified_catalog Examples.renamed "income_statement" with
          | Ok c => Some c
          | Raise _ => None
          end)
       = Some ["cash|assets"; "inventory|assets";
               "cash|total holdings"; "inventory|total holdings"].
Proof. eexists; eexists; repeat split; vm_compute; reflexivity. Qed.

(** ** Dictionaries *)

Section DictFacts.
Variable V : Type.
Implicit Types (d : Dict.t V) (k : string) (v : V).

Lemma get_set_same d k v : Dict.get k (Dict.set k v d) = Some v.
Proof.
  induction d as [|[k' v'] d IH]; simpl.
  - now rewrite String.eqb_refl.
  - destruct (String.eqb k' k) eqn:E; simpl; rewrite E; auto.
Qed.

Lemma get_set_other d k k' v :
  k <> k' -> Dict.get k (Dict.set k' v d) = Dict.get k d.
Proof.
  intros N. induction d as [|[k0 v0] d IH]; simpl.
  - destruct (String.eqb k' k) eqn:E; auto.
    apply String.eqb_eq in E. congruence.
  - destruct (String.eqb k0 k') eqn:E; simpl.
    + apply String.eqb_eq in E. subst k0.
      destruct (String.eqb k' k) eqn:E'; auto.
      apply String.eqb_eq in E'. congruence.
    + now rewrite IH.
Qed.

Lemma in_set d k v k0 v0 :
  In (k, v) (Dict.set k0 v0 d) -> (k, v) = (k0, v0) \/ In (k, v) d.
Proof.
  induction d as [|[k1 v1] d IH]; simpl.
  - intros [H|[]]. left. now symmetry.
  - destruct (String.eqb k1 k0) eqn:E; simpl.
    + apply String.eqb_eq in E. subst k1.
      intros [H|H]; [left; now symmetry | right; now right].
    + intros [H|H]; [right; now left |].
      destruct (IH H); auto.
Qed.

Lemma keys_set d k0 v0 k :
  In k (Dict.keys (Dict.set k0 v0 d)) <-> k = k0 \/ In k (Dict.keys d).
Proof.
  unfold Dict.keys. induction d as [|[k1 v1] d IH]; simpl.
  - intuition.
  - destruct (String.eqb k1 k0) eqn:E; simpl.
    + apply String.eqb_eq in E. subst k1. intuition.
    + rewrite IH. intuition.
Qed.

Lemma keys_set_present d k v :
  Dict.mem k d = true -> Dict.keys (Dict.set k v d) = Dict.keys d.
Proof.
  unfold Dict.mem, Dict.keys. induction d as [|[k1 v1] d IH]; simpl.
  - discriminate.
  - destruct (String.eqb k1 k) eqn:E; simpl; auto.
    intros H. now rewrite IH.
Qed.

Lemma get_some_in d k v : Dict.get k d = Some v -> In (k, v) d.
Proof.
  induction d as [|[k1 v1] d IH]; simpl; [discriminate|].
  destruct (String.eqb k1 k) eqn:E.
  - apply String.eqb_eq in E. intros [= ->]. left. now subst.
  - auto.
Qed.

Lemma mem_keys d k : Dict.mem k d = true <-> In k (Dict.keys d).
Proof.
  unfold Dict.mem, Dict.keys. induction d as [|[k1 v1] d IH]; simpl.
  - intuition discriminate.
  - destruct (String.eqb k1 k) eqn:E.
    + apply String.eqb_eq in E. intuition.
    + rewrite IH. apply String.eqb_neq in E. intuition.
Qed.

Lemma get_none_keys d k : Dict.get k d = None <-> ~ In k (Dict.keys d).
Proof.
  rewrite <- mem_keys. unfold Dict.mem.
  destruct (Dict.get k d); intuition discriminate.
Qed.
Lemma get_none_keys_neg d k : In k (Dict.keys d) -> Dict.get k d <> None.
Proof. intros H N. apply get_none_keys in N. contradiction. Qed.
End DictFacts.

Lemma in_strs_In (x : string) (l : list string) : in_strs x l = true <-> In x l.
Proof.
  unfold in_strs. rewrite existsb_exists. split.
  - intros [y [H E]]. apply String.eqb_eq in E. now subst.
  - intros H. exists x. split; auto. apply String.eqb_refl.
Qed.

Ltac dict_simpl :=
  repeat (rewrite get_set_same || (rewrite get_set_other by discriminate)).

(** ** Aggregate entry point *)

(** One turn of the loop over the statement types always returns, and
    writes only the statement type's own keys. *)
Lemma statement_outcome (years_data : YearsData) (results : Results) (t : string) :
  In t statement_types ->
  exists r,
    Aggregate.statement years_data results t = Ok r
    /\ Dict.get t r = Some (Cat (own_catalog years_data t))
    /\ (forall k, k <> t -> k <> (t ++ "_url")%string -> Dict.get k r = Dict.get k results)
    /\ Dict.get (t ++ "_url")%string r
       = match Aggregate.collect t years_data with
         | Ok ([], _) => Some (Urls [])
         | Ok ((_ :: _) as stmt_years, source_urls) =>
             match Aggregate.run_build stmt_years t with
             | Ok _ => Some (Urls source_urls)
             | Raise _ => Dict.get (t ++ "_url")%string results
             end
         | Raise _ => Dict.get (t ++ "_url")%string results
         end.
Proof.
  intros Ht. unfold Aggregate.statement, Aggregate.process, own_catalog, try_except, bind.
  destruct (Aggregate.collect t years_data) as [[stmt_years urls]|e]; cbn [fst snd].
  - destruct stmt_years as [|y ys].
    + eexists. split; [reflexivity|].
      simpl in Ht. destruct Ht as [<-|[<-|[<-|[]]]]; simpl;
        (repeat split; [dict_simpl; reflexivity
                       | intros k N1 N2; now rewrite !get_set_other by congruence
                       | dict_simpl; reflexivity]).
    + destruct (Aggregate.run_build (y :: ys) t) as [c|e].
      * eexists. split; [reflexivity|].
        simpl in Ht. destruct Ht as [<-|[<-|[<-|[]]]]; simpl;
          (repeat split; [dict_simpl; reflexivity
                         | intros k N1 N2; now rewrite !get_set_other by congruence
                         | dict_simpl; reflexivity]).
      * eexists. split; [reflexivity|].
        simpl in Ht. destruct Ht as [<-|[<-|[<-|[]]]]; simpl;
          (repeat split; [dict_simpl; reflexivity
                         | intros k N1 N2; now rewrite !get_set_other by congruence
                         | dict_simpl; reflexivity]).
  - eexists. split; [reflexivity|].
    simpl in Ht. destruct Ht as [<-|[<-|[<-|[]]]]; simpl;
      (repeat split; [dict_simpl; reflexivity
                     | intros k N1 N2; now rewrite !get_set_other by congruence
                     | dict_simpl; reflexivity]).
Qed.

(** After the three turns every statement type holds its own outcome. *)
Lemma statements_outcome (years_data : YearsData) :
  exists r,
    foldM (Aggregate.statement years_data) statement_types [] = Ok r
    /\ forall t, In t statement_types ->
         Dict.get t r = Some (Cat (own_catalog years_data t))
         /\ Dict.get (t ++ "_url")%string r
            = match Aggregate.collect t years_data with
              | Ok ([], _) => Some (Urls [])
              | Ok ((_ :: _) as stmt_years, source_urls) =>
                  match Aggregate.run_build stmt_years t with
                  | Ok _ => Some (Urls source_urls)
                  | Raise _ => None
                  end
              | Raise _ => None
              end.
Proof.
  unfold statement_types.
  destruct (@statement_outcome years_data [] "income_statement")
    as [r1 [E1 [G1 [F1 U1]]]]; [simpl; auto|].
  destruct (@statement_outcome years_data r1 "balance_sheet")
    as [r2 [E2 [G2 [F2 U2]]]]; [simpl; auto|].
  destruct (@statement_outcome years_data r2 "cash_flow_statement")
    as [r3 [E3 [G3 [F3 U3]]]]; [simpl; auto|].
  exists r3. split.
  - simpl. unfold bind. now rewrite E1, E2, E3.
  - intros t [<-|[<-|[<-|[]]]].
    + split.
      * rewrite F3, F2 by discriminate. exact G1.
      * rewrite F3, F2 by discriminate. exact U1.
    + split.
      * rewrite F3 by discriminate. exact G2.
      * rewrite F3 by discriminate. rewrite U2.
        rewrite (F1 ("balance_sheet" ++ "_url")%string) by discriminate. reflexivity.
    + split.
      * exact G3.
      * rewrite U3.
        rewrite (F2 ("cash_flow_statement" ++ "_url")%string) by discriminate.
        rewrite (F1 ("cash_flow_statement" ++ "_url")%string) by discriminate. reflexivity.
Qed.

Lemma collect_no_data (t : string) (d : Dict.t YearData) (st : Dict.t (Dict.t StmtValue) * list string) :
  forallb (no_data_in t) (Dict.vals d) = true ->
  foldM (Aggregate.collect_year t) d st = Ok st.
Proof.
  unfold Dict.vals. revert st. induction d as [|[y yd] d IH]; intros st H; simpl in *.
  - reflexivity.
  - apply andb_true_iff in H. destruct H as [H1 H2].
    unfold Aggregate.collect_year at 1. simpl.
    destruct yd as [yd|]; simpl in H1; [|discriminate].
    destruct (Dict.get t yd) as [doc|].
    + rewrite H1. simpl. now apply IH.
    + simpl. now apply IH.
Qed.

Lemma own_catalog_no_data (t : string) (d : Dict.t YearData) :
  forallb (no_data_in t) (Dict.vals d) = true ->
  own_catalog (YearsDict d) t = [].
Proof.
  intros H. unfold own_catalog, Aggregate.collect.
  now rewrite (collect_no_data t d ([], []) H).
Qed.

Lemma all_statements_falsy (years_data : YearsData) :
  Aggregate.years_falsy years_data = true ->
  build_unified_catalog_all_statements (JsonDict (Some years_data)) = Ok empty_results.
Proof. intros F. unfold build_unified_catalog_all_statements. now rewrite F. Qed.

Lemma all_statements_truthy (years_data : YearsData) :
  Aggregate.years_falsy years_data = false ->
  build_unified_catalog_all_statements (JsonDict (Some years_data))
  = try_except (foldM (Aggregate.statement years_data) statement_types [])
               (fun _ => Ok empty_results).
Proof. intros F. unfold build_unified_catalog_all_statements. now rewrite F. Qed.

(** C8: the aggregate entry point always returns, with one catalog per
    statement type.  Each statement type gets the outcome of its own
    processing alone: its merged catalog, or the empty catalog when its
    processing raises; a statement type all of whose documents are missing
    or carry an ['error'] field gets the empty catalog; and when the
    argument is not a dictionary the three empty catalogs are returned. *)
Theorem aggregate_never_raises_and_isolates (years_json : YearsJson) :
  exists r,
    build_unified_catalog_all_statements years_json = Ok r
    /\ (forall t, In t statement_types ->
        exists c,
          Dict.get t r = Some (Cat c)
          /\ (forall years_data,
                 years_json = JsonDict (Some years_data) ->
                 Aggregate.years_falsy years_data = false ->
                 c = own_catalog years_data t)
          /\ (forall d,
                 years_json = JsonDict (Some (YearsDict d)) ->
                 forallb (no_data_in t) (Dict.vals d) = true ->
                 c = []))
    /\ (years_json = JsonOther -> r = empty_results).
Proof.
  assert (Hempty : forall t, In t statement_types ->
                             Dict.get t empty_results = Some (Cat [])).
  { intros t [<-|[<-|[<-|[]]]]; reflexivity. }
  destruct years_json as [[years_data|]|].
  - destruct (Aggregate.years_falsy years_data) eqn:F.
    + exists empty_results. split; [now rewrite all_statements_falsy|].
      split; [|discriminate].
      intros t Ht. exists []. split; [now apply Hempty|]. split.
      * intros yd [= <-] F'. congruence.
      * reflexivity.
    + destruct (statements_outcome years_data) as [r [E H]].
      exists r. rewrite all_statements_truthy, E by assumption.
      split; [reflexivity|]. split; [|discriminate].
      intros t Ht. exists (own_catalog years_data t). split; [apply (H t Ht)|]. split.
      * now intros yd [= <-] _.
      * intros d [= ->] Hd. now apply own_catalog_no_data.
  - exists empty_results. split; [reflexivity|]. split; [|discriminate].
    intros t Ht. exists []. split; [now apply Hempty|]. split.
    + discriminate.
    + discriminate.
  - exists empty_results. split; [reflexivity|]. split; [|reflexivity].
    intros t Ht. exists []. split; [now apply Hempty|]. split; discriminate.
Qed.


Lemma aggregate_never_raises_and_isolates_witness :
  exists r,
    build_unified_catalog_all_statements (JsonDict (Some Examples.one_bad)) = Ok r
    /\ Dict.get "income_statement" r = Some (Cat [])
    /\ Dict.get "balance_sheet" r
       = Some (Cat (own_catalog Examples.one_bad "balance_sheet"))
    /\ Dict.keys (own_catalog Examples.one_bad "balance_sheet") = ["cash|assets"]
    /\ Dict.get "cash_flow_statement" r = Some (Cat []).
Proof.
  destruct (aggregate_never_raises_and_isolates (JsonDict (Some Examples.one_bad)))
    as [r [E [H _]]].
  exists r. split; [exact E|].
  destruct (H "income_statement" (or_introl eq_refl)) as [c1 [G1 [O1 _]]].
  destruct (H "balance_sheet" (or_intror (or_introl eq_refl))) as [c2 [G2 [O2 _]]].
  destruct (H "cash_flow_statement" (or_intror (or_intror (or_introl eq_refl))))
    as [c3 [G3 [_ N3]]].
  rewrite (O1 Examples.one_bad eq_refl eq_refl) in G1.
  rewrite (O2 Examples.one_bad eq_refl eq_refl) in G2.
  unfold Examples.one_bad in N3. rewrite (N3 _ eq_refl eq_refl) in G3.
  split; [exact G1|]. split; [exact G2|]. split; [reflexivity | exact G3].
Defined.


(** ** Grouping *)

Lemma get_group_append (A : Type) (k k' : string) (x : A) (d : Dict.t (list A)) :
  Dict.get k (group_append k' x d)
  = if String.eqb k' k
    then Some (match Dict.get k d with Some l => l ++ [x] | None => [x] end)
    else Dict.get k d.
Proof.
  unfold group_append. destruct (String.eqb k' k) eqn:E.
  - apply String.eqb_eq in E. subst k'. now rewrite get_set_same.
  - apply String.eqb_neq in E. rewrite get_set_other; auto.
Qed.

Lemma get_group_fold (A : Type) (key : A -> string) (k : string) (l : list A) :
  forall d,
    Dict.get k (fold_left (fun d x => group_append (key x) x d) l d)
    = match Dict.get k d, filter (fun x => String.eqb (key x) k) l with
      | None, [] => None
      | None, g => Some g
      | Some l0, g => Some (l0 ++ g)
      end.
Proof.
  induction l as [|x l IH]; intros d; simpl.
  - destruct (Dict.get k d); [now rewrite app_nil_r | reflexivity].
  - rewrite IH, get_group_append.
    destruct (String.eqb (key x) k); [|reflexivity].
    destruct (Dict.get k d) as [l0|]; simpl; [now rewrite <- app_assoc | reflexivity].
Qed.

(** A group holds exactly the elements with its key, in order. *)
Lemma get_group_by (A : Type) (key : A -> string) (k : string) (l : list A) :
  match Dict.get k (group_by key l) with
  | Some g => g
  | None => []
  end = filter (fun x => String.eqb (key x) k) l.
Proof.
  unfold group_by. rewrite get_group_fold. simpl.
  now destruct (filter (fun x => String.eqb (key x) k) l).
Qed.

(** ** Presence reconciler *)

Lemma foldM_ok_inv (S X : Type) (body : S -> X -> res S) (l : list X) :
  forall s s', foldM body l s = Ok s' ->
  forall P : S -> Prop,
    P s -> (forall s0 x s1, In x l -> P s0 -> body s0 x = Ok s1 -> P s1) -> P s'.
Proof.
  induction l as [|x l IH]; simpl; intros s s' E P Hs Hstep.
  - now inversion E; subst.
  - unfold bind in E. destruct (body s x) as [s1|e] eqn:B; [|discriminate].
    apply (IH s1 s' E P).
    + eapply Hstep; eauto.
    + intros s0 y s2 Hy. apply Hstep. now right.
Qed.

Lemma authoritative_year_fold (P filing_year : string) (ys : list string) :
  forall m,
    Dict.get P (fold_left (fun m year =>
                             if Dict.mem year m then m else Dict.set year filing_year m)
                          ys m)
    = match Dict.get P m with
      | Some a => Some a
      | None => if in_strs P ys then Some filing_year else None
      end.
Proof.
  induction ys as [|y ys IH]; intros m; simpl.
  - now destruct (Dict.get P m).
  - rewrite IH. unfold Dict.mem. destruct (Dict.get y m) as [a|] eqn:G.
    + destruct (Dict.get P m) as [b|] eqn:GP; [reflexivity|].
      destruct (String.eqb P y) eqn:E; [|reflexivity].
      apply String.eqb_eq in E. subst y. congruence.
    + destruct (String.eqb P y) eqn:E.
      * apply String.eqb_eq in E. subst y. rewrite get_set_same, G. reflexivity.
      * apply String.eqb_neq in E. rewrite get_set_other by assumption.
        reflexivity.
Qed.

(** The map built by the first step is the specification's "first period,
    newest first, that mentions the key". *)
Lemma authoritative_spec_gen (flat_all : Dict.t (list Row)) (P : string)
  (years_sorted : list string) :
  forall m0 m,
    foldM (Reconciler.authoritative_step flat_all) years_sorted m0 = Ok m ->
    Dict.get P m
    = match Dict.get P m0 with
      | Some a => Some a
      | None => authoritative_period flat_all years_sorted P
      end.
Proof.
  unfold authoritative_period.
  induction years_sorted as [|y ys IH]; simpl; intros m0 m E.
  - inversion E; subst. now destruct (Dict.get P m).
  - unfold bind in E. unfold Reconciler.authoritative_step at 1 in E.
    unfold Orderer.rows_of at 1.
    destruct (Dict.get y flat_all) as [rows|] eqn:G; [|discriminate].
    rewrite (IH _ _ E), authoritative_year_fold.
    destruct (Dict.get P m0); [reflexivity|].
    now destruct (in_strs P (Reconciler.years_in rows)).
Qed.

Lemma authoritative_spec (flat_all : Dict.t (list Row)) (years_sorted : list string)
  (m : Dict.t string) (P : string) :
  Reconciler.year_to_authoritative_filing flat_all years_sorted = Ok m ->
  Dict.get P m = authoritative_period flat_all years_sorted P.
Proof.
  intros E. unfold Reconciler.year_to_authoritative_filing in E.
  now rewrite (authoritative_spec_gen flat_all P years_sorted [] m E).
Qed.

Lemma authoritative_all_present (flat_all : Dict.t (list Row)) (years_sorted : list string) :
  forall m0 m,
    foldM (Reconciler.authoritative_step flat_all) years_sorted m0 = Ok m ->
    forall y, In y years_sorted -> Dict.get y flat_all <> None.
Proof.
  induction years_sorted as [|y0 ys IH]; simpl; intros m0 m E y Hy; [contradiction|].
  unfold bind in E. unfold Reconciler.authoritative_step at 1 in E.
  destruct (Dict.get y0 flat_all) as [rows|] eqn:G; [|discriminate].
  destruct Hy as [<-|Hy]; [congruence|]. eapply IH; eauto.
Qed.

Lemma authoritative_returns (flat_all : Dict.t (list Row)) (years_sorted : list string) :
  forall m0,
    (forall y, In y years_sorted -> Dict.get y flat_all <> None) ->
    exists m, foldM (Reconciler.authoritative_step flat_all) years_sorted m0 = Ok m.
Proof.
  induction years_sorted as [|y ys IH]; simpl; intros m0 H.
  - now exists m0.
  - unfold Reconciler.authoritative_step at 1.
    destruct (Dict.get y flat_all) as [rows|] eqn:G.
    + simpl. apply IH. intros y' Hy'. apply H. now right.
    + exfalso. apply (H y); auto.
Qed.

Lemma filing_sections_get (flat_all : Dict.t (list Row)) (a : string) (rows : list Row) :
  Dict.get a flat_all = Some rows ->
  forall years_sorted fs0,
    Dict.get a
      (fold_left (fun fs filing_year =>
                    match Dict.get filing_year flat_all with
                    | Some rows =>
                        Dict.set filing_year
                                 (group_by (fun r : Row => sec_key_of r) rows) fs
                    | None => fs
                    end) years_sorted fs0)
    = if in_strs a years_sorted
      then Some (group_by (fun r : Row => sec_key_of r) rows)
      else Dict.get a fs0.
Proof.
  intros G. induction years_sorted as [|y ys IH]; simpl; intros fs0; [reflexivity|].
  rewrite IH. destruct (in_strs a ys) eqn:I.
  - now rewrite orb_true_r.
  - rewrite orb_false_r. destruct (String.eqb a y) eqn:E.
    + apply String.eqb_eq in E. subst y. rewrite G. apply get_set_same.
    + apply String.eqb_neq in E.
      destruct (Dict.get y flat_all); [now apply get_set_other | reflexivity].
Qed.

(** The rows the third step searches are the authoritative period's rows
    under the entry's section key. *)
Lemma auth_section_items_spec (flat_all : Dict.t (list Row))
  (years_sorted : list string) (a sk : string) :
  In a years_sorted ->
  Dict.get a flat_all <> None ->
  Reconciler.auth_section_items (Reconciler.filing_sections flat_all years_sorted) a sk
  = rows_under flat_all a sk.
Proof.
  intros Ha Hp. unfold Reconciler.auth_section_items, Reconciler.filing_sections, rows_under.
  destruct (Dict.get a flat_all) as [rows|] eqn:G; [|congruence].
  rewrite (filing_sections_get flat_all a rows G).
  apply in_strs_In in Ha. rewrite Ha.
  unfold Orderer.rows_of. rewrite G.
  apply get_group_by.
Qed.

Lemma item_matches_ext (p q : Payload) (P : string) (r : Row) :
  item_gaap p = item_gaap q ->
  item_label p = item_label q ->
  Dict.get P (values p) = Dict.get P (values q) ->
  Reconciler.item_matches p P r = Reconciler.item_matches q P r.
Proof. intros G L V. unfold Reconciler.item_matches. now rewrite G, L, V. Qed.

Lemma zero_if_set_other (p : Payload) (y P : string) :
  P <> y ->
  Dict.get P (values (Reconciler.zero_if_set p y)) = Dict.get P (values p).
Proof.
  intros N. unfold Reconciler.zero_if_set.
  destruct (Dict.get y (values p)) as [v|]; [|reflexivity].
  destruct (Reconciler.ne_zero v); [|reflexivity].
  simpl. now apply get_set_other.
Qed.

Lemma zero_if_set_same (p : Payload) (P : string) (v : cell) :
  Dict.get P (values p) = Some v ->
  Dict.get P (values (Reconciler.zero_if_set p P))
  = Some (if Reconciler.ne_zero v then zero else v).
Proof.
  intros G. unfold Reconciler.zero_if_set. rewrite G.
  destruct (Reconciler.ne_zero v); [|assumption].
  simpl. apply get_set_same.
Qed.

Lemma zero_if_set_fields (p : Payload) (y : string) :
  item_gaap (Reconciler.zero_if_set p y) = item_gaap p
  /\ item_label (Reconciler.zero_if_set p y) = item_label p.
Proof.
  unfold Reconciler.zero_if_set.
  destruct (Dict.get y (values p)) as [v|]; [|now split].
  destruct (Reconciler.ne_zero v); now split.
Qed.

Lemma check_year_cases (y2a : Dict.t string) (fs : Dict.t (Dict.t (list Row)))
  (sk : string) (p : Payload) (y : string) :
  Reconciler.check_year y2a fs sk p y = p
  \/ Reconciler.check_year y2a fs sk p y = Reconciler.zero_if_set p y.
Proof.
  unfold Reconciler.check_year.
  destruct (Dict.get y y2a) as [a|]; [|now left].
  destruct (Reconciler.auth_section_items fs a sk) as [|r rs]; [now right|].
  destruct (existsb (Reconciler.item_matches p y) (r :: rs)); [now left | now right].
Qed.

Lemma ne_zero_settled (v : cell) :
  Reconciler.ne_zero (if Reconciler.ne_zero v then zero else v) = false.
Proof. destruct (Reconciler.ne_zero v) eqn:E; [reflexivity | exact E]. Qed.

Section OneEntry.
Variables (y2a : Dict.t string) (fs : Dict.t (Dict.t (list Row))).
Variables (payload : Payload) (P a : string) (v : cell).
Hypothesis Hauth : Dict.get P y2a = Some a.
Hypothesis Habsent :
  forall r, In r (Reconciler.auth_section_items fs a (sec_key_of payload)) ->
            Reconciler.item_matches payload P r = false.

Let settled : cell := if Reconciler.ne_zero v then zero else v.
Let step := Reconciler.check_year y2a fs (sec_key_of payload).

Let same_item (p : Payload) : Prop :=
  item_gaap p = item_gaap payload /\ item_label p = item_label payload.

Lemma step_same_item (p : Payload) (y : string) :
  same_item p -> same_item (step p y).
Proof.
  intros [G L]. unfold step.
  destruct (check_year_cases y2a fs (sec_key_of payload) p y) as [-> | ->].
  - now split.
  - destruct (zero_if_set_fields p y) as [G' L']. split; congruence.
Qed.

Lemma step_other (p : Payload) (y : string) :
  P <> y -> Dict.get P (values (step p y)) = Dict.get P (values p).
Proof.
  intros N. unfold step.
  destruct (check_year_cases y2a fs (sec_key_of payload) p y) as [-> | ->];
    [reflexivity | now apply zero_if_set_other].
Qed.

Lemma step_settled (p : Payload) (y : string) :
  Dict.get P (values p) = Some settled ->
  Dict.get P (values (step p y)) = Some settled.
Proof.
  intros G. destruct (String.eqb P y) eqn:E.
  - apply String.eqb_eq in E. subst y. unfold step.
    destruct (check_year_cases y2a fs (sec_key_of payload) p P) as [-> | ->];
      [assumption|].
    rewrite (zero_if_set_same p P settled G). unfold settled.
    now rewrite ne_zero_settled.
  - apply String.eqb_neq in E. now rewrite step_other.
Qed.

Lemma step_at_key (p : Payload) :
  same_item p ->
  Dict.get P (values p) = Dict.get P (values payload) ->
  Dict.get P (values payload) = Some v ->
  Dict.get P (values (step p P)) = Some settled.
Proof.
  intros [G L] V Hv. unfold step, Reconciler.check_year. rewrite Hauth.
  assert (M : existsb (Reconciler.item_matches p P)
                      (Reconciler.auth_section_items fs a (sec_key_of payload))
              = false).
  { destruct (existsb _ _) eqn:X; [|reflexivity].
    apply existsb_exists in X. destruct X as [r [Hr Hm]].
    rewrite (item_matches_ext p payload P r G L V) in Hm.
    rewrite (Habsent r Hr) in Hm. discriminate. }
  rewrite M.
  assert (Z : Dict.get P (values (Reconciler.zero_if_set p P)) = Some settled).
  { apply zero_if_set_same. congruence. }
  now destruct (Reconciler.auth_section_items fs a (sec_key_of payload)).
Qed.

Lemma fold_settled (ks : list string) :
  forall p, Dict.get P (values p) = Some settled ->
            Dict.get P (values (fold_left step ks p)) = Some settled.
Proof.
  induction ks as [|y ks IH]; simpl; intros p G; [assumption|].
  apply IH. now apply step_settled.
Qed.

Lemma fold_reaches_key (ks : list string) :
  In P ks ->
  Dict.get P (values payload) = Some v ->
  forall p, same_item p ->
            Dict.get P (values p) = Dict.get P (values payload) ->
            Dict.get P (values (fold_left step ks p)) = Some settled.
Proof.
  intros Hin Hv. induction ks as [|y ks IH]; simpl; intros p S V; [contradiction|].
  destruct (String.eqb P y) eqn:E.
  - apply String.eqb_eq in E. subst y.
    apply fold_settled. now apply step_at_key.
  - apply String.eqb_neq in E. destruct Hin as [->|Hin]; [congruence|].
    apply IH; auto.
    + now apply step_same_item.
    + now rewrite step_other.
Qed.

Lemma check_payload_settles :
  Dict.get P (values payload) = Some v ->
  Dict.get P (values (Reconciler.check_payload y2a fs payload)) = Some settled.
Proof.
  intros Hv. unfold Reconciler.check_payload.
  apply fold_reaches_key; auto.
  - apply mem_keys. unfold Dict.mem. now rewrite Hv.
  - now split.
Qed.
End OneEntry.

(** C4: let [auth] be the first period, newest first, whose rows mention
    period key [P].  If no row of [auth] under the entry's section key
    matches the entry (by tag, by non-empty normalised label, or by the
    value for [P]) -- in particular if [auth] has no row under that key --
    then the reconciler leaves the entry with [0.0] for [P]: the stored value
    is kept when it already equals zero and is replaced by [0.0] otherwise. *)
Theorem presence_reconciler_zeroes_absent
  (unified : Catalog) (flat_all : Dict.t (list Row))
  (years_sorted : list string) (key : string) (payload : Payload)
  (P auth : string) (v : cell) :
  (forall y, In y years_sorted -> Dict.get y flat_all <> None) ->
  In (key, payload) unified ->
  Dict.get P (values payload) = Some v ->
  authoritative_period flat_all years_sorted P = Some auth ->
  (forall r, In r (rows_under flat_all auth (sec_key_of payload)) ->
             Reconciler.item_matches payload P r = false) ->
  exists unified' payload' v',
    zero_out_overlapping_years_for_new_items unified flat_all years_sorted = Ok unified'
    /\ In (key, payload') unified'
    /\ Dict.get P (values payload') = Some v'
    /\ v' = (if equals_zero v then v else zero)
    /\ equals_zero v' = true.
Proof.
  intros Hall Hin Hv Hauth Habsent.
  destruct (authoritative_returns flat_all years_sorted [] Hall) as [y2a Y].
  unfold zero_out_overlapping_years_for_new_items, bind.
  fold (Reconciler.year_to_authoritative_filing flat_all years_sorted) in Y.
  rewrite Y.
  set (fs := Reconciler.filing_sections flat_all years_sorted).
  eexists. exists (Reconciler.check_payload y2a fs payload),
         (if Reconciler.ne_zero v then zero else v).
  assert (Ha : In auth years_sorted).
  { unfold authoritative_period in Hauth. now apply find_some in Hauth. }
  split; [reflexivity|]. split; [|split; [|split]].
  - apply (in_map (fun kp => (fst kp, Reconciler.check_payload y2a fs (snd kp)))
                  unified (key, payload) Hin).
  - apply (check_payload_settles y2a fs payload P auth v); auto.
    + now rewrite (authoritative_spec flat_all years_sorted y2a P Y).
    + intros r Hr. apply Habsent. unfold fs in Hr.
      rewrite auth_section_items_spec in Hr; auto.
  - unfold equals_zero. now destruct (Reconciler.ne_zero v).
  - unfold equals_zero. now rewrite ne_zero_settled.
Qed.

Lemma presence_reconciler_zeroes_absent_witness :
  exists unified' payload',
    zero_out_overlapping_years_for_new_items
      Examples.ghost_catalog Examples.ghost_rows ["2024"; "2023"] = Ok unified'
    /\ In ("b|main", payload') unified'
    /\ Dict.get "2023" (values payload') = Some zero.
Proof.
  destruct (presence_reconciler_zeroes_absent
              Examples.ghost_catalog Examples.ghost_rows ["2024"; "2023"]
              "b|main" Examples.ghost_entry "2023" "2024" (Examples.s "7"))
    as [unified' [payload' [v' [E [I [G [V _]]]]]]].
  - intros y [<-|[<-|[]]]; discriminate.
  - right. left. reflexivity.
  - reflexivity.
  - reflexivity.
  - intros r [<-|[]]. reflexivity.
  - exists unified', payload'. split; [exact E|]. split; [exact I|].
    rewrite G, V. reflexivity.
Defined.

(** ** Stable sorting *)

Lemma str_compare_trans (s1 : string) :
  forall s2 s3,
    String.compare s1 s2 <> Gt -> String.compare s2 s3 <> Gt ->
    String.compare s1 s3 <> Gt.
Proof.
  induction s1 as [|a s1 IH]; intros [|b s2] [|c s3]; simpl; try congruence.
  unfold Ascii.compare.
  destruct (N.compare_spec (N_of_ascii a) (N_of_ascii b)) as [E1|L1|G1];
    destruct (N.compare_spec (N_of_ascii b) (N_of_ascii c)) as [E2|L2|G2];
    destruct (N.compare_spec (N_of_ascii a) (N_of_ascii c)) as [E3|L3|G3];
    try congruence; try lia.
  apply IH.
Qed.

Lemma str_leb_trans (a b c : string) :
  str_leb a b = true -> str_leb b c = true -> str_leb a c = true.
Proof.
  unfold str_leb, String.leb. intros H1 H2.
  pose proof (str_compare_trans a b c) as T.
  destruct (String.compare a b); destruct (String.compare b c);
    destruct (String.compare a c); try discriminate; auto;
    exfalso; apply T; congruence.
Qed.

Lemma str_leb_total (a b : string) : str_leb a b = true \/ str_leb b a = true.
Proof. apply String.leb_total. Qed.

Section SortFacts.
Variable A : Type.
Variable leb : A -> A -> bool.
Hypothesis leb_total : forall x y, leb x y = true \/ leb y x = true.
Hypothesis leb_trans : forall x y z, leb x y = true -> leb y z = true -> leb x z = true.

Let le (x y : A) : Prop := leb x y = true.

Lemma insert_sorted_perm (x : A) (l : list A) :
  Permutation (insert_sorted leb x l) (x :: l).
Proof.
  induction l as [|y l IH]; simpl; [reflexivity|].
  destruct (leb x y); [reflexivity|].
  rewrite IH. apply perm_swap.
Qed.

Lemma stable_sort_perm (l : list A) : Permutation (stable_sort leb l) l.
Proof.
  induction l as [|x l IH]; simpl; [reflexivity|].
  unfold stable_sort in IH. rewrite insert_sorted_perm. now constructor.
Qed.

Lemma stable_sort_in (l : list A) (x : A) : In x (stable_sort leb l) <-> In x l.
Proof.
  split; apply Permutation_in; [|symmetry]; apply stable_sort_perm.
Qed.

Lemma insert_sorted_strongly (x : A) (l : list A) :
  StronglySorted le l -> StronglySorted le (insert_sorted leb x l).
Proof.
  induction 1 as [|y l S IH F]; simpl.
  - constructor; constructor.
  - destruct (leb x y) eqn:E.
    + constructor; [now constructor|].
      constructor; [exact E|].
      rewrite Forall_forall in *. intros z Hz. eapply leb_trans; eauto. now apply F.
    + constructor; [exact IH|].
      rewrite Forall_forall in *. intros z Hz.
      apply (Permutation_in _ (insert_sorted_perm x l)) in Hz.
      destruct Hz as [<-|Hz]; [|now apply F].
      destruct (leb_total x y) as [T|T]; [congruence | exact T].
Qed.

Lemma stable_sort_strongly (l : list A) : StronglySorted le (stable_sort leb l).
Proof.
  induction l as [|x l IH]; simpl; [constructor|].
  now apply insert_sorted_strongly.
Qed.

Lemma strongly_sorted_split (l1 l2 : list A) (x : A) :
  StronglySorted le (l1 ++ x :: l2) ->
  (forall y, In y l1 -> leb y x = true) /\ (forall y, In y l2 -> leb x y = true).
Proof.
  induction l1 as [|z l1 IH]; simpl; intros S.
  - apply StronglySorted_inv in S. destruct S as [_ F].
    rewrite Forall_forall in F. split; [contradiction | exact F].
  - apply StronglySorted_inv in S. destruct S as [S F].
    destruct (IH S) as [B Af]. split; [|exact Af].
    intros y [<-|Hy]; [|now apply B].
    rewrite Forall_forall in F. apply F. apply in_or_app. right. now left.
Qed.

(** In the sorted list, what stands before an element is below it and
    what stands after it is above it. *)
Lemma stable_sort_split (l l1 l2 : list A) (x : A) :
  stable_sort leb l = l1 ++ x :: l2 ->
  (forall y, In y l1 -> leb y x = true) /\ (forall y, In y l2 -> leb x y = true).
Proof.
  intros E. apply strongly_sorted_split. rewrite <- E. apply stable_sort_strongly.
Qed.
End SortFacts.

(** ** Catalog orderer *)

Lemma sortable_leb_total (x y : Orderer.Sortable) :
  Orderer.sortable_leb x y = true \/ Orderer.sortable_leb y x = true.
Proof.
  unfold Orderer.sortable_leb.
  destruct (str_leb_total (Orderer.tie x) (Orderer.tie y)) as [T|T]; rewrite T;
    destruct (Nat.ltb_spec (Orderer.anchor_idx x) (Orderer.anchor_idx y));
    destruct (Nat.ltb_spec (Orderer.anchor_idx y) (Orderer.anchor_idx x));
    destruct (Nat.eqb_spec (Orderer.anchor_idx x) (Orderer.anchor_idx y));
    destruct (Nat.eqb_spec (Orderer.anchor_idx y) (Orderer.anchor_idx x));
    destruct (Nat.ltb_spec (Orderer.priority_flag x) (Orderer.priority_flag y));
    destruct (Nat.ltb_spec (Orderer.priority_flag y) (Orderer.priority_flag x));
    destruct (Nat.eqb_spec (Orderer.priority_flag x) (Orderer.priority_flag y));
    destruct (Nat.eqb_spec (Orderer.priority_flag y) (Orderer.priority_flag x));
    simpl; auto; lia.
Qed.

(** The sort key read as a proposition. *)
Lemma sortable_leb_spec (x y : Orderer.Sortable) :
  Orderer.sortable_leb x y = true <->
  (Orderer.anchor_idx x < Orderer.anchor_idx y
   \/ (Orderer.anchor_idx x = Orderer.anchor_idx y
       /\ (Orderer.priority_flag x < Orderer.priority_flag y
           \/ (Orderer.priority_flag x = Orderer.priority_flag y
               /\ str_leb (Orderer.tie x) (Orderer.tie y) = true)))).
Proof.
  unfold Orderer.sortable_leb.
  rewrite !orb_true_iff, !andb_true_iff, !orb_true_iff, !andb_true_iff,
    !Nat.ltb_lt, !Nat.eqb_eq.
  tauto.
Qed.

Lemma sortable_leb_trans (x y z : Orderer.Sortable) :
  Orderer.sortable_leb x y = true -> Orderer.sortable_leb y z = true ->
  Orderer.sortable_leb x z = true.
Proof.
  rewrite !sortable_leb_spec. intros H1 H2.
  destruct H1 as [H1|[E1 [H1|[F1 T1]]]]; destruct H2 as [H2|[E2 [H2|[F2 T2]]]];
    try (left; lia); right; (split; [lia|]); try (left; lia).
  right. split; [lia|]. eapply str_leb_trans; eauto.
Qed.

Lemma spine_leb_spec (a b : Orderer.Placed) :
  Orderer.spine_leb a b = true <->
  (Orderer.pos a < Orderer.pos b
   \/ (Orderer.pos a = Orderer.pos b
       /\ str_leb (Orderer.label_of a) (Orderer.label_of b) = true))%Z.
Proof.
  unfold Orderer.spine_leb.
  rewrite orb_true_iff, andb_true_iff, Z.ltb_lt, Z.eqb_eq. tauto.
Qed.

Lemma spine_leb_total (a b : Orderer.Placed) :
  Orderer.spine_leb a b = true \/ Orderer.spine_leb b a = true.
Proof.
  rewrite !spine_leb_spec.
  destruct (str_leb_total (Orderer.label_of a) (Orderer.label_of b));
    destruct (Z.lt_trichotomy (Orderer.pos a) (Orderer.pos b)) as [L|[E|G]]; auto.
Qed.

Lemma spine_leb_trans (a b c : Orderer.Placed) :
  Orderer.spine_leb a b = true -> Orderer.spine_leb b c = true ->
  Orderer.spine_leb a c = true.
Proof.
  rewrite !spine_leb_spec. intros [H1|[E1 T1]] [H2|[E2 T2]];
    try (left; lia).
  right. split; [lia|]. eapply str_leb_trans; eauto.
Qed.

(** The spine positions are in ascending order. *)
Lemma spine_positions_sorted (latest_items : list Orderer.Placed) :
  StronglySorted Z.le
    (map Orderer.pos (stable_sort Orderer.spine_leb latest_items)).
Proof.
  pose proof (stable_sort_strongly _ Orderer.spine_leb spine_leb_total spine_leb_trans
                                   latest_items) as S.
  induction S as [|a l S IH F]; simpl; constructor; auto.
  rewrite Forall_forall in *. intros q Hq.
  apply in_map_iff in Hq. destruct Hq as [b [<- Hb]].
  specialize (F b Hb). apply spine_leb_spec in F. lia.
Qed.

(** A spine item whose slot lies before the anchor of position [p] has a
    smaller position. *)
Lemma index_before_anchor (sp : list Z) (p q : Z) :
  In q sp ->
  Orderer.index_of sp q < Orderer.anchor_index_for_pos sp p ->
  (q < p)%Z.
Proof.
  induction sp as [|a sp IH]; simpl; intros Hq H; [contradiction|].
  destruct (Z.leb_spec p a); [lia|].
  destruct (Z.eqb_spec a q); [lia|].
  destruct Hq as [->|Hq]; [congruence|].
  apply IH; auto. lia.
Qed.

(** A spine item whose slot is the anchor of position [p] or a later one
    has a position of at least [p]. *)
Lemma anchor_before_index (sp : list Z) (p q : Z) :
  StronglySorted Z.le sp ->
  In q sp ->
  Orderer.anchor_index_for_pos sp p <= Orderer.index_of sp q ->
  (p <= q)%Z.
Proof.
  induction 1 as [|a sp S IH F]; simpl; intros Hq H; [contradiction|].
  destruct (Z.leb_spec p a).
  - destruct Hq as [->|Hq]; [lia|].
    rewrite Forall_forall in F. specialize (F q Hq). lia.
  - destruct (Z.eqb_spec a q); [lia|].
    destruct Hq as [->|Hq]; [congruence|].
    apply IH; auto. lia.
Qed.

(** A position above every spine position is anchored past the end. *)
Lemma anchor_past_end (sp : list Z) (p : Z) :
  (forall q, In q sp -> (q < p)%Z) ->
  Orderer.anchor_index_for_pos sp p = List.length sp.
Proof.
  induction sp as [|a sp IH]; simpl; intros H; [reflexivity|].
  destruct (Z.leb_spec p a).
  - specialize (H a (or_introl eq_refl)). lia.
  - f_equal. apply IH. intros q Hq. apply H. now right.
Qed.

Lemma index_of_lt_length (sp : list Z) (q : Z) :
  In q sp -> Orderer.index_of sp q < List.length sp.
Proof.
  induction sp as [|a sp IH]; simpl; intros Hq; [contradiction|].
  destruct (Z.eqb_spec a q); [lia|].
  destruct Hq as [->|Hq]; [congruence|].
  specialize (IH Hq). lia.
Qed.

Lemma arrange_shaped (latest_items older_only_items : list Orderer.Placed)
  (e : Orderer.Sortable) :
  In e (Orderer.arrange latest_items older_only_items) ->
  shaped latest_items older_only_items e.
Proof.
  unfold Orderer.arrange. intros H.
  apply stable_sort_in in H. apply in_app_or in H.
  destruct H as [H|H]; apply in_map_iff in H; destruct H as [x [<- Hx]];
    (split; [reflexivity|]); simpl.
  - left. auto.
  - right. apply stable_sort_in in Hx. auto.
Qed.

Lemma arrange_perm (latest_items older_only_items : list Orderer.Placed) :
  Permutation (map Orderer.item (Orderer.arrange latest_items older_only_items))
              (older_only_items ++ latest_items).
Proof.
  unfold Orderer.arrange. rewrite stable_sort_perm, map_app, !map_map. simpl.
  rewrite !map_id. apply Permutation_app_head. apply stable_sort_perm.
Qed.

Lemma separate_classified (positions_map : Orderer.PosMap) (latest_year : string)
  (years_sorted : list string) (sk : string) (items : list (string * Payload))
  (parts : list Orderer.Placed * list Orderer.Placed) :
  foldM (Orderer.separate_step positions_map latest_year years_sorted sk) items ([], [])
  = Ok parts ->
  Forall (classified positions_map latest_year years_sorted sk true) (fst parts)
  /\ Forall (classified positions_map latest_year years_sorted sk false) (snd parts)
  /\ Forall (fun x => In (Orderer.orig_key x, Orderer.payload x) items)
            (fst parts ++ snd parts).
Proof.
  intros E.
  apply (foldM_ok_inv _ _ _ items _ _ E
           (fun st =>
              Forall (classified positions_map latest_year years_sorted sk true) (fst st)
              /\ Forall (classified positions_map latest_year years_sorted sk false) (snd st)
              /\ Forall (fun x => In (Orderer.orig_key x, Orderer.payload x) items)
                        (fst st ++ snd st))).
  - simpl. repeat split; constructor.
  - intros [l o] [k p] st1 Hin [Hl [Ho Hi]] S.
    unfold Orderer.separate_step, bind in S. simpl in S.
    destruct (Orderer._item_identity_from_unified_key sk k p) as [ik|] eqn:I;
      [|discriminate].
    destruct (Dict.get latest_year (Orderer.pm_get (sk, ik) positions_map)) as [q|] eqn:G;
      inversion S; subst st1; clear S; simpl in *.
    + split; [|split; [assumption|]].
      * apply Forall_app. split; [assumption|]. constructor; [|constructor].
        exists ik. simpl. auto.
      * rewrite <- app_assoc. apply Forall_app in Hi. destruct Hi as [Hi1 Hi2].
        apply Forall_app. split; [assumption|]. simpl. constructor; assumption.
    + split; [assumption|]. split.
      * apply Forall_app. split; [assumption|]. constructor; [|constructor].
        exists ik. simpl. auto.
      * rewrite app_assoc. apply Forall_app. split; [assumption|].
        constructor; [assumption | constructor].
Qed.



(** ** Padding *)

Lemma pad_year_keys (vals : Values) (y0 y : string) :
  In y (Dict.keys (pad_year vals y0)) <-> y = y0 \/ In y (Dict.keys vals).
Proof.
  unfold pad_year. destruct (Dict.get y0 vals) as [v|] eqn:G.
  - assert (M : In y0 (Dict.keys vals)).
    { apply mem_keys. unfold Dict.mem. now rewrite G. }
    destruct (is_none_cell v).
    + rewrite keys_set. tauto.
    + split; [tauto|]. intros [->|H]; assumption.
  - rewrite keys_set. tauto.
Qed.

Lemma pad_fold_keys (target_years : list string) :
  forall (vals : Values) (y : string),
    In y (Dict.keys (fold_left pad_year target_years vals))
    <-> In y target_years \/ In y (Dict.keys vals).
Proof.
  induction target_years as [|y0 ys IH]; simpl; intros vals y.
  - tauto.
  - rewrite IH, pad_year_keys. intuition.
Qed.

Lemma pad_year_explicit_same (vals : Values) (y : string) :
  Dict.get y (pad_year vals y) <> None /\ explicit (pad_year vals y) y.
Proof.
  unfold pad_year, explicit. destruct (Dict.get y vals) as [v|] eqn:G.
  - destruct (is_none_cell v) eqn:N.
    + rewrite get_set_same. split; [discriminate|]. intros w [= <-]. discriminate.
    + rewrite G. split; [discriminate|]. intros w [= <-]. intros ->. discriminate.
  - rewrite get_set_same. split; [discriminate|]. intros w [= <-]. discriminate.
Qed.

Lemma pad_year_explicit_keep (vals : Values) (y0 y : string) :
  Dict.get y vals <> None -> explicit vals y ->
  Dict.get y (pad_year vals y0) <> None /\ explicit (pad_year vals y0) y.
Proof.
  intros P X. destruct (String.eqb y y0) eqn:E.
  - apply String.eqb_eq in E. subst y0. apply pad_year_explicit_same.
  - apply String.eqb_neq in E. unfold pad_year, explicit.
    destruct (Dict.get y0 vals) as [v|]; [destruct (is_none_cell v)|];
      rewrite ?get_set_other by assumption; auto.
Qed.

Lemma pad_fold_explicit_keep (target_years : list string) :
  forall (vals : Values) (y : string),
    Dict.get y vals <> None -> explicit vals y ->
    explicit (fold_left pad_year target_years vals) y.
Proof.
  induction target_years as [|y0 ys IH]; simpl; intros vals y P X; [exact X|].
  destruct (pad_year_explicit_keep vals y0 y P X). now apply IH.
Qed.

Lemma pad_fold_explicit (target_years : list string) :
  forall (vals : Values) (y : string),
    In y target_years -> explicit (fold_left pad_year target_years vals) y.
Proof.
  induction target_years as [|y0 ys IH]; simpl; intros vals y H; [contradiction|].
  destruct (String.eqb y y0) eqn:E.
  - apply String.eqb_eq in E. subst y0.
    destruct (pad_year_explicit_same vals y). now apply pad_fold_explicit_keep.
  - apply String.eqb_neq in E. destruct H as [->|H]; [congruence|]. now apply IH.
Qed.

Lemma pad_payload_total (U target_years : list string) (p : Payload) :
  (forall y, In y target_years <-> In y U) ->
  (forall y, In y (Dict.keys (values p)) -> In y U) ->
  total_over U (pad_payload target_years p).
Proof.
  intros T K. unfold total_over, pad_payload. simpl. split.
  - intros y. rewrite pad_fold_keys, T. split; [intros [H|H]; auto | auto].
  - intros y v G. apply (pad_fold_explicit target_years (values p) y); auto.
    assert (H : In y (Dict.keys (fold_left pad_year target_years (values p)))).
    { apply mem_keys. unfold Dict.mem. now rewrite G. }
    apply pad_fold_keys in H. destruct H as [H|H]; [exact H|].
    apply T. now apply K.
Qed.

Lemma target_years_spec (flat_all : Dict.t (list Row)) (y : string) :
  In y (_collect_all_target_years flat_all)
  <-> In y (flat_map Reconciler.years_in (Dict.vals flat_all)).
Proof.
  unfold _collect_all_target_years, sorted_set.
  rewrite (stable_sort_in _ str_leb). apply nodup_In.
Qed.

(** ** The ordered catalog holds padded entries of the merged catalog *)

Lemma emit_in (l : list Orderer.Sortable) :
  forall (ordered : Catalog) (k : string) (p : Payload),
    In (k, p) (Orderer.emit ordered l) ->
    In (k, p) ordered
    \/ exists e, In e l
                 /\ (k, p) = (Orderer.orig_key (Orderer.item e),
                              Orderer.payload (Orderer.item e)).
Proof.
  unfold Orderer.emit.
  induction l as [|e l IH]; simpl; intros ordered k p H; [now left|].
  destruct (IH _ _ _ H) as [H1|[e' [He' Eq]]].
  - apply in_set in H1. destruct H1 as [H1|H1]; [|now left].
    right. exists e. split; [now left | exact H1].
  - right. exists e'. split; [now right | exact Eq].
Qed.

Lemma order_section_from_items (positions_map : Orderer.PosMap) (latest_year : string)
  (years_sorted : list string) (sk : string) (items : list (string * Payload))
  (out : list Orderer.Sortable) :
  Orderer.order_section positions_map latest_year years_sorted sk items = Ok out ->
  forall e, In e out ->
            In (Orderer.orig_key (Orderer.item e), Orderer.payload (Orderer.item e)) items.
Proof.
  intros E e He. unfold Orderer.order_section, bind in E.
  destruct (foldM (Orderer.separate_step positions_map latest_year years_sorted sk)
                  items ([], [])) as [[latest older]|] eqn:S; [|discriminate].
  simpl in E. assert (A : Orderer.arrange latest older = out) by congruence.
  destruct (separate_classified _ _ _ _ _ _ S) as [_ [_ F]]. simpl in F.
  rewrite Forall_forall in F. apply F. rewrite <- A in He.
  destruct (arrange_shaped _ _ _ He) as [_ [[_ [I _]]|[_ [I _]]]];
    apply in_or_app; auto.
Qed.

Lemma order_catalog_total (U : list string) (unified : Catalog)
  (flat_all : Dict.t (list Row)) (positions_map : Orderer.PosMap)
  (latest_section_order : Dict.t Z) (latest_year : string)
  (years_sorted : list string) (ordered : Catalog) :
  keys_within U unified ->
  (forall y, In y (flat_map Reconciler.years_in (Dict.vals flat_all)) <-> In y U) ->
  order_catalog unified flat_all positions_map latest_section_order latest_year years_sorted
  = Ok ordered ->
  forall k p, In (k, p) ordered -> total_over U p.
Proof.
  intros K T E. unfold order_catalog in E.
  apply (foldM_ok_inv _ _ _ _ _ _ E
           (fun ordered => forall k p, In (k, p) ordered -> total_over U p)).
  - intros k p [].
  - intros ordered0 sk ordered1 _ Inv S k p' Hin.
    unfold emit_section, bind in S.
    destruct (Orderer.order_section positions_map latest_year years_sorted sk _)
      as [sortable|] eqn:O; [|discriminate].
    inversion S; subst ordered1; clear S.
    unfold _pad_missing_years_in_mapping in Hin.
    apply in_map_iff in Hin. destruct Hin as [[k0 p] [Eq Hin]].
    simpl in Eq. inversion Eq; subst k0 p'; clear Eq.
    apply pad_payload_total.
    + intros y. rewrite target_years_spec. apply T.
    + destruct (emit_in _ _ _ _ Hin) as [H|[e [He Eq]]].
      * intros y Hy. now apply (Inv k p H).
      * pose proof (order_section_from_items _ _ _ _ _ _ O e He) as I.
        rewrite <- Eq in I. rewrite get_group_by in I.
        apply filter_In in I. destruct I as [I _]. exact (K k p I).
Qed.

(** ** Merging keeps every entry within the observed period keys *)

Lemma of_list_keys (V : Type) (l : list (string * V)) :
  forall (d : Dict.t V) (y : string),
    In y (Dict.keys (fold_left (fun d kv => Dict.set (fst kv) (snd kv) d) l d)) ->
    In y (Dict.keys d) \/ In y (map fst l).
Proof.
  induction l as [|[k v] l IH]; simpl; intros d y H; [now left|].
  destruct (IH _ _ H) as [H1|H1]; [|now right; right].
  apply keys_set in H1. destruct H1 as [->|H1]; [right; now left | now left].
Qed.

Lemma merge_value_keys (yr : string) (vals vals' : Values) (yv : string * cell) :
  Builder.merge_value yr vals yv = Ok vals' ->
  forall y, In y (Dict.keys vals') -> In y (Dict.keys vals) \/ y = fst yv.
Proof.
  unfold Builder.merge_value, bind. intros E y Hy.
  destruct (negb (Dict.mem (fst yv) vals)).
  - inversion E; subst. apply keys_set in Hy. tauto.
  - destruct (Builder.newer_than_first yr vals) as [[|]|]; inversion E; subst; auto.
    apply keys_set in Hy. tauto.
Qed.

Lemma merge_values_keys (yr : string) (cleaning : bool) (row : Row)
  (vals vals' : Values) :
  Builder.merge_values yr cleaning row vals = Ok vals' ->
  forall y, In y (Dict.keys vals') ->
            In y (Dict.keys vals) \/ In y (Dict.keys (values row)).
Proof.
  unfold Builder.merge_values. intros E.
  apply (foldM_ok_inv _ _ _ _ _ _ E
           (fun vals' => forall y, In y (Dict.keys vals') ->
                                   In y (Dict.keys vals) \/ In y (Dict.keys (values row)))).
  - auto.
  - intros v0 yv v1 Hin Inv S y Hy.
    destruct (merge_value_keys _ _ _ _ S y Hy) as [H| ->]; [now apply Inv|].
    right. unfold Dict.keys. destruct cleaning.
    + apply in_map_iff in Hin. destruct Hin as [[k c] [<- Hin]]. simpl.
      apply (in_map fst _ _ Hin).
    + apply (in_map fst _ _ Hin).
Qed.

Section MergeWithin.
Variable U : list string.
Let row_within := row_within U.

Lemma create_within (ignore_gaap : bool) (row : Row) (sec : string) (unified : Catalog) :
  row_within row -> keys_within U unified ->
  keys_within U (Builder.create ignore_gaap row sec unified).
Proof.
  intros R K k p Hin y Hy. unfold Builder.create in Hin.
  apply in_set in Hin. destruct Hin as [Eq|Hin]; [|now apply (K k p Hin)].
  inversion Eq; subst k p; clear Eq. simpl in Hy.
  unfold Dict.of_list in Hy. apply of_list_keys in Hy.
  destruct Hy as [[]|Hy]. apply R. rewrite map_map in Hy. exact Hy.
Qed.

Lemma update_block_within (yr : string) (cleaning : bool)
  (matched_key : option string) (ignore_gaap : bool) (row : Row) (sec : string)
  (unified unified' : Catalog) :
  row_within row -> keys_within U unified ->
  Builder.update_block yr cleaning matched_key ignore_gaap row sec unified
  = Ok unified' ->
  keys_within U unified'.
Proof.
  intros R K E. unfold Builder.update_block, bind in E.
  destruct matched_key as [k|].
  - destruct (String.eqb k "").
    + inversion E; subst. now apply create_within.
    + destruct (PyStr.startswith "review_needed" k); [now inversion E; subst|].
      destruct (Dict.get k unified) as [existing|] eqn:G; [|discriminate].
      destruct (Builder.merge_values yr cleaning row (values existing))
        as [vals|] eqn:M; [|discriminate].
      inversion E; subst unified'; clear E.
      intros k0 p Hin y Hy. apply in_set in Hin.
      destruct Hin as [Eq|Hin]; [|now apply (K k0 p Hin)].
      inversion Eq; subst k0 p; clear Eq. simpl in Hy.
      destruct (merge_values_keys _ _ _ _ _ M y Hy) as [H|H].
      * apply (K k existing); auto. now apply get_some_in.
      * now apply R.
  - inversion E; subst. now apply create_within.
Qed.

Lemma merge_row_within (yr : string) (allowed_unified_sk : option string)
  (greedy_item_map : list (nat * string)) (collision_gaaps : list string)
  (sec : string) (unified unified' : Catalog) (ir : nat * Row) :
  row_within (snd ir) -> keys_within U unified ->
  Builder.merge_row yr allowed_unified_sk greedy_item_map collision_gaaps sec unified ir
  = Ok unified' ->
  keys_within U unified'.
Proof.
  intros R K E. unfold Builder.merge_row, bind in E.
  destruct (Builder.confirm unified (snd ir) _ _) as [matched_key|]; [|discriminate].
  destruct (Builder.update_block yr false matched_key _ (snd ir) sec unified)
    as [unified1|] eqn:B1; [|discriminate].
  eapply update_block_within; [exact R| |exact E].
  eapply update_block_within; [exact R|exact K|exact B1].
Qed.

Lemma enumerate_in (A : Type) (l : list A) (ix : nat * A) :
  In ix (enumerate l) -> In (snd ix) l.
Proof.
  unfold enumerate. destruct ix as [i x]. intros H.
  now apply in_combine_r in H.
Qed.

Lemma merge_section_within (yr : string) (greedy_sec_map : Dict.t (option string))
  (unified unified' : Catalog) (group : string * list Row) :
  Forall row_within (snd group) -> keys_within U unified ->
  Builder.merge_section yr greedy_sec_map unified group = Ok unified' ->
  keys_within U unified'.
Proof.
  intros R K E. unfold Builder.merge_section in E.
  apply (foldM_ok_inv _ _ _ _ _ _ E (keys_within U)); [exact K|].
  intros u0 ir u1 Hin Inv S. eapply merge_row_within; [|exact Inv|exact S].
  rewrite Forall_forall in R. apply R. now apply enumerate_in.
Qed.
End MergeWithin.

Lemma set_nodup (V : Type) (d : Dict.t V) (k : string) (v : V) :
  NoDup (Dict.keys d) -> NoDup (Dict.keys (Dict.set k v d)).
Proof.
  unfold Dict.keys. induction d as [|[k0 v0] d IH]; simpl; intros N.
  - constructor; [intros [] | constructor].
  - inversion N as [|? ? Hn Nd]; subst.
    destruct (String.eqb k0 k) eqn:E; simpl; [now constructor|].
    constructor; [|now apply IH].
    intros H. apply (keys_set V d k v k0) in H. apply String.eqb_neq in E.
    destruct H as [H|H]; [congruence | contradiction].
Qed.

Lemma group_fold_in (A : Type) (key : A -> string) (Q : A -> Prop) (l : list A) :
  forall d : Dict.t (list A),
    (forall k g, In (k, g) d -> Forall Q g) ->
    Forall Q l ->
    forall k g, In (k, g) (fold_left (fun d x => group_append (key x) x d) l d) ->
                Forall Q g.
Proof.
  induction l as [|x l IH]; simpl; intros d Hd Hl k g H; [now apply (Hd k g)|].
  inversion Hl as [|? ? Qx Ql]; subst.
  apply (IH (group_append (key x) x d)) with (k := k); auto.
  intros k0 g0 H0. unfold group_append in H0. apply in_set in H0.
  destruct H0 as [Eq|H0]; [|now apply (Hd k0 g0)].
  inversion Eq; subst k0 g0; clear Eq.
  destruct (Dict.get (key x) d) as [old|] eqn:G.
  - apply Forall_app. split; [|now constructor].
    apply (Hd (key x) old). now apply get_some_in.
  - now constructor.
Qed.

Lemma group_by_forall (A : Type) (key : A -> string) (Q : A -> Prop) (l : list A) :
  Forall Q l -> forall k g, In (k, g) (group_by key l) -> Forall Q g.
Proof.
  intros H k g. unfold group_by.
  apply (group_fold_in A key Q l [] (fun k0 g0 (F : In (k0, g0) []) => match F with end) H k g).
Qed.

Lemma rewrite_step_values (unified_by_sec : Dict.t (list Payload)) (rows : list Row)
  (entry : string * option string) :
  map (fun r : Row => values r) (Builder.rewrite_step unified_by_sec rows entry)
  = map (fun r : Row => values r) rows.
Proof.
  unfold Builder.rewrite_step. destruct (snd entry) as [target_sk|]; [|reflexivity].
  destruct (String.eqb (fst entry) target_sk); [reflexivity|].
  destruct (Dict.get target_sk unified_by_sec) as [[|target ?]|]; try reflexivity.
  rewrite map_map. apply map_ext. intros r.
  now destruct (String.eqb (sec_key_of r) (fst entry)).
Qed.

Lemma rewrite_fold_values (unified_by_sec : Dict.t (list Payload))
  (greedy_sec_map : Dict.t (option string)) :
  forall rows,
    map (fun r : Row => values r)
        (fold_left (Builder.rewrite_step unified_by_sec) greedy_sec_map rows)
    = map (fun r : Row => values r) rows.
Proof.
  induction greedy_sec_map as [|e m IH]; simpl; intros rows; [reflexivity|].
  now rewrite IH, rewrite_step_values.
Qed.

Lemma row_within_values (U : list string) (l1 : list Row) :
  forall l2,
    map (fun r : Row => values r) l1 = map (fun r : Row => values r) l2 ->
    Forall (row_within U) l1 -> Forall (row_within U) l2.
Proof.
  induction l1 as [|a l1 IH]; intros [|b l2] E F; simpl in E; try discriminate;
    constructor; inversion E; inversion F; subst.
  - unfold row_within in *. now rewrite <- H0.
  - now apply IH.
Qed.

Lemma years_in_values (l1 l2 : list Row) :
  map (fun r : Row => values r) l1 = map (fun r : Row => values r) l2 ->
  Reconciler.years_in l1 = Reconciler.years_in l2.
Proof.
  unfold Reconciler.years_in. revert l2.
  induction l1 as [|a l1 IH]; intros [|b l2] E; simpl in *; try discriminate; auto.
  inversion E. rewrite H0. f_equal. now apply IH.
Qed.

Lemma merge_filing_within (U : list string) (yr : string) (unified unified' : Catalog)
  (rows rows' : list Row) :
  Forall (row_within U) rows -> keys_within U unified ->
  Builder.merge_filing yr unified rows = Ok (unified', rows') ->
  keys_within U unified'
  /\ map (fun r : Row => values r) rows' = map (fun r : Row => values r) rows.
Proof.
  intros R K E. unfold Builder.merge_filing, bind in E.
  set (rw := fold_left (Builder.rewrite_step (_build_unified_section_index unified))
                       (_build_greedy_section_map unified rows) rows) in *.
  destruct (foldM _ _ unified) as [u|] eqn:F; [|discriminate].
  inversion E; subst u rows'; clear E.
  assert (V : map (fun r : Row => values r) rw = map (fun r : Row => values r) rows)
    by apply rewrite_fold_values.
  split; [|exact V].
  apply (foldM_ok_inv _ _ _ _ _ _ F (keys_within U)); [exact K|].
  intros u0 group u1 Hin Inv S.
  eapply merge_section_within; [|exact Inv|exact S].
  unfold Builder.section_groups in Hin. apply in_map_iff in Hin.
  destruct Hin as [[sec g] [<- Hin]]. simpl.
  assert (Rw : Forall (row_within U) rw).
  { apply (row_within_values U rows rw); auto. }
  assert (Pairs : Forall (fun sr : string * Row => row_within U (snd sr))
                         (combine (map (fun r : Row => Builder.sec_of r) rows) rw)).
  { rewrite Forall_forall. intros [s r] H. apply in_combine_r in H.
    rewrite Forall_forall in Rw. now apply Rw. }
  pose proof (group_by_forall _ fst _ _ Pairs sec g Hin) as G.
  rewrite Forall_forall in *. intros r Hr. apply in_map_iff in Hr.
  destruct Hr as [sr [<- Hsr]]. now apply G.
Qed.

Lemma same_values_refl (fl : Dict.t (list Row)) : same_values fl fl.
Proof. induction fl; constructor; auto. Qed.

Lemma same_values_set (fl fl0 : Dict.t (list Row)) (y : string) (rows rows' : list Row) :
  same_values fl fl0 ->
  NoDup (Dict.keys fl0) ->
  In (y, rows) fl0 ->
  map (fun r : Row => values r) rows' = map (fun r : Row => values r) rows ->
  same_values (Dict.set y rows' fl) fl0.
Proof.
  intros S. induction S as [|[ka ra] [kb rb] fl fl0 [Hk Hv] S IH]; simpl; intros N I V.
  - contradiction.
  - simpl in Hk, Hv. subst kb. inversion N as [|? ? Hn Nd]; subst.
    destruct (String.eqb ka y) eqn:E.
    + apply String.eqb_eq in E. subst ka. constructor; [|exact S].
      simpl. split; [reflexivity|].
      destruct I as [Eq|I].
      * inversion Eq; subst. exact V.
      * exfalso. apply Hn. apply (in_map fst _ _ I).
    + apply String.eqb_neq in E. constructor; [now split|].
      apply IH; auto. destruct I as [Eq|I]; [inversion Eq; congruence | exact I].
Qed.

Lemma same_values_years (fl fl0 : Dict.t (list Row)) :
  same_values fl fl0 ->
  flat_map Reconciler.years_in (Dict.vals fl)
  = flat_map Reconciler.years_in (Dict.vals fl0).
Proof.
  induction 1 as [|a b fl fl0 [_ Hv] S IH]; simpl; [reflexivity|].
  now rewrite IH, (years_in_values _ _ Hv).
Qed.

Lemma merge_all_within (yr : string) (flat_all flat_all' : Dict.t (list Row))
  (unified : Catalog) :
  NoDup (Dict.keys flat_all) ->
  Builder.merge_all yr flat_all = Ok (unified, flat_all') ->
  keys_within (flat_map Reconciler.years_in (Dict.vals flat_all)) unified
  /\ same_values flat_all' flat_all.
Proof.
  intros N E. unfold Builder.merge_all in E.
  set (U := flat_map Reconciler.years_in (Dict.vals flat_all)).
  apply (foldM_ok_inv _ _ _ _ _ _ E
           (fun st => keys_within U (fst st) /\ same_values (snd st) flat_all)).
  - simpl. split; [intros k p [] | apply same_values_refl].
  - intros [u fl] [y rows] st1 Hin [K S] B. simpl in *. unfold bind in B.
    destruct (Builder.merge_filing yr u rows) as [[u' rows']|] eqn:M; [|discriminate].
    inversion B; subst st1; clear B. simpl.
    assert (R : Forall (row_within U) rows).
    { rewrite Forall_forall. intros r Hr z Hz. unfold U.
      apply in_flat_map. exists rows. split.
      - apply (in_map snd _ _ Hin).
      - unfold Reconciler.years_in. apply in_flat_map. exists r. auto. }
    destruct (merge_filing_within U yr u u' rows rows' R K M) as [K' V].
    split; [exact K'|]. eapply same_values_set; eauto.
Qed.

(** ** The reconciler and the relabelling keep the period keys *)

Lemma zero_if_set_keys (p : Payload) (y : string) :
  Dict.keys (values (Reconciler.zero_if_set p y)) = Dict.keys (values p).
Proof.
  unfold Reconciler.zero_if_set. destruct (Dict.get y (values p)) as [v|] eqn:G;
    [|reflexivity].
  destruct (Reconciler.ne_zero v); [|reflexivity]. simpl.
  apply keys_set_present. unfold Dict.mem. now rewrite G.
Qed.

Lemma check_payload_keys (y2a : Dict.t string) (fs : Dict.t (Dict.t (list Row)))
  (p : Payload) :
  Dict.keys (values (Reconciler.check_payload y2a fs p)) = Dict.keys (values p).
Proof.
  unfold Reconciler.check_payload.
  generalize (sec_key_of p) as sk. generalize (Dict.keys (values p)) at 1 as ks.
  intros ks. revert p. induction ks as [|y ks IH]; simpl; intros p sk; [reflexivity|].
  rewrite IH.
  destruct (check_year_cases y2a fs sk p y) as [-> | ->];
    [reflexivity | apply zero_if_set_keys].
Qed.

Lemma zero_out_within (U : list string) (unified unified' : Catalog)
  (flat_all : Dict.t (list Row)) (years_sorted : list string) :
  keys_within U unified ->
  zero_out_overlapping_years_for_new_items unified flat_all years_sorted = Ok unified' ->
  keys_within U unified'.
Proof.
  intros K E. unfold zero_out_overlapping_years_for_new_items, bind in E.
  destruct (Reconciler.year_to_authoritative_filing flat_all years_sorted) as [y2a|];
    [|discriminate].
  inversion E; subst unified'; clear E.
  intros k p' Hin y Hy. apply in_map_iff in Hin.
  destruct Hin as [[k0 p] [Eq Hin]]. simpl in Eq. inversion Eq; subst k0 p'; clear Eq.
  rewrite check_payload_keys in Hy. now apply (K k p Hin).
Qed.

Lemma relabel_within (U : list string) (unified : Catalog)
  (labels : Dict.t (option string * option string)) :
  keys_within U unified ->
  keys_within U (map (fun kp => (fst kp, relabel labels (snd kp))) unified).
Proof.
  intros K k p' Hin y Hy. apply in_map_iff in Hin.
  destruct Hin as [[k0 p] [Eq Hin]]. simpl in Eq. inversion Eq; subst k0 p'; clear Eq.
  apply (K k p Hin). unfold relabel in Hy.
  now destruct (Dict.get (sec_key_of p) labels).
Qed.

(** ** The flattened rows carry the documents' normalised period keys *)

Lemma set_fresh (V : Type) (d : Dict.t V) (k : string) (v : V) :
  ~ In k (Dict.keys d) -> Dict.set k v d = d ++ [(k, v)].
Proof.
  unfold Dict.keys. induction d as [|[k0 v0] d IH]; simpl; intros N; [reflexivity|].
  destruct (String.eqb k0 k) eqn:E.
  - apply String.eqb_eq in E. subst k0. exfalso. apply N. now left.
  - rewrite IH; auto.
Qed.

Lemma normalize_values_keys (vs : option Values) (y : string) :
  In y (Dict.keys (normalize_values vs))
  <-> In y (map normalize_year_key
                (Dict.keys (match vs with Some d => d | None => [] end))).
Proof.
  unfold normalize_values. destruct vs as [d|]; [|simpl; tauto].
  assert (G : forall acc : Values,
             In y (Dict.keys (fold_left (fun new_vals kv =>
                                           Dict.set (normalize_year_key (fst kv))
                                                    (snd kv) new_vals) d acc))
             <-> In y (Dict.keys acc)
                 \/ In y (map normalize_year_key (Dict.keys d))).
  { induction d as [|[k v] d IH]; simpl; intros acc; [tauto|].
    rewrite IH, keys_set. simpl. intuition. }
  rewrite G. simpl. tauto.
Qed.

Lemma flag_rows_values (rows : list Row) :
  forall first : Dict.t string,
    map (fun r : Row => values r) (flag_rows first rows)
    = map (fun r : Row => values r) rows.
Proof.
  induction rows as [|r rows IH]; simpl; intros first; [reflexivity|].
  rewrite IH. f_equal. unfold flag_row.
  destruct (String.eqb _ ""); [reflexivity|].
  destruct (Dict.get _ first) as [l|]; [|reflexivity].
  now destruct (String.eqb l _).
Qed.

Lemma flatten_period_keys (stmt : Filing) (y : string) :
  In y (Reconciler.years_in
          (_flag_duplicate_section_gaaps_label_only (fst (flatten_with_positions stmt))))
  <-> In y (document_period_keys stmt).
Proof.
  unfold _flag_duplicate_section_gaaps_label_only.
  rewrite (years_in_values _ _ (flag_rows_values _ [])).
  unfold flatten_with_positions, document_period_keys, Reconciler.years_in. simpl.
  rewrite !in_flat_map. split.
  - intros [r [Hr Hy]]. apply in_flat_map in Hr. destruct Hr as [sec [Hs Hr]].
    exists sec. split; [exact Hs|]. unfold flatten_section in Hr.
    apply in_map_iff in Hr. destruct Hr as [[i it] [<- Hi]]. simpl in Hy.
    apply in_flat_map. exists it. split; [now apply (enumerate_in _ _ _ Hi)|].
    now apply normalize_values_keys.
  - intros [sec [Hs Hy]]. apply in_flat_map in Hy. destruct Hy as [it [Hi Hy]].
    assert (E : exists i, In (i, it) (enumerate (or_nil (s_items sec)))).
    { unfold enumerate. generalize 0 as n.
      induction (or_nil (s_items sec)) as [|a l IH]; [contradiction|].
      intros n. simpl. destruct Hi as [->|Hi].
      - exists n. now left.
      - destruct (IH Hi (S n)) as [i H]. exists i. now right. }
    destruct E as [i E].
    exists (mkRow (mkPayload (s_gaap sec) (s_section sec) (i_gaap it) (i_label it)
                             (normalize_values (i_values it)))
                  (Z.of_nat i) false).
    split.
    + apply in_flat_map. exists sec. split; [exact Hs|].
      unfold flatten_section. apply in_map_iff. exists (i, it). auto.
    + simpl. now apply normalize_values_keys.
Qed.

Lemma flatten_all_spec (years_json : Dict.t (Dict.t Filing)) :
  forall (acc flat_all : Dict.t (list Row)),
    NoDup (Dict.keys acc ++ Dict.keys years_json) ->
    foldM (fun flat_all yf =>
             do stmt <- first_value (snd yf) ;;
             let rows := fst (flatten_with_positions stmt) in
             Ok (Dict.set (fst yf) (_flag_duplicate_section_gaaps_label_only rows) flat_all))
          years_json acc = Ok flat_all ->
    NoDup (Dict.keys flat_all)
    /\ forall y,
         In y (flat_map Reconciler.years_in (Dict.vals flat_all))
         <-> In y (flat_map Reconciler.years_in (Dict.vals acc))
             \/ In y (observed_period_keys years_json).
Proof.
  induction years_json as [|[yr filing] l IH]; intros acc flat_all N E.
  - simpl in *. inversion E; subst. rewrite app_nil_r in N. split; [exact N|]. tauto.
  - cbn [foldM snd fst] in E. unfold bind in E.
    destruct filing as [|[sk stmt] rest]; cbn [first_value] in E; [discriminate|].
    pose proof (flatten_period_keys stmt) as FK.
    set (R := _flag_duplicate_section_gaaps_label_only (fst (flatten_with_positions stmt)))
      in *.
    assert (Fresh : ~ In yr (Dict.keys acc)).
    { intros H. simpl in N. apply NoDup_remove_2 in N. apply N. apply in_or_app. now left. }
    rewrite (set_fresh _ acc yr _ Fresh) in E.
    apply IH in E.
    + destruct E as [Nd Eq]. split; [exact Nd|]. intros y. rewrite Eq.
      unfold Dict.vals. rewrite map_app, flat_map_app.
      cbn [map flat_map snd observed_period_keys].
      rewrite !in_app_iff. simpl. rewrite ?app_nil_r, ?in_app_iff. rewrite <- FK. tauto.
    + unfold Dict.keys in *. rewrite map_app. simpl. rewrite <- app_assoc. exact N.
Qed.



(** ** Merging the same filing twice *)


Section DictMore.
Variable V : Type.
Implicit Types (d : Dict.t V) (k : string) (v : V).

Lemma set_set d k v1 v2 : Dict.set k v2 (Dict.set k v1 d) = Dict.set k v2 d.
Proof.
  induction d as [|[k0 v0] d IH]; simpl.
  - now rewrite String.eqb_refl.
  - destruct (String.eqb k0 k) eqn:E; simpl; rewrite E; [reflexivity | now rewrite IH].
Qed.

Lemma set_get_id d k v : Dict.get k d = Some v -> Dict.set k v d = d.
Proof.
  induction d as [|[k0 v0] d IH]; simpl; [discriminate|].
  destruct (String.eqb k0 k) eqn:E.
  - now intros [= ->].
  - intros H. now rewrite IH.
Qed.

Lemma get_nodup_in d k v :
  NoDup (Dict.keys d) -> In (k, v) d -> Dict.get k d = Some v.
Proof.
  unfold Dict.keys. induction d as [|[k0 v0] d IH]; simpl; intros N H; [contradiction|].
  inversion N as [|? ? Hn Nd]; subst.
  destruct H as [Eq|H].
  - inversion Eq; subst. now rewrite String.eqb_refl.
  - destruct (String.eqb k0 k) eqn:E.
    + apply String.eqb_eq in E. subst k0. exfalso. apply Hn.
      apply (in_map fst _ _ H).
    + now apply IH.
Qed.

Lemma dict_ext d1 :
  forall d2,
    NoDup (Dict.keys d1) -> Dict.keys d1 = Dict.keys d2 ->
    (forall k, Dict.get k d1 = Dict.get k d2) -> d1 = d2.
Proof.
  unfold Dict.keys.
  induction d1 as [|[k1 v1] d1 IH]; intros [|[k2 v2] d2] N K G; simpl in K;
    try discriminate; [reflexivity|].
  inversion K; subst k2. inversion N as [|? ? Hn Nd]; subst.
  pose proof (G k1) as G1. simpl in G1. rewrite String.eqb_refl in G1.
  inversion G1; subst v2. f_equal. apply IH; auto.
  intros k. specialize (G k). simpl in G.
  destruct (String.eqb k1 k) eqn:E; [|exact G].
  apply String.eqb_eq in E. subst k.
  assert (N1 : Dict.get k1 d1 = None) by now apply get_none_keys.
  assert (N2 : Dict.get k1 d2 = None) by (apply get_none_keys; unfold Dict.keys; congruence).
  congruence.
Qed.

Lemma put_keys_present (l : list (string * V)) :
  forall d,
    (forall kv, In kv l -> In (fst kv) (Dict.keys d)) ->
    Dict.keys (fold_left put l d) = Dict.keys d.
Proof.
  induction l as [|[k v] l IH]; simpl; intros d H; [reflexivity|].
  assert (P : Dict.keys (put d (k, v)) = Dict.keys d).
  { unfold put. simpl. apply keys_set_present. apply mem_keys. apply (H (k, v)). now left. }
  rewrite IH, P; auto.
  intros kv Hkv. rewrite P. apply H. now right.
Qed.

Lemma put_keys_in (l : list (string * V)) :
  forall d k,
    In k (Dict.keys d) \/ In k (map fst l) -> In k (Dict.keys (fold_left put l d)).
Proof.
  induction l as [|[k0 v0] l IH]; simpl; intros d k H.
  - destruct H as [H|[]]; exact H.
  - apply IH. unfold put. simpl. rewrite keys_set. intuition.
Qed.

Lemma put_nodup (l : list (string * V)) :
  forall d, NoDup (Dict.keys d) -> NoDup (Dict.keys (fold_left put l d)).
Proof.
  induction l as [|[k v] l IH]; simpl; intros d N; [exact N|].
  apply IH. unfold put. now apply set_nodup.
Qed.

Lemma put_get (l : list (string * V)) :
  forall d k,
    Dict.get k (fold_left put l d)
    = match Dict.get k (fold_left put l []) with
      | Some v => Some v
      | None => Dict.get k d
      end.
Proof.
  induction l as [|[k0 v0] l IH]; simpl; intros d k; [reflexivity|].
  rewrite (IH (put d (k0, v0))), (IH (put [] (k0, v0))).
  destruct (Dict.get k (fold_left put l [])) as [v|]; [reflexivity|].
  unfold put. simpl. destruct (String.eqb k0 k) eqn:E.
  - apply String.eqb_eq in E. subst k0. now rewrite get_set_same.
  - apply String.eqb_neq in E. rewrite get_set_other by congruence. reflexivity.
Qed.

Lemma put_head (l : list (string * V)) :
  forall k v d, exists v' d', fold_left put l ((k, v) :: d) = (k, v') :: d'.
Proof.
  induction l as [|[k0 v0] l IH]; simpl; intros k v d; [eauto|].
  unfold put at 2. simpl. destruct (String.eqb k k0); apply IH.
Qed.
End DictMore.

Lemma newer_than_first_keys (yr : string) (v1 v2 : Values) :
  Dict.keys v1 = Dict.keys v2 ->
  Builder.newer_than_first yr v1 = Builder.newer_than_first yr v2.
Proof. intros K. unfold Builder.newer_than_first. now rewrite K. Qed.

(** On an entry that already holds every period key of the row, the update
    loop either rewrites each key or leaves the entry alone. *)
Lemma merge_values_present (yr : string) (c : bool) (l : list (string * cell)) :
  forall vals : Values,
    (forall kv, In kv l -> In (fst kv) (Dict.keys vals)) ->
    (l <> [] -> Builder.newer_than_first yr vals = Ok c) ->
    foldM (Builder.merge_value yr) l vals
    = Ok (if c then fold_left put l vals else vals).
Proof.
  induction l as [|[y v] l IH]; intros vals H N; simpl.
  - now destruct c.
  - unfold Builder.merge_value at 1. simpl.
    assert (M : Dict.mem y vals = true).
    { apply mem_keys. apply (H (y, v)). now left. }
    rewrite M. simpl. rewrite N by discriminate. simpl.
    assert (K : Dict.keys (Dict.set y v vals) = Dict.keys vals)
      by now apply keys_set_present.
    destruct c.
    + rewrite IH.
      * reflexivity.
      * intros kv Hkv. rewrite K. apply H. now right.
      * intros _. rewrite (newer_than_first_keys yr _ vals K). apply N. discriminate.
    + rewrite IH.
      * reflexivity.
      * intros kv Hkv. apply H. now right.
      * intros _. apply N. discriminate.
Qed.

Lemma newer_than_first_defined (yr : string) (zy : Z) (vals : Values) (k : string)
  (rest : list string) :
  PyStr.int (normalize_year_key (PyStr.take 4 yr)) = Ok zy ->
  Dict.keys vals = k :: rest ->
  year_like k ->
  exists c, Builder.newer_than_first yr vals = Ok c.
Proof.
  intros Y K [z Z]. unfold Builder.newer_than_first. rewrite Y, K. simpl.
  rewrite Z. simpl. eauto.
Qed.

(** Merging a row into the entry it created leaves the entry as it was. *)
Lemma remerge_values (yr : string) (zy : Z) (row : Row) :
  PyStr.int (normalize_year_key (PyStr.take 4 yr)) = Ok zy ->
  (forall k, In k (Dict.keys (values row)) -> year_like k) ->
  exists vals1,
    Builder.merge_values yr false row (values (Builder.new_payload row)) = Ok vals1
    /\ Builder.merge_values yr true row vals1 = Ok (values (Builder.new_payload row)).
Proof.
  intros Y L. unfold Builder.merge_values, Builder.new_payload. simpl.
  set (l := values row) in *.
  set (cl := map (fun kv : string * cell => (fst kv, Builder.clean (snd kv))) l).
  change (Dict.of_list cl) with (fold_left put cl []).
  set (E := fold_left put cl []).
  assert (KE : forall kv, In kv l -> In (fst kv) (Dict.keys E)).
  { intros kv H. apply put_keys_in. right. unfold cl. rewrite map_map. simpl.
    apply (in_map fst _ _ H). }
  assert (KC : forall kv, In kv cl -> In (fst kv) (Dict.keys E)).
  { intros kv H. apply put_keys_in. right. apply (in_map fst _ _ H). }
  assert (C : exists c, l <> [] -> Builder.newer_than_first yr E = Ok c).
  { destruct l as [|[k v] l'] eqn:EL.
    - exists true. intros H. now contradiction H.
    - destruct (put_head _ (map (fun kv : string * cell => (fst kv, Builder.clean (snd kv))) l')
                         k (Builder.clean v) []) as [v' [d' Hd]].
      destruct (newer_than_first_defined yr zy E k (Dict.keys d') Y) as [c Hc].
      + unfold E, cl. simpl. unfold put at 2. simpl. rewrite Hd. reflexivity.
      + apply L. unfold Dict.keys. simpl. now left.
      + exists c. intros _. exact Hc. }
  destruct C as [c C].
  exists (if c then fold_left put l E else E). split.
  - apply merge_values_present; auto.
  - assert (K1 : Dict.keys (if c then fold_left put l E else E) = Dict.keys E).
    { destruct c; [|reflexivity]. now apply put_keys_present. }
    rewrite (merge_values_present yr c cl).
    + f_equal. destruct c; [|reflexivity].
      apply dict_ext.
      * apply put_nodup. apply put_nodup. apply put_nodup. constructor.
      * rewrite put_keys_present.
        -- now apply put_keys_present.
        -- intros kv H. rewrite put_keys_present by assumption. now apply KC.
      * intros k. rewrite put_get. fold E.
        destruct (Dict.get k E) as [v|] eqn:G; [reflexivity|].
        apply get_none_keys. rewrite put_keys_present by assumption.
        now apply get_none_keys.
    + intros kv H. rewrite K1. now apply KC.
    + intros N. rewrite (newer_than_first_keys yr _ E K1). apply C.
      intros H. apply N. unfold cl. now rewrite H.
Qed.

Lemma unified_key_nonempty (ignore_gaap : bool) (row : Row) (sec : string) :
  String.eqb (Builder.unified_key ignore_gaap row sec) "" = false.
Proof.
  unfold Builder.unified_key. generalize (Builder.item_key ignore_gaap row) as a.
  intros a. apply String.eqb_neq. destruct a; discriminate.
Qed.

Lemma match_line_items_self (row : Row) (overlap_years : list string)
  (ignore_gaap : bool) :
  match_line_items row (Builder.new_payload row) overlap_years ignore_gaap = true.
Proof.
  unfold match_line_items.
  destruct (Matcher.gaap_tier ignore_gaap row (Builder.new_payload row)); [reflexivity|].
  unfold Matcher.label_tier. simpl. now rewrite String.eqb_refl.
Qed.

(** A row merged again into the entry it created leaves the catalog as it
    was. *)
Lemma remerge_row (yr : string) (zy : Z) (unified : Catalog) (row : Row)
  (sec allowed : string) (idx : nat) (greedy_item_map : list (nat * string))
  (collision_gaaps : list string) :
  PyStr.int (normalize_year_key (PyStr.take 4 yr)) = Ok zy ->
  (forall k, In k (Dict.keys (values row)) -> year_like k) ->
  Dict.get (Builder.unified_key (in_collisions (item_gaap row) collision_gaaps) row sec)
           unified
  = Some (Builder.new_payload row) ->
  idx_get idx greedy_item_map
  = Some (Builder.unified_key (in_collisions (item_gaap row) collision_gaaps) row sec) ->
  Builder.merge_row yr (Some allowed) greedy_item_map collision_gaaps sec unified
                    (idx, row)
  = Ok unified.
Proof.
  intros Y L G I. unfold Builder.merge_row. cbn [fst snd]. rewrite I.
  set (ignore_gaap := in_collisions (item_gaap row) collision_gaaps) in *.
  set (k := Builder.unified_key ignore_gaap row sec) in *.
  assert (C : Builder.confirm unified row ignore_gaap (Some k) = Ok (Some k)).
  { unfold Builder.confirm. rewrite G.
    replace (String.eqb (normalize_label (section_label (Builder.new_payload row)))
                        (normalize_label (section_label row))) with true
      by (simpl; now rewrite String.eqb_refl).
    rewrite orb_true_r, match_line_items_self. reflexivity. }
  assert (K0 : String.eqb k "" = false) by apply unified_key_nonempty.
  rewrite C. cbn [bind]. unfold Builder.update_block. rewrite K0.
  destruct (PyStr.startswith "review_needed" k); [reflexivity|].
  rewrite G.
  destruct (remerge_values yr zy row Y L) as [vals1 [M1 M2]].
  rewrite M1. cbn [bind]. rewrite get_set_same. cbn [values set_values].
  rewrite M2. cbn [bind]. rewrite set_set. f_equal.
  apply set_get_id. rewrite G. reflexivity.
Qed.

Lemma foldM_const (S X : Type) (body : S -> X -> res S) (s : S) (l : list X) :
  (forall x, In x l -> body s x = Ok s) -> foldM body l s = Ok s.
Proof.
  induction l as [|x l IH]; simpl; intros H; [reflexivity|].
  rewrite (H x) by now left. simpl. apply IH. intros y Hy. apply H. now right.
Qed.

Lemma first_free_item_self (cand : Row) (ignore_gaap : bool) (used_keys : list string)
  (key : string) (ex : Payload) (post : list (string * Payload)) :
  in_strs key used_keys = false ->
  match_line_items cand ex (overlap_of cand ex) ignore_gaap = true ->
  forall pre,
    (forall kx, In kx pre -> in_strs (fst kx) used_keys = true) ->
    first_free_item (pre ++ (key, ex) :: post) used_keys cand ignore_gaap = Some key.
Proof.
  intros U M. induction pre as [|[k0 e0] pre IH]; simpl; intros H.
  - now rewrite U, M.
  - pose proof (H (k0, e0) (or_introl eq_refl)) as H0. simpl in H0. rewrite H0.
    apply IH. intros kx Hkx. apply H. now right.
Qed.

Lemma combine_snoc (A B : Type) (l1 : list A) :
  forall (l2 : list B) (a : A) (b : B),
    List.length l1 = List.length l2 ->
    combine (l1 ++ [a]) (l2 ++ [b]) = combine l1 l2 ++ [(a, b)].
Proof.
  induction l1 as [|x l1 IH]; intros [|y l2] a b H; simpl in *; try discriminate;
    [reflexivity|].
  f_equal. apply IH. now inversion H.
Qed.

Lemma idx_get_enumerate (A : Type) (key : A -> string) (g : list A) :
  forall n i r,
    In (i, r) (combine (seq n (List.length g)) g) ->
    idx_get i (combine (seq n (List.length g)) (map key g)) = Some (key r).
Proof.
  induction g as [|x g IH]; simpl; intros n i r H; [contradiction|].
  destruct H as [Eq|H].
  - inversion Eq; subst. now rewrite Nat.eqb_refl.
  - assert (L : S n <= i).
    { apply in_combine_l in H. apply in_seq in H. lia. }
    destruct (Nat.eqb_spec n i); [lia|]. now apply IH.
Qed.

Section ItemMapSelf.
Variables (key : Row -> string) (collision_gaaps : list string) (g : list Row).
Hypothesis key_nodup : NoDup (map key g).

Let entry (r : Row) : string * Payload := (key r, Builder.new_payload r).

Lemma greedy_item_fold :
  forall rest done,
    g = done ++ rest ->
    fold_left (greedy_item_step (map entry g) collision_gaaps)
              (combine (seq (List.length done) (List.length rest)) rest)
              (rev (map key done),
               combine (seq 0 (List.length done)) (map key done))
    = (rev (map key g), combine (seq 0 (List.length g)) (map key g)).
Proof.
  induction rest as [|r rest IH]; intros done E.
  - rewrite app_nil_r in E. subst done. reflexivity.
  - cbn [List.length seq combine fold_left].
    unfold greedy_item_step at 2. cbn [fst snd].
    assert (F : first_free_item (map entry g) (rev (map key done)) r
                  (in_collisions (item_gaap r) collision_gaaps) = Some (key r)).
    { rewrite E, map_app. cbn [map]. apply first_free_item_self.
      - destruct (in_strs (key r) (rev (map key done))) eqn:X; [|reflexivity].
        apply in_strs_In in X. apply in_rev in X.
        rewrite E, map_app in key_nodup. cbn [map] in key_nodup.
        apply NoDup_remove_2 in key_nodup. exfalso. apply key_nodup.
        apply in_or_app. now left.
      - apply match_line_items_self.
      - intros kx H. apply in_map_iff in H. destruct H as [x [<- Hx]].
        apply in_strs_In. apply -> in_rev. simpl. now apply in_map. }
    rewrite F.
    specialize (IH (done ++ [r])).
    rewrite <- app_assoc in IH. specialize (IH E).
    rewrite length_app, map_app, rev_app_distr in IH. cbn [List.length map rev app] in IH.
    rewrite Nat.add_1_r in IH. rewrite seq_S in IH. cbn [plus] in IH.
    rewrite combine_snoc in IH by now rewrite length_seq, length_map.
    exact IH.
Qed.

Lemma greedy_item_map_self (unified : Catalog) (allowed : string) :
  filter (fun kex : string * Payload => String.eqb (sec_key_of (snd kex)) allowed) unified
  = map entry g ->
  _build_greedy_item_map unified (Some allowed) g collision_gaaps
  = combine (seq 0 (List.length g)) (map key g).
Proof.
  intros P. unfold _build_greedy_item_map. rewrite P. unfold enumerate.
  pose proof (greedy_item_fold g [] eq_refl) as F. cbn [List.length map rev combine seq] in F.
  now rewrite F.
Qed.
End ItemMapSelf.

(** ** Groups of rows *)

Lemma sec_of_spec (p : Payload) : Builder.sec_of p = sec_key_of p.
Proof.
  unfold Builder.sec_of, sec_key_of, _sec_key.
  now rewrite normalize_label_or_empty.
Qed.

Lemma group_fold_nodup (A : Type) (key : A -> string) (l : list A) :
  forall d : Dict.t (list A),
    NoDup (Dict.keys d) ->
    NoDup (Dict.keys (fold_left (fun d x => group_append (key x) x d) l d)).
Proof.
  induction l as [|x l IH]; simpl; intros d N; [exact N|].
  apply IH. unfold group_append. now apply set_nodup.
Qed.

Lemma group_by_nodup (A : Type) (key : A -> string) (l : list A) :
  NoDup (Dict.keys (group_by key l)).
Proof. apply group_fold_nodup. constructor. Qed.

Lemma group_by_member (A : Type) (key : A -> string) (l : list A) (k : string)
  (g : list A) :
  In (k, g) (group_by key l) ->
  g = filter (fun x => String.eqb (key x) k) l /\ g <> [].
Proof.
  intros H. apply get_nodup_in in H; [|apply group_by_nodup].
  unfold group_by in H. rewrite get_group_fold in H. simpl in H.
  destruct (filter (fun x => String.eqb (key x) k) l) as [|x f]; [discriminate|].
  inversion H; subst. split; [reflexivity | discriminate].
Qed.

Lemma group_by_key (A : Type) (key : A -> string) (l : list A) (k : string)
  (g : list A) (x : A) :
  In (k, g) (group_by key l) -> In x g -> key x = k /\ In x l.
Proof.
  intros H Hx. destruct (group_by_member A key l k g H) as [-> _].
  apply filter_In in Hx. destruct Hx as [I E]. split; [now apply String.eqb_eq | exact I].
Qed.

Lemma group_by_ext (A : Type) (key1 key2 : A -> string) (l : list A) :
  (forall x, key1 x = key2 x) -> group_by key1 l = group_by key2 l.
Proof.
  intros H. unfold group_by. generalize (@nil (string * list A)) as d.
  induction l as [|x l IH]; simpl; intros d; [reflexivity|].
  now rewrite H, IH.
Qed.

Lemma values_map_get (A B : Type) (f : A -> B) (d : Dict.t A) (k : string) :
  Dict.get k (map (fun kv => (fst kv, f (snd kv))) d) = option_map f (Dict.get k d).
Proof.
  induction d as [|[k0 v0] d IH]; simpl; [reflexivity|].
  now destruct (String.eqb k0 k).
Qed.

Lemma values_map_set (A B : Type) (f : A -> B) (d : Dict.t A) (k : string) (v : A) :
  map (fun kv => (fst kv, f (snd kv))) (Dict.set k v d)
  = Dict.set k (f v) (map (fun kv => (fst kv, f (snd kv))) d).
Proof.
  induction d as [|[k0 v0] d IH]; simpl; [reflexivity|].
  destruct (String.eqb k0 k); simpl; [reflexivity | now rewrite IH].
Qed.

(** The row objects grouped under their own keys are the groups of the rows. *)
Lemma section_groups_spec (key : Row -> string) (rows : list Row) :
  Builder.section_groups (map key rows) rows = group_by key rows.
Proof.
  unfold Builder.section_groups, group_by.
  assert (G : forall (d : Dict.t (list (string * Row))),
             map (fun g => (fst g, map snd (snd g)))
                 (fold_left (fun d x => group_append (fst x) x d)
                            (combine (map key rows) rows) d)
             = fold_left (fun d x => group_append (key x) x d) rows
                         (map (fun g => (fst g, map snd (snd g))) d)).
  { induction rows as [|r rows IH]; simpl; intros d; [reflexivity|].
    rewrite IH. f_equal. unfold group_append.
    rewrite (values_map_set _ _ (map snd)), (values_map_get _ _ (map snd)).
    destruct (Dict.get (key r) d) as [old|]; simpl; [|reflexivity].
    now rewrite map_app. }
  apply (G []).
Qed.

(** ** Sections in first-appearance order *)

Lemma first_sections_fold (A : Type) (view : A -> Payload) (l : list A) :
  first_sections view l = fold_left (first_sections_step view) l [].
Proof. reflexivity. Qed.

Lemma rep_keys (A : Type) (view : A -> Payload) (G : Dict.t (list A)) :
  Dict.keys (map (section_rep view) G) = Dict.keys G.
Proof. unfold Dict.keys. rewrite map_map. reflexivity. Qed.

Lemma rep_set_grown (A : Type) (view : A -> Payload) (x : A) (k : string) :
  forall (G : Dict.t (list A)) (old : list A),
    Dict.get k G = Some old -> old <> [] ->
    map (section_rep view) (Dict.set k (old ++ [x]) G) = map (section_rep view) G.
Proof.
  induction G as [|[k0 g0] G IH]; simpl; intros old H N; [discriminate|].
  destruct (String.eqb k0 k) eqn:E; simpl.
  - inversion H; subst g0. f_equal. unfold section_rep. simpl.
    destruct old; [congruence | reflexivity].
  - f_equal. now apply IH.
Qed.

(** The first-appearance map of a list is the list of its groups, each
    represented by its first element. *)
Lemma first_sections_groups_gen (A : Type) (view : A -> Payload) (l : list A) :
  forall G : Dict.t (list A),
    (forall k g, In (k, g) G -> g <> []) ->
    fold_left (first_sections_step view) l (map (section_rep view) G)
    = map (section_rep view)
          (fold_left (fun d x => group_append (sec_key_of (view x)) x d) l G).
Proof.
  induction l as [|x l IH]; simpl; intros G NE; [reflexivity|].
  set (k := sec_key_of (view x)).
  assert (Step : first_sections_step view (map (section_rep view) G) x
                 = map (section_rep view) (group_append k x G)
                 /\ forall k0 g, In (k0, g) (group_append k x G) -> g <> []).
  { unfold first_sections_step, group_append. fold k. unfold Dict.mem.
    destruct (Dict.get k G) as [old|] eqn:E.
    - assert (M : Dict.get k (map (section_rep view) G) <> None).
      { apply get_none_keys_neg. rewrite rep_keys. apply mem_keys.
        unfold Dict.mem. now rewrite E. }
      destruct (Dict.get k (map (section_rep view) G)); [|congruence].
      assert (O : old <> []) by (apply (NE k); now apply get_some_in).
      split; [symmetry; now apply rep_set_grown|].
      intros k0 g H. apply in_set in H. destruct H as [Eq|H]; [|now apply (NE k0)].
      inversion Eq; subst. now destruct old.
    - assert (M : Dict.get k (map (section_rep view) G) = None).
      { apply get_none_keys. rewrite rep_keys. now apply get_none_keys. }
      rewrite M.
      rewrite (set_fresh _ G), (set_fresh _ (map (section_rep view) G)).
      + split; [now rewrite map_app|].
        intros k0 g H. apply in_app_or in H. destruct H as [H|[Eq|[]]];
          [now apply (NE k0) | inversion Eq; discriminate].
      + now apply get_none_keys.
      + now apply get_none_keys. }
  destruct Step as [S1 S2]. rewrite S1. now apply IH.
Qed.

Lemma candidate_sections_groups (rows : list Row) :
  _candidate_sections_in_order rows
  = map (section_rep data) (group_by (fun r : Row => sec_key_of r) rows).
Proof.
  unfold _candidate_sections_in_order. rewrite first_sections_fold.
  apply (first_sections_groups_gen Row data rows []). intros k g [].
Qed.

Lemma first_sections_seen (A : Type) (view : A -> Payload) (l : list A) :
  forall seen,
    (forall x, In x l -> Dict.mem (sec_key_of (view x)) seen = true) ->
    fold_left (first_sections_step view) l seen = seen.
Proof.
  induction l as [|x l IH]; intros seen H; [reflexivity|].
  cbn [fold_left].
  replace (first_sections_step view seen x) with seen.
  - apply IH. intros y Hy. apply H. now right.
  - unfold first_sections_step. now rewrite (H x) by now left.
Qed.

Lemma first_sections_group (s : string) (r0 : Row) (g : list Row)
  (seen : Dict.t (option string * option string)) :
  ~ In s (Dict.keys seen) ->
  (forall r : Row, In r (r0 :: g) -> sec_key_of r = s) ->
  fold_left (first_sections_step (fun p : Payload => p))
            (map snd (section_entries (s, r0 :: g))) seen
  = seen ++ [section_rep data (s, r0 :: g)].
Proof.
  intros Fresh K.
  assert (S1 : first_sections_step (fun p : Payload => p) seen (Builder.new_payload r0)
               = seen ++ [section_rep data (s, r0 :: g)]).
  { unfold first_sections_step.
    replace (sec_key_of (Builder.new_payload r0)) with s
      by (rewrite <- (K r0 (or_introl eq_refl)); reflexivity).
    replace (Dict.mem s seen) with false
      by (symmetry; unfold Dict.mem; now rewrite (proj2 (get_none_keys _ seen s) Fresh)).
    now rewrite (set_fresh _ seen s _ Fresh). }
  unfold section_entries. rewrite map_map. cbn [snd map fold_left]. rewrite S1.
  apply first_sections_seen.
  intros p Hp. apply in_map_iff in Hp. destruct Hp as [r [<- Hr]].
  replace (sec_key_of (Builder.new_payload r)) with s
    by (rewrite <- (K r (or_intror Hr)); reflexivity).
  apply mem_keys. unfold Dict.keys. rewrite map_app. apply in_or_app. right. now left.
Qed.

(** The sections of the catalog that a filing's groups give rise to are the
    groups themselves, in order, when every group is non-empty and made of
    rows of its own section key. *)
Lemma unified_sections_of_entries (G : Dict.t (list Row)) :
  forall seen,
    NoDup (Dict.keys seen ++ Dict.keys G) ->
    (forall s g, In (s, g) G -> g <> [] /\ forall r : Row, In r g -> sec_key_of r = s) ->
    fold_left (first_sections_step (fun p : Payload => p))
              (Dict.vals (flat_map section_entries G)) seen
    = seen ++ map (section_rep data) G.
Proof.
  induction G as [|[s g] G IH]; intros seen N W.
  - simpl. now rewrite app_nil_r.
  - cbn [flat_map]. unfold Dict.vals. rewrite map_app, fold_left_app.
    destruct (W s g (or_introl eq_refl)) as [NE K].
    destruct g as [|r0 g]; [congruence|].
    assert (Fresh : ~ In s (Dict.keys seen)).
    { intros H. unfold Dict.keys in N, H. simpl in N.
      apply NoDup_remove_2 in N. apply N. apply in_or_app. now left. }
    rewrite (first_sections_group s r0 g seen Fresh K).
    fold (Dict.vals (flat_map section_entries G)).
    rewrite IH.
    + rewrite <- app_assoc. reflexivity.
    + unfold Dict.keys in *. rewrite map_app. simpl. rewrite <- app_assoc. exact N.
    + intros s' g' H. apply W. now right.
Qed.

(** ** The greedy section pass on a catalog built from the same filing *)

Lemma same_section_gate_self (g l : option string) : _same_section_gate g l g l = true.
Proof. unfold _same_section_gate. now rewrite String.eqb_refl, orb_true_r. Qed.

Lemma first_free_section_self (used : list string) (s : string) (g l : option string)
  (post : Dict.t (option string * option string)) :
  in_strs s used = false ->
  forall pre,
    (forall c, In c pre -> in_strs (fst c) used = true) ->
    first_free_section (pre ++ (s, (g, l)) :: post) used g l = Some s.
Proof.
  intros U. induction pre as [|[k [g0 l0]] pre IH]; simpl; intros H.
  - now rewrite U, same_section_gate_self.
  - pose proof (H _ (or_introl eq_refl)) as H0. simpl in H0. rewrite H0.
    apply IH. intros c Hc. apply H. now right.
Qed.

Lemma greedy_section_fold (CS : Dict.t (option string * option string)) :
  NoDup (Dict.keys CS) ->
  forall rest done,
    CS = done ++ rest ->
    fold_left (greedy_section_step CS) rest
              (rev (Dict.keys done), map bound_to_itself done)
    = (rev (Dict.keys CS), map bound_to_itself CS).
Proof.
  intros N. induction rest as [|[s [g l]] rest IH]; intros done E.
  - rewrite app_nil_r in E. now subst done.
  - cbn [fold_left]. unfold greedy_section_step at 2. cbn [fst snd].
    assert (Fresh : ~ In s (Dict.keys done)).
    { intros H. rewrite E in N. unfold Dict.keys in N. rewrite map_app in N.
      simpl in N. apply NoDup_remove_2 in N. apply N. apply in_or_app. now left. }
    assert (F : first_free_section CS (rev (Dict.keys done)) g l = Some s).
    { rewrite E. apply first_free_section_self.
      - destruct (in_strs s (rev (Dict.keys done))) eqn:X; [|reflexivity].
        apply in_strs_In in X. apply in_rev in X. contradiction.
      - intros c Hc. apply in_strs_In. apply -> in_rev. now apply in_map. }
    rewrite F.
    rewrite (set_fresh _ (map bound_to_itself done) s (Some s)).
    + specialize (IH (done ++ [(s, (g, l))])). rewrite <- app_assoc in IH.
      specialize (IH E). unfold Dict.keys in IH. rewrite !map_app, rev_app_distr in IH.
      exact IH.
    + unfold Dict.keys. rewrite map_map. exact Fresh.
Qed.

Lemma greedy_section_map_self (unified : Catalog) (rows : list Row) :
  _list_unified_sections unified = _candidate_sections_in_order rows ->
  NoDup (Dict.keys (_candidate_sections_in_order rows)) ->
  _build_greedy_section_map unified rows
  = map bound_to_itself (_candidate_sections_in_order rows).
Proof.
  intros E N. unfold _build_greedy_section_map. rewrite E.
  pose proof (greedy_section_fold _ N _ [] eq_refl) as F.
  cbn [Dict.keys map rev] in F. now rewrite F.
Qed.

Lemma bound_to_itself_target (CS : Dict.t (option string * option string)) (s : string) :
  In s (Dict.keys CS) -> Builder.target_of (map bound_to_itself CS) s = Some s.
Proof.
  unfold Builder.target_of, Dict.keys.
  induction CS as [|[k v] CS IH]; simpl; intros H; [contradiction|].
  destruct (String.eqb k s) eqn:E.
  - apply String.eqb_eq in E. now subst.
  - apply String.eqb_neq in E. destruct H as [H|H]; [congruence | now apply IH].
Qed.

Lemma bound_to_itself_rewrite (unified_by_sec : Dict.t (list Payload))
  (CS : Dict.t (option string * option string)) (rows : list Row) :
  fold_left (Builder.rewrite_step unified_by_sec) (map bound_to_itself CS) rows = rows.
Proof.
  induction CS as [|[k v] CS IH]; simpl; [reflexivity|].
  unfold Builder.rewrite_step at 2. simpl. now rewrite String.eqb_refl.
Qed.

(** ** The first merge of a filing *)

Lemma greedy_section_empty (l : Dict.t (option string * option string)) :
  forall st : list string * Dict.t (option string),
    (forall k v, In (k, v) (snd st) -> v = None) ->
    forall k v, In (k, v) (snd (fold_left (greedy_section_step []) l st)) -> v = None.
Proof.
  induction l as [|c l IH]; simpl; intros st H; [exact H|].
  apply IH. unfold greedy_section_step. simpl. intros k v Hin.
  apply in_set in Hin. destruct Hin as [Eq|Hin]; [now inversion Eq | now apply (H k)].
Qed.

Lemma target_of_none (m : Dict.t (option string)) (s : string) :
  (forall k v, In (k, v) m -> v = None) -> Builder.target_of m s = None.
Proof.
  intros H. unfold Builder.target_of. destruct (Dict.get s m) as [v|] eqn:G; [|reflexivity].
  apply (H s). now apply get_some_in.
Qed.

Lemma rewrite_none (unified_by_sec : Dict.t (list Payload)) (m : Dict.t (option string)) :
  (forall k v, In (k, v) m -> v = None) ->
  forall rows, fold_left (Builder.rewrite_step unified_by_sec) m rows = rows.
Proof.
  induction m as [|[k v] m IH]; simpl; intros H rows; [reflexivity|].
  rewrite (H k v (or_introl eq_refl)). unfold Builder.rewrite_step at 2. simpl.
  apply IH. intros k0 v0 H0. apply (H k0). now right.
Qed.

Lemma foldM_pure (S X : Type) (body : S -> X -> res S) (f : S -> X -> S) (l : list X) :
  (forall s x, In x l -> body s x = Ok (f s x)) ->
  forall s, foldM body l s = Ok (fold_left f l s).
Proof.
  induction l as [|x l IH]; simpl; intros H s; [reflexivity|].
  rewrite H by now left. simpl. apply IH. intros s0 y Hy. apply H. now right.
Qed.

Lemma fold_left_snd_enumerate (S A : Type) (f : S -> A -> S) (l : list A) :
  forall (n : nat) (s : S),
    fold_left (fun s (ix : nat * A) => f s (snd ix)) (combine (seq n (List.length l)) l) s
    = fold_left f l s.
Proof.
  induction l as [|x l IH]; simpl; intros n s; [reflexivity|]. apply IH.
Qed.

Lemma merge_row_unbound (yr : string) (greedy_item_map : list (nat * string))
  (collision_gaaps : list string) (sec : string) (unified : Catalog) (ir : nat * Row) :
  Builder.merge_row yr None greedy_item_map collision_gaaps sec unified ir
  = Ok (put unified
            (Builder.unified_key (in_collisions (item_gaap (snd ir)) collision_gaaps)
                                 (snd ir) sec,
             Builder.new_payload (snd ir))).
Proof.
  unfold Builder.merge_row, Builder.confirm, Builder.update_block, Builder.create, put.
  simpl. now rewrite set_set.
Qed.

Lemma merge_section_unbound (yr : string) (greedy_sec_map : Dict.t (option string))
  (unified : Catalog) (group : string * list Row) :
  Builder.target_of greedy_sec_map (fst group) = None ->
  Builder.merge_section yr greedy_sec_map unified group
  = Ok (fold_left put (section_entries group) unified).
Proof.
  intros T. unfold Builder.merge_section, section_entries. rewrite T.
  set (C := detect_gaap_collisions (snd group)).
  set (entry := fun r : Row =>
                  (Builder.unified_key (in_collisions (item_gaap r) C) r (fst group),
                   Builder.new_payload r)).
  rewrite (foldM_pure _ _ _ (fun u (ir : nat * Row) => put u (entry (snd ir)))).
  - f_equal. unfold enumerate.
    rewrite (fold_left_snd_enumerate _ _ (fun u (r : Row) => put u (entry r))).
    generalize unified. generalize (snd group) as g.
    induction g as [|r g IH]; simpl; intros u; [reflexivity | apply IH].
  - intros u ir _. apply merge_row_unbound.
Qed.

Lemma put_all_fresh (V : Type) (l : list (string * V)) :
  forall d : Dict.t V,
    NoDup (Dict.keys d ++ map fst l) -> fold_left put l d = d ++ l.
Proof.
  induction l as [|[k v] l IH]; simpl; intros d N.
  - now rewrite app_nil_r.
  - unfold put at 2. simpl. rewrite set_fresh.
    + rewrite IH; [now rewrite <- app_assoc|].
      unfold Dict.keys in *. rewrite map_app. simpl. now rewrite <- app_assoc.
    + intros H. apply NoDup_remove_2 in N. apply N. apply in_or_app. now left.
Qed.

Lemma merge_sections_unbound (yr : string) (greedy_sec_map : Dict.t (option string))
  (G : Dict.t (list Row)) :
  (forall k v, In (k, v) greedy_sec_map -> v = None) ->
  forall unified,
    foldM (Builder.merge_section yr greedy_sec_map) G unified
    = Ok (fold_left put (flat_map section_entries G) unified).
Proof.
  intros H. induction G as [|group G IH]; simpl; intros unified; [reflexivity|].
  rewrite merge_section_unbound by now apply target_of_none.
  simpl. rewrite IH. now rewrite fold_left_app.
Qed.

(** A first merge files every row under its own key. *)
Lemma first_merge (yr : string) (rows : list Row) :
  NoDup (Dict.keys (filing_entries rows)) ->
  Builder.merge_filing yr [] rows = Ok (filing_entries rows, rows).
Proof.
  intros N. unfold Builder.merge_filing.
  assert (M : forall k v, In (k, v) (_build_greedy_section_map [] rows) -> v = None).
  { unfold _build_greedy_section_map. apply greedy_section_empty. intros k v []. }
  rewrite (rewrite_none _ _ M), section_groups_spec.
  rewrite (merge_sections_unbound yr _ _ M). simpl.
  fold (filing_entries rows). rewrite put_all_fresh; [reflexivity|exact N].
Qed.

(** ** The second merge of the same filing *)

Lemma filter_all (A : Type) (P : A -> bool) (l : list A) :
  (forall x, In x l -> P x = true) -> filter P l = l.
Proof.
  induction l as [|x l IH]; simpl; intros H; [reflexivity|].
  rewrite (H x) by now left. f_equal. apply IH. intros y Hy. apply H. now right.
Qed.

Lemma filter_none (A : Type) (P : A -> bool) (l : list A) :
  (forall x, In x l -> P x = false) -> filter P l = [].
Proof.
  induction l as [|x l IH]; simpl; intros H; [reflexivity|].
  rewrite (H x) by now left. apply IH. intros y Hy. apply H. now right.
Qed.

Lemma section_entries_key (s : string) (g : list Row) (kex : string * Payload) :
  (forall r : Row, In r g -> sec_key_of r = s) ->
  In kex (section_entries (s, g)) -> sec_key_of (snd kex) = s.
Proof.
  intros K H. unfold section_entries in H. apply in_map_iff in H.
  destruct H as [r [<- Hr]]. simpl. rewrite <- (K r Hr). reflexivity.
Qed.

(** The pool of a section is the list of the entries its own rows made. *)
Lemma pool_of_section (G : Dict.t (list Row)) (s : string) (g : list Row) :
  NoDup (Dict.keys G) ->
  (forall s' g', In (s', g') G -> forall r : Row, In r g' -> sec_key_of r = s') ->
  In (s, g) G ->
  filter (fun kex : string * Payload => String.eqb (sec_key_of (snd kex)) s)
         (flat_map section_entries G)
  = section_entries (s, g).
Proof.
  unfold Dict.keys. induction G as [|[s0 g0] G IH]; simpl; intros N W H; [contradiction|].
  inversion N as [|? ? Hn Nd]; subst. rewrite filter_app.
  assert (W0 : forall r : Row, In r g0 -> sec_key_of r = s0)
    by (apply (W s0 g0); now left).
  assert (WT : forall s' g', In (s', g') G ->
                             forall r : Row, In r g' -> sec_key_of r = s')
    by (intros s' g' H'; apply W; now right).
  destruct H as [Eq|H].
  - inversion Eq; subst s0 g0. rewrite filter_all.
    + rewrite filter_none; [now rewrite app_nil_r|].
      intros kex Hk. apply in_flat_map in Hk. destruct Hk as [[s' g'] [Hg Hk]].
      apply String.eqb_neq. rewrite (section_entries_key s' g' kex (WT s' g' Hg) Hk).
      intros ->. apply Hn. apply (in_map fst _ _ Hg).
    + intros kex Hk. apply String.eqb_eq. now apply (section_entries_key s g).
  - rewrite filter_none.
    + now apply IH.
    + intros kex Hk. apply String.eqb_neq.
      rewrite (section_entries_key s0 g0 kex W0 Hk).
      intros ->. apply Hn. apply (in_map fst _ _ H).
Qed.

Lemma nodup_flat_piece (A B : Type) (f : A -> list (string * B)) (G : list A) (x : A) :
  NoDup (map fst (flat_map f G)) -> In x G -> NoDup (map fst (f x)).
Proof.
  induction G as [|a G IH]; simpl; intros N H; [contradiction|].
  rewrite map_app in N. destruct H as [->|H].
  - now apply NoDup_app_remove_r in N.
  - apply IH; auto. now apply NoDup_app_remove_l in N.
Qed.

Section SecondMerge.
Variables (yr : string) (zy : Z) (rows : list Row).
Hypothesis period_year : PyStr.int (normalize_year_key (PyStr.take 4 yr)) = Ok zy.
Hypothesis keys_years :
  forall r : Row, In r rows -> forall k, In k (Dict.keys (values r)) -> year_like k.
Hypothesis entries_nodup : NoDup (Dict.keys (filing_entries rows)).

Let G : Dict.t (list Row) := group_by (fun r : Row => Builder.sec_of r) rows.

Lemma groups_well_formed (s : string) (g : list Row) :
  In (s, g) G -> g <> [] /\ forall r : Row, In r g -> sec_key_of r = s.
Proof.
  intros H. split.
  - apply (group_by_member _ _ _ _ _ H).
  - intros r Hr. rewrite <- sec_of_spec.
    apply (group_by_key _ (fun r : Row => Builder.sec_of r) rows s g r H Hr).
Qed.

Lemma catalog_sections_are_candidates :
  _list_unified_sections (filing_entries rows) = _candidate_sections_in_order rows.
Proof.
  rewrite candidate_sections_groups.
  rewrite (group_by_ext _ (fun r : Row => sec_key_of r) (fun r : Row => Builder.sec_of r))
    by (intros r; symmetry; apply sec_of_spec).
  unfold _list_unified_sections. rewrite first_sections_fold.
  apply (unified_sections_of_entries G []).
  - apply group_by_nodup.
  - apply groups_well_formed.
Qed.

Lemma candidate_keys : Dict.keys (_candidate_sections_in_order rows) = Dict.keys G.
Proof.
  rewrite candidate_sections_groups, rep_keys.
  now rewrite (group_by_ext _ (fun r : Row => sec_key_of r)
                            (fun r : Row => Builder.sec_of r))
    by (intros r; symmetry; apply sec_of_spec).
Qed.

Lemma remerge_section (group : string * list Row) :
  In group G ->
  Builder.merge_section yr
    (map bound_to_itself (_candidate_sections_in_order rows))
    (filing_entries rows) group
  = Ok (filing_entries rows).
Proof.
  destruct group as [s g]. intros H. unfold Builder.merge_section. cbn [fst snd].
  rewrite bound_to_itself_target
    by (rewrite candidate_keys; apply (in_map fst _ _ H)).
  set (C := detect_gaap_collisions g).
  set (key := fun r : Row => Builder.unified_key (in_collisions (item_gaap r) C) r s).
  assert (N : NoDup (map key g)).
  { pose proof (nodup_flat_piece _ _ section_entries G (s, g) entries_nodup H) as P.
    unfold section_entries in P. rewrite map_map in P. exact P. }
  rewrite (greedy_item_map_self key C g N).
  - apply foldM_const. intros [idx row] Hir.
    assert (Hr : In row g) by apply (enumerate_in _ _ _ Hir).
    apply (remerge_row yr zy); auto.
    + apply keys_years.
      apply (group_by_key _ (fun r : Row => Builder.sec_of r) rows s g row H Hr).
    + apply get_nodup_in; [exact entries_nodup|].
      unfold filing_entries. apply in_flat_map. exists (s, g). split; [exact H|].
      unfold section_entries. apply in_map_iff. exists row. auto.
    + apply (idx_get_enumerate Row key g 0 idx row Hir).
  - unfold filing_entries. fold G.
    rewrite (pool_of_section G s g); auto.
    + apply group_by_nodup.
    + intros s' g' H'. apply (groups_well_formed s' g' H').
Qed.

Lemma second_merge :
  Builder.merge_filing yr (filing_entries rows) rows = Ok (filing_entries rows, rows).
Proof.
  unfold Builder.merge_filing.
  rewrite (greedy_section_map_self _ _ catalog_sections_are_candidates)
    by (rewrite candidate_keys; apply group_by_nodup).
  rewrite bound_to_itself_rewrite, section_groups_spec.
  fold G. rewrite foldM_const; [reflexivity|].
  intros group Hg. now apply remerge_section.
Qed.
End SecondMerge.



(** ** The layout of the ordered catalog *)

Lemma separate_perm (positions_map : Orderer.PosMap) (latest_year : string)
  (years_sorted : list string) (sk : string) (items : list (string * Payload)) :
  forall st parts,
    foldM (Orderer.separate_step positions_map latest_year years_sorted sk) items st
    = Ok parts ->
    Permutation (map placed_binding (fst parts ++ snd parts))
                (map placed_binding (fst st ++ snd st) ++ items).
Proof.
  induction items as [|[k p] items IH]; simpl; intros [l0 o0] parts E.
  - inversion E; subst. now rewrite app_nil_r.
  - unfold bind in E. unfold Orderer.separate_step at 1 in E. simpl in E.
    unfold bind in E.
    destruct (Orderer._item_identity_from_unified_key sk k p) as [ik|]; [|discriminate].
    destruct (Dict.get latest_year (Orderer.pm_get (sk, ik) positions_map)) as [q|];
      apply IH in E; simpl in E; rewrite E; rewrite !map_app; simpl;
      rewrite <- !app_assoc; repeat apply Permutation_app_head.
    + simpl. apply Permutation_middle.
    + reflexivity.
Qed.

(** The sequence of a section holds the entries of the section, each once. *)
Lemma order_section_perm (positions_map : Orderer.PosMap) (latest_year : string)
  (years_sorted : list string) (sk : string) (items : list (string * Payload))
  (out : list Orderer.Sortable) :
  Orderer.order_section positions_map latest_year years_sorted sk items = Ok out ->
  Permutation (map sortable_binding out) items.
Proof.
  intros E. unfold Orderer.order_section, bind in E.
  destruct (foldM (Orderer.separate_step positions_map latest_year years_sorted sk)
                  items ([], [])) as [[latest older]|] eqn:S; [|discriminate].
  simpl in E. assert (A : Orderer.arrange latest older = out) by congruence.
  apply separate_perm in S. simpl in S. rewrite <- S, <- A.
  unfold sortable_binding. rewrite <- map_map.
  apply Permutation_map. rewrite arrange_perm. apply Permutation_app_comm.
Qed.

Lemma emit_fresh (out : list Orderer.Sortable) :
  forall ordered : Catalog,
    NoDup (Dict.keys ordered ++ map fst (map sortable_binding out)) ->
    Orderer.emit ordered out = ordered ++ map sortable_binding out.
Proof.
  intros ordered N. rewrite <- put_all_fresh by exact N.
  unfold Orderer.emit. revert ordered N.
  induction out as [|e out IH]; simpl; intros ordered N; [reflexivity|].
  apply IH. unfold put at 1. simpl.
  rewrite set_fresh.
  - unfold Dict.keys in *. rewrite map_app. simpl. rewrite <- app_assoc. exact N.
  - intros H. simpl in N. apply NoDup_remove_2 in N. apply N. apply in_or_app. now left.
Qed.

Lemma nodup_keys_filter (V : Type) (P : string * V -> bool) (d : Dict.t V) :
  NoDup (Dict.keys d) -> NoDup (Dict.keys (filter P d)).
Proof.
  unfold Dict.keys. induction d as [|kv d IH]; simpl; intros N; [constructor|].
  inversion N as [|? ? Hn Nd]; subst. destruct (P kv); simpl; [|now apply IH].
  constructor; [|now apply IH].
  intros H. apply Hn. apply in_map_iff in H. destruct H as [x [E Hx]].
  apply filter_In in Hx. rewrite <- E. apply in_map. tauto.
Qed.

Lemma layout_gen (unified : Catalog) (positions_map : Orderer.PosMap)
  (latest_year : string) (years_sorted target_years : list string) :
  NoDup (Dict.keys unified) ->
  forall sks ordered0 ordered,
    NoDup sks ->
    NoDup (Dict.keys ordered0) ->
    (forall k, In k (Dict.keys ordered0) ->
               exists p, In (k, p) unified /\ ~ In (Builder.sec_of p) sks) ->
    foldM (emit_section positions_map latest_year years_sorted target_years
             (group_by (fun kp : string * Payload => Builder.sec_of (snd kp)) unified))
          sks ordered0
    = Ok ordered ->
    exists outs,
      Forall2 (fun sk out =>
                 Orderer.order_section positions_map latest_year years_sorted sk
                                       (entries_under unified sk) = Ok out)
              sks outs
      /\ Dict.keys ordered
         = Dict.keys ordered0 ++ flat_map (fun out => Dict.keys (map sortable_binding out)) outs.
Proof.
  intros NU. induction sks as [|sk sks IH]; simpl; intros ordered0 ordered Ns N0 Old E.
  - inversion E; subst. exists []. split; [constructor | now rewrite app_nil_r].
  - unfold bind in E. unfold emit_section at 1 in E. rewrite get_group_by in E.
    fold (entries_under unified sk) in E. unfold bind in E.
    destruct (Orderer.order_section positions_map latest_year years_sorted sk
                                    (entries_under unified sk)) as [out|] eqn:O;
      [|discriminate].
    inversion Ns as [|? ? Hsk Nrest]; subst.
    pose proof (order_section_perm _ _ _ _ _ _ O) as P.
    assert (In_out : forall k, In k (Dict.keys (map sortable_binding out)) ->
                               exists p, In (k, p) unified /\ Builder.sec_of p = sk).
    { intros k Hk. unfold Dict.keys in Hk. apply in_map_iff in Hk.
      destruct Hk as [[k0 p] [Ek Hkp]]. simpl in Ek. subst k0.
      apply (Permutation_in _ P) in Hkp. unfold entries_under in Hkp.
      apply filter_In in Hkp. destruct Hkp as [Hu Hs]. exists p. split; [exact Hu|].
      now apply String.eqb_eq in Hs. }
    assert (Fresh : NoDup (Dict.keys ordered0 ++ map fst (map sortable_binding out))).
    { apply NoDup_app; [exact N0| |].
      - apply (Permutation_NoDup (Permutation_sym (Permutation_map fst P))).
        apply (nodup_keys_filter _ _ unified NU).
      - intros k H0 H1. destruct (Old k H0) as [p [Hp Hs]].
        destruct (In_out k H1) as [p' [Hp' Hs']].
        assert (p = p').
        { pose proof (get_nodup_in _ _ _ _ NU Hp) as G1.
          pose proof (get_nodup_in _ _ _ _ NU Hp') as G2. congruence. }
        subst p'. apply Hs. left. now symmetry. }
    rewrite (emit_fresh out ordered0 Fresh) in E.
    apply IH in E; auto.
    + destruct E as [outs [F K]]. exists (out :: outs). split; [now constructor|].
      rewrite K. unfold _pad_missing_years_in_mapping, Dict.keys.
      rewrite map_map. simpl. rewrite map_app, <- app_assoc. reflexivity.
    + unfold _pad_missing_years_in_mapping, Dict.keys. rewrite map_map. simpl.
      unfold Dict.keys in Fresh. now rewrite map_app.
    + intros k Hk. unfold _pad_missing_years_in_mapping, Dict.keys in Hk.
      rewrite map_map in Hk. simpl in Hk. rewrite map_app in Hk.
      apply in_app_or in Hk. destruct Hk as [Hk|Hk].
      * destruct (Old k Hk) as [p [Hp Hs]]. exists p. split; [exact Hp|].
        intros H. apply Hs. now right.
      * destruct (In_out k Hk) as [p [Hp Hs]]. exists p. split; [exact Hp|].
        now rewrite Hs.
Qed.

(** In the ordered catalog the sequences of the sections follow one another,
    in the order of the sections. *)
Lemma order_catalog_layout (unified : Catalog) (flat_all : Dict.t (list Row))
  (positions_map : Orderer.PosMap) (latest_section_order : Dict.t Z)
  (latest_year : string) (years_sorted : list string) (ordered : Catalog) :
  NoDup (Dict.keys unified) ->
  order_catalog unified flat_all positions_map latest_section_order latest_year years_sorted
  = Ok ordered ->
  exists outs,
    Forall2 (fun sk out =>
               Orderer.order_section positions_map latest_year years_sorted sk
                                     (entries_under unified sk) = Ok out)
            (section_keys_sorted unified latest_section_order) outs
    /\ Dict.keys ordered
       = flat_map (fun out => Dict.keys (map sortable_binding out)) outs.
Proof.
  intros NU E. unfold order_catalog in E.
  apply (layout_gen unified positions_map latest_year years_sorted _ NU) in E.
  - exact E.
  - apply (Permutation_NoDup (Permutation_sym (stable_sort_perm _ _ _))).
    apply group_by_nodup.
  - constructor.
  - intros k [].
Qed.

(** ** The merged catalog is a dictionary *)

Lemma update_block_nodup (yr : string) (cleaning : bool) (matched_key : option string)
  (ignore_gaap : bool) (row : Row) (sec : string) (unified unified' : Catalog) :
  NoDup (Dict.keys unified) ->
  Builder.update_block yr cleaning matched_key ignore_gaap row sec unified = Ok unified' ->
  NoDup (Dict.keys unified').
Proof.
  intros N E. unfold Builder.update_block, Builder.create, bind in E.
  destruct matched_key as [k|].
  - destruct (String.eqb k "").
    + inversion E; subst. now apply set_nodup.
    + destruct (PyStr.startswith "review_needed" k); [now inversion E; subst|].
      destruct (Dict.get k unified) as [existing|]; [|discriminate].
      destruct (Builder.merge_values yr cleaning row (values existing)); [|discriminate].
      inversion E; subst. now apply set_nodup.
  - inversion E; subst. now apply set_nodup.
Qed.

Lemma merge_filing_nodup (yr : string) (unified unified' : Catalog)
  (rows rows' : list Row) :
  NoDup (Dict.keys unified) ->
  Builder.merge_filing yr unified rows = Ok (unified', rows') ->
  NoDup (Dict.keys unified').
Proof.
  intros N E. unfold Builder.merge_filing, bind in E.
  destruct (foldM _ _ unified) as [u|] eqn:F; [|discriminate].
  inversion E; subst u rows'; clear E.
  apply (foldM_ok_inv _ _ _ _ _ _ F (fun u => NoDup (Dict.keys u))); [exact N|].
  intros u0 group u1 _ N0 S. unfold Builder.merge_section in S.
  apply (foldM_ok_inv _ _ _ _ _ _ S (fun u => NoDup (Dict.keys u))); [exact N0|].
  intros u2 ir u3 _ N2 R. unfold Builder.merge_row, bind in R.
  destruct (Builder.confirm u2 (snd ir) _ _) as [matched_key|]; [|discriminate].
  destruct (Builder.update_block yr false matched_key _ (snd ir) (fst group) u2)
    as [u4|] eqn:B; [|discriminate].
  eapply update_block_nodup; [|exact R]. eapply update_block_nodup; [exact N2|exact B].
Qed.

(** No two entries of the merged catalog share a key. *)
Lemma merge_all_nodup (yr : string) (flat_all flat_all' : Dict.t (list Row))
  (unified : Catalog) :
  Builder.merge_all yr flat_all = Ok (unified, flat_all') ->
  NoDup (Dict.keys unified).
Proof.
  intros E. unfold Builder.merge_all in E.
  apply (foldM_ok_inv _ _ _ _ _ _ E (fun st => NoDup (Dict.keys (fst st)))).
  - constructor.
  - intros [u fl] [y rows] st1 _ N B. simpl in *. unfold bind in B.
    destruct (Builder.merge_filing yr u rows) as [[u' rows']|] eqn:M; [|discriminate].
    inversion B; subst st1. simpl. eapply merge_filing_nodup; eauto.
Qed.

(** * Further properties of the code *)

(** ** Normalisers: canonical forms *)

Lemma str_chars (s : string) : PyStr.str (PyStr.chars s) = s.
Proof. apply string_of_list_ascii_of_string. Qed.

Lemma chars_str (l : list ascii) : PyStr.chars (PyStr.str l) = l.
Proof. apply list_ascii_of_string_of_list_ascii. Qed.

Lemma between_spec (lo hi n : nat) :
  PyStr.between lo hi n = true <-> lo <= n <= hi.
Proof.
  unfold PyStr.between. rewrite andb_true_iff, !Nat.leb_le. tauto.
Qed.

Lemma code_inj (c d : ascii) : PyStr.code c = PyStr.code d -> c = d.
Proof.
  unfold PyStr.code. intros E.
  rewrite <- (ascii_nat_embedding c), <- (ascii_nat_embedding d), E. reflexivity.
Qed.

Lemma ascii_eqb_code (c d : ascii) :
  PyStr.code c <> PyStr.code d -> Ascii.eqb c d = false.
Proof.
  intros N. destruct (Ascii.eqb c d) eqn:E; [|reflexivity].
  apply Ascii.eqb_eq in E. subst d. contradiction.
Qed.

(** The characters a normalised label is made of. *)
Lemma clean_char_label_char (c : ascii) :
  clean_char c = PyStr.sp
  \/ PyStr.is_lower (clean_char c) || PyStr.is_digit (clean_char c) = true.
Proof.
  unfold clean_char.
  destruct (PyStr.is_lower (PyStr.lower_char c) || PyStr.is_digit (PyStr.lower_char c))
    eqn:E; [right; exact E | left; reflexivity].
Qed.

Lemma lower_char_fixed (c : ascii) :
  PyStr.is_upper c = false -> PyStr.lower_char c = c.
Proof. unfold PyStr.lower_char. intros ->. reflexivity. Qed.

Lemma label_char_not_upper (c : ascii) :
  c = PyStr.sp \/ PyStr.is_lower c || PyStr.is_digit c = true ->
  PyStr.is_upper c = false.
Proof.
  intros [->|H]; [reflexivity|].
  destruct (PyStr.is_upper c) eqn:U; [|reflexivity].
  unfold PyStr.is_upper, PyStr.is_lower, PyStr.is_digit in *.
  apply between_spec in U. apply orb_true_iff in H.
  destruct H as [H|H]; apply between_spec in H; lia.
Qed.

Lemma clean_char_fixed (c : ascii) :
  c = PyStr.sp \/ PyStr.is_lower c || PyStr.is_digit c = true ->
  clean_char c = c.
Proof.
  intros H. unfold clean_char. rewrite (lower_char_fixed c (label_char_not_upper c H)).
  destruct H as [->|H]; [reflexivity|]. rewrite H. reflexivity.
Qed.

Lemma label_char_not_space (c : ascii) :
  PyStr.is_lower c || PyStr.is_digit c = true -> Ascii.eqb c PyStr.sp = false.
Proof.
  intros H. apply ascii_eqb_code. intros E.
  unfold PyStr.is_lower, PyStr.is_digit in H. apply orb_true_iff in H.
  change (PyStr.code PyStr.sp) with 32 in E.
  destruct H as [H|H]; apply between_spec in H; lia.
Qed.

Lemma squeeze_label_chars (l : list ascii) :
  forall started pending,
    Forall (fun c => c = PyStr.sp \/ PyStr.is_lower c || PyStr.is_digit c = true) l ->
    Forall (fun c => c = PyStr.sp \/ PyStr.is_lower c || PyStr.is_digit c = true)
           (squeeze started pending l).
Proof.
  induction l as [|c l IH]; intros started pending F; simpl; [constructor|].
  inversion F as [|? ? Hc Hl]; subst.
  destruct (Ascii.eqb c PyStr.sp); [apply IH; exact Hl|].
  apply Forall_app. split.
  - destruct pending.
    + constructor; [left; reflexivity|]. constructor; [exact Hc|constructor].
    + constructor; [exact Hc|constructor].
  - apply IH; exact Hl.
Qed.

Lemma cleaned_label_chars (l : list ascii) :
  Forall (fun c => c = PyStr.sp \/ PyStr.is_lower c || PyStr.is_digit c = true)
         (map clean_char l).
Proof.
  induction l as [|c l IH]; simpl; constructor; [apply clean_char_label_char|exact IH].
Qed.

Lemma map_clean_fixed (l : list ascii) :
  Forall (fun c => c = PyStr.sp \/ PyStr.is_lower c || PyStr.is_digit c = true) l ->
  map clean_char l = l.
Proof.
  induction 1 as [|c l Hc _ IH]; simpl; [reflexivity|].
  rewrite (clean_char_fixed c Hc), IH. reflexivity.
Qed.

(** Squeezing an already squeezed list changes nothing. *)
Lemma squeeze_squeeze (l : list ascii) :
  forall started pending started' pending',
    (pending = true -> started' = true) ->
    (pending = false -> pending' = false) ->
    (started = true -> started' = true) ->
    (started = false -> pending' = false) ->
    squeeze started' pending' (squeeze started pending l) = squeeze started pending l.
Proof.
  induction l as [|c l IH]; intros started pending started' pending' H1 H2 H3 H4;
    simpl; [reflexivity|].
  destruct (Ascii.eqb c PyStr.sp) eqn:E.
  - apply IH; auto.
  - destruct pending; simpl.
    + rewrite (H1 eq_refl), E. simpl. rewrite IH by (auto; discriminate). reflexivity.
    + rewrite E, (H2 eq_refl). simpl. rewrite IH by (auto; discriminate). reflexivity.
Qed.

(** X1: normalising a normalised label changes nothing. *)
Theorem normalize_label_idempotent (label : option string) :
  normalize_label (Some (normalize_label label)) = normalize_label label.
Proof.
  destruct label as [s|]; [|reflexivity].
  destruct (String.eqb s "") eqn:E.
  { apply String.eqb_eq in E. subst s. reflexivity. }
  set (O := squeeze false false (map clean_char (PyStr.chars s))).
  assert (N : normalize_label (Some s) = PyStr.str O).
  { unfold normalize_label. rewrite E. reflexivity. }
  rewrite N. unfold normalize_label. destruct (String.eqb (PyStr.str O) "") eqn:E'.
  - apply String.eqb_eq in E'. symmetry. exact E'.
  - rewrite chars_str, map_clean_fixed.
    + unfold O. rewrite squeeze_squeeze; auto.
    + unfold O. apply squeeze_label_chars, cleaned_label_chars.
Qed.

Lemma squeeze_head (l : list ascii) (x : ascii) :
  hd_error (squeeze false false l) = Some x -> x <> PyStr.sp.
Proof.
  induction l as [|c l IH]; simpl; [discriminate|].
  destruct (Ascii.eqb c PyStr.sp) eqn:E; [exact IH|].
  simpl. intros H. inversion H; subst. intros ->.
  rewrite Ascii.eqb_refl in E. discriminate.
Qed.

Lemma squeeze_last (l : list ascii) :
  forall started pending x,
    hd_error (rev (squeeze started pending l)) = Some x -> x <> PyStr.sp.
Proof.
  induction l as [|c l IH]; intros started pending x; simpl; [discriminate|].
  destruct (Ascii.eqb c PyStr.sp) eqn:E; [apply IH|].
  rewrite rev_app_distr.
  destruct (rev (squeeze true false l)) as [|y r] eqn:R.
  - simpl. intros H.
    assert (x = c) by (destruct pending; simpl in H; congruence). subst x.
    intros ->. rewrite Ascii.eqb_refl in E. discriminate.
  - simpl. intros H. inversion H; subst y. apply (IH true false). rewrite R. reflexivity.
Qed.

Lemma squeeze_single_spaces (l : list ascii) :
  forall started pending,
    Sorted (fun a b => a = PyStr.sp -> b <> PyStr.sp) (squeeze started pending l).
Proof.
  induction l as [|c l IH]; intros started pending; simpl; [constructor|].
  destruct (Ascii.eqb c PyStr.sp) eqn:E; [apply IH|].
  assert (N : c <> PyStr.sp).
  { intros ->. rewrite Ascii.eqb_refl in E. discriminate. }
  assert (S1 : Sorted (fun a b => a = PyStr.sp -> b <> PyStr.sp)
                      (c :: squeeze true false l)).
  { constructor; [apply IH|].
    destruct (squeeze true false l); constructor. intros ->. contradiction. }
  destruct pending; simpl; [|exact S1].
  constructor; [exact S1|]. constructor. intros _. exact N.
Qed.

(** X2: a normalised label is made of lower-case letters, digits and
    spaces; it neither starts nor ends with a space, and no two spaces
    follow one another. *)
Theorem normalize_label_canonical (label : option string) :
  let l := PyStr.chars (normalize_label label) in
  Forall (fun c => c = PyStr.sp \/ PyStr.is_lower c || PyStr.is_digit c = true) l
  /\ (forall x, hd_error l = Some x -> x <> PyStr.sp)
  /\ (forall x, hd_error (rev l) = Some x -> x <> PyStr.sp)
  /\ Sorted (fun a b => a = PyStr.sp -> b <> PyStr.sp) l.
Proof.
  destruct label as [s|]; [|simpl; repeat split; try constructor; discriminate].
  unfold normalize_label. destruct (String.eqb s "");
    [simpl; repeat split; try constructor; discriminate|].
  cbv zeta. rewrite chars_str. repeat split.
  - apply squeeze_label_chars, cleaned_label_chars.
  - intros x. apply squeeze_head.
  - intros x. apply squeeze_last.
  - apply squeeze_single_spaces.
Qed.

(** *** Period keys *)

Lemma year_at_inv (l y : list ascii) :
  year_at l = Some y ->
  exists a b c d rest,
    l = a :: b :: c :: d :: rest /\ y = [a; b; c; d]
    /\ ((a = "2"%char /\ b = "0"%char) \/ (a = "1"%char /\ b = "9"%char))
    /\ PyStr.is_digit c = true /\ PyStr.is_digit d = true.
Proof.
  destruct l as [|a [|b [|c [|d rest]]]]; try discriminate. simpl.
  destruct (((Ascii.eqb a "2" && Ascii.eqb b "0") || (Ascii.eqb a "1" && Ascii.eqb b "9"))
            && PyStr.is_digit c && PyStr.is_digit d) eqn:E; [|discriminate].
  intros H. inversion H; subst y. exists a, b, c, d, rest.
  apply andb_true_iff in E. destruct E as [E Hd].
  apply andb_true_iff in E. destruct E as [E Hc].
  repeat split; auto.
  apply orb_true_iff in E.
  destruct E as [E|E]; apply andb_true_iff in E; destruct E as [E1 E2];
    apply Ascii.eqb_eq in E1; apply Ascii.eqb_eq in E2; auto.
Qed.

Lemma year_at_token (a b c d : ascii) (rest : list ascii) :
  (a = "2"%char /\ b = "0"%char) \/ (a = "1"%char /\ b = "9"%char) ->
  PyStr.is_digit c = true -> PyStr.is_digit d = true ->
  year_at (a :: b :: c :: d :: rest) = Some [a; b; c; d].
Proof.
  intros H Hc Hd. simpl. rewrite Hc, Hd.
  destruct H as [[-> ->]|[-> ->]]; reflexivity.
Qed.

Lemma search_year_inv (l y : list ascii) :
  search_year l = Some y ->
  exists a b c d pre post,
    l = pre ++ a :: b :: c :: d :: post /\ y = [a; b; c; d]
    /\ ((a = "2"%char /\ b = "0"%char) \/ (a = "1"%char /\ b = "9"%char))
    /\ PyStr.is_digit c = true /\ PyStr.is_digit d = true.
Proof.
  induction l as [|x l IH].
  - simpl. discriminate.
  - intros H. change (match year_at (x :: l) with
                      | Some y => Some y
                      | None => search_year l
                      end = Some y) in H.
    destruct (year_at (x :: l)) as [y0|] eqn:Y.
    + inversion H; subst y0.
      destruct (year_at_inv _ _ Y) as (a & b & c & d & rest & L & Ey & Hab & Hc & Hd).
      exists a, b, c, d, [], rest. simpl. auto.
    + destruct (IH H) as (a & b & c & d & pre & post & L & Ey & Hab & Hc & Hd).
      exists a, b, c, d, (x :: pre), post. simpl. rewrite L. auto.
Qed.

Lemma search_year_finds (pre : list ascii) :
  forall a b c d post,
    (a = "2"%char /\ b = "0"%char) \/ (a = "1"%char /\ b = "9"%char) ->
    PyStr.is_digit c = true -> PyStr.is_digit d = true ->
    search_year (pre ++ a :: b :: c :: d :: post) <> None.
Proof.
  induction pre as [|x pre IH]; intros a b c d post Hab Hc Hd.
  - change (match year_at (a :: b :: c :: d :: post) with
            | Some y => Some y
            | None => search_year (b :: c :: d :: post)
            end <> None).
    rewrite (year_at_token a b c d post Hab Hc Hd). discriminate.
  - change (match year_at (x :: pre ++ a :: b :: c :: d :: post) with
            | Some y => Some y
            | None => search_year (pre ++ a :: b :: c :: d :: post)
            end <> None).
    destruct (year_at _); [discriminate|]. apply IH; assumption.
Qed.

Lemma str_nonempty (c : ascii) (l : list ascii) :
  String.eqb (PyStr.str (c :: l)) "" = false.
Proof. reflexivity. Qed.

(** X3: a normalised period key is its own normal form: the key is either
    left as it is or replaced by a year token, and a year token is kept. *)
Theorem normalize_year_key_idempotent (key : string) :
  normalize_year_key (normalize_year_key key) = normalize_year_key key.
Proof.
  destruct (String.eqb key "") eqn:E.
  { apply String.eqb_eq in E. subst key. reflexivity. }
  destruct (search_year (PyStr.chars key)) as [y|] eqn:S.
  - destruct (search_year_inv _ _ S) as (a & b & c & d & pre & post & L & -> & Hab & Hc & Hd).
    assert (N : normalize_year_key key = PyStr.str [a; b; c; d]).
    { unfold normalize_year_key. rewrite E, S. reflexivity. }
    rewrite N. unfold normalize_year_key. rewrite str_nonempty, chars_str.
    change (search_year [a; b; c; d])
      with (match year_at [a; b; c; d] with
            | Some y => Some y
            | None => search_year [b; c; d]
            end).
    rewrite (year_at_token a b c d [] Hab Hc Hd). reflexivity.
  - assert (N : normalize_year_key key = key).
    { unfold normalize_year_key. rewrite E, S. reflexivity. }
    rewrite !N. reflexivity.
Qed.

Lemma digit_not_space (c : ascii) :
  PyStr.is_digit c = true -> PyStr.is_space c = false.
Proof.
  unfold PyStr.is_digit, PyStr.is_space. intros H. apply between_spec in H.
  destruct (PyStr.between 9 13 (PyStr.code c)) eqn:A; [apply between_spec in A; lia|].
  destruct (PyStr.between 28 32 (PyStr.code c)) eqn:B; [apply between_spec in B; lia|].
  destruct (Nat.eqb (PyStr.code c) 133) eqn:C; [apply Nat.eqb_eq in C; lia|].
  destruct (Nat.eqb (PyStr.code c) 160) eqn:D; [apply Nat.eqb_eq in D; lia|].
  reflexivity.
Qed.

Lemma digit_value (c : ascii) :
  PyStr.is_digit c = true -> (0 <= Z.of_nat (PyStr.code c - 48) <= 9)%Z.
Proof.
  unfold PyStr.is_digit. intros H. apply between_spec in H. lia.
Qed.

Lemma int_of_year_token (a b c d : ascii) :
  (a = "2"%char /\ b = "0"%char) \/ (a = "1"%char /\ b = "9"%char) ->
  PyStr.is_digit c = true -> PyStr.is_digit d = true ->
  exists z, PyStr.int (PyStr.str [a; b; c; d]) = Ok z /\ (1900 <= z <= 2099)%Z.
Proof.
  intros Hab Hc Hd.
  assert (Ha : PyStr.is_digit a = true) by (destruct Hab as [[-> _]|[-> _]]; reflexivity).
  assert (Hb : PyStr.is_digit b = true) by (destruct Hab as [[_ ->]|[_ ->]]; reflexivity).
  assert (Sa : PyStr.is_space a = false) by (apply digit_not_space; exact Ha).
  assert (Sd : PyStr.is_space d = false) by (apply digit_not_space; exact Hd).
  assert (Ma : Ascii.eqb a "-" = false) by (destruct Hab as [[-> _]|[-> _]]; reflexivity).
  assert (Pa : Ascii.eqb a "+" = false) by (destruct Hab as [[-> _]|[-> _]]; reflexivity).
  unfold PyStr.int. rewrite chars_str.
  assert (St : PyStr.strip_chars [a; b; c; d] = [a; b; c; d]).
  { unfold PyStr.strip_chars. simpl. rewrite Sa. simpl. rewrite Sd. reflexivity. }
  rewrite St, Ma, Pa. cbn [PyStr.int_digits]. rewrite Ha, Hb, Hc, Hd. cbv beta iota.
  eexists. split; [reflexivity|].
  pose proof (digit_value c Hc). pose proof (digit_value d Hd).
  destruct Hab as [[-> ->]|[-> ->]];
    [change (PyStr.code "2" - 48) with 2; change (PyStr.code "0" - 48) with 0
    |change (PyStr.code "1" - 48) with 1; change (PyStr.code "9" - 48) with 9]; lia.
Qed.



(** ** Flattened values, tag collisions and the matcher *)

Lemma find_snoc (A : Type) (p : A -> bool) (l : list A) (x : A) :
  find p (l ++ [x])
  = match find p l with
    | Some r => Some r
    | None => if p x then Some x else None
    end.
Proof.
  induction l as [|a l IH]; simpl; [reflexivity|].
  destruct (p a); [reflexivity | exact IH].
Qed.

Lemma normalize_fold_get (d : Values) (y : string) :
  forall acc : Values,
    Dict.get y (fold_left (fun new_vals kv =>
                             Dict.set (normalize_year_key (fst kv)) (snd kv) new_vals)
                          d acc)
    = match find (fun kv => String.eqb (normalize_year_key (fst kv)) y) (rev d) with
      | Some kv => Some (snd kv)
      | None => Dict.get y acc
      end.
Proof.
  induction d as [|[k v] d IH]; intros acc; simpl; [reflexivity|].
  rewrite IH, find_snoc.
  destruct (find _ (rev d)); [reflexivity|]. simpl.
  destruct (String.eqb (normalize_year_key k) y) eqn:E.
  - apply String.eqb_eq in E. subst y. apply get_set_same.
  - apply get_set_other. apply String.eqb_neq in E. congruence.
Qed.

Lemma fold_set_nodup (V : Type) (X : Type) (f : X -> string) (g : X -> V) (l : list X) :
  forall acc : Dict.t V,
    NoDup (Dict.keys acc) ->
    NoDup (Dict.keys (fold_left (fun d x => Dict.set (f x) (g x) d) l acc)).
Proof.
  induction l as [|x l IH]; intros acc N; simpl; [exact N|].
  apply IH. apply set_nodup. exact N.
Qed.

(** X5: the flattener keys an item's values by normalised period key; when
    several raw keys normalise to the same key, the value of the last one is
    the one kept, and no key occurs twice. *)
Theorem normalize_values_last_wins (d : Values) (y : string) :
  Dict.get y (normalize_values (Some d))
  = option_map snd
      (find (fun kv => String.eqb (normalize_year_key (fst kv)) y) (rev d))
  /\ NoDup (Dict.keys (normalize_values (Some d))).
Proof.
  split.
  - unfold normalize_values. rewrite normalize_fold_get.
    destruct (find _ (rev d)); reflexivity.
  - unfold normalize_values.
    apply (fold_set_nodup cell (string * cell)
             (fun kv => normalize_year_key (fst kv)) snd d []). constructor.
Qed.

(** *** Tag collisions *)

Lemma opt_str_eqb_eq (a b : option string) : opt_str_eqb a b = true <-> a = b.
Proof.
  destruct a as [x|], b as [y|]; simpl; try (split; congruence).
  rewrite String.eqb_eq. split; congruence.
Qed.

Lemma opt_str_eqb_sym (a b : option string) : opt_str_eqb a b = opt_str_eqb b a.
Proof.
  destruct a as [x|], b as [y|]; simpl; try reflexivity. apply String.eqb_sym.
Qed.

Lemma counts_fold (rows : list Row) (g : string) :
  forall counts : Dict.t nat,
    match Dict.get g
            (fold_left (fun counts (r : Row) =>
                          if truthy_str (item_gaap r) then
                            let g := str_or_empty (item_gaap r) in
                            Dict.set g (S (match Dict.get g counts with
                                           | Some c => c
                                           | None => 0
                                           end)) counts
                          else counts) rows counts) with
    | Some c => c
    | None => 0
    end
    = List.length (filter (fun r : Row => truthy_str (item_gaap r)
                                          && opt_str_eqb (item_gaap r) (Some g)) rows)
      + match Dict.get g counts with
        | Some c => c
        | None => 0
        end.
Proof.
  induction rows as [|r rows IH]; intros counts; simpl; [reflexivity|].
  rewrite IH. destruct (truthy_str (item_gaap r)) eqn:T; simpl; [|reflexivity].
  destruct (opt_str_eqb (item_gaap r) (Some g)) eqn:E; simpl.
  - apply opt_str_eqb_eq in E. rewrite E. simpl. rewrite get_set_same. lia.
  - rewrite get_set_other; [reflexivity|].
    intros ->. destruct (item_gaap r) as [s|]; [|discriminate]. simpl in E.
    rewrite String.eqb_refl in E. discriminate.
Qed.

Lemma counts_nodup (rows : list Row) :
  forall counts : Dict.t nat,
    NoDup (Dict.keys counts) ->
    NoDup (Dict.keys
             (fold_left (fun counts (r : Row) =>
                           if truthy_str (item_gaap r) then
                             let g := str_or_empty (item_gaap r) in
                             Dict.set g (S (match Dict.get g counts with
                                            | Some c => c
                                            | None => 0
                                            end)) counts
                           else counts) rows counts)).
Proof.
  induction rows as [|r rows IH]; intros counts N; simpl; [exact N|].
  apply IH. destruct (truthy_str (item_gaap r)); [apply set_nodup|]; exact N.
Qed.

Lemma truthy_tag_filter (rows : list Row) (g : string) :
  filter (fun r : Row => truthy_str (item_gaap r)
                         && opt_str_eqb (item_gaap r) (Some g)) rows
  = if String.eqb g "" then []
    else filter (fun r : Row => opt_str_eqb (item_gaap r) (Some g)) rows.
Proof.
  destruct (String.eqb g "") eqn:E.
  - apply String.eqb_eq in E. subst g.
    induction rows as [|r rows IH]; simpl; [reflexivity|].
    destruct (item_gaap r) as [s|]; simpl; [|exact IH].
    destruct (String.eqb s "") eqn:E; simpl; exact IH.
  - apply filter_ext. intros r.
    destruct (item_gaap r) as [s|]; simpl; [|reflexivity].
    destruct (String.eqb s g) eqn:E'; [|apply andb_false_r].
    apply String.eqb_eq in E'. subst s. rewrite E. reflexivity.
Qed.

(** X6: a tag is reported as colliding exactly when it is non-empty and at
    least two rows of the section carry it; no tag is reported twice. *)
Theorem detect_gaap_collisions_spec (section_rows : list Row) (g : string) :
  (In g (detect_gaap_collisions section_rows)
   <-> g <> ""
       /\ 2 <= List.length (filter (fun r : Row => opt_str_eqb (item_gaap r) (Some g))
                                   section_rows))
  /\ NoDup (detect_gaap_collisions section_rows).
Proof.
  unfold detect_gaap_collisions.
  match goal with
  | |- context [fold_left ?f section_rows []] =>
      set (counts := fold_left f section_rows [])
  end.
  assert (N : NoDup (Dict.keys counts)).
  { apply counts_nodup. constructor. }
  assert (C : match Dict.get g counts with Some c => c | None => 0 end
              = List.length (filter (fun r : Row => truthy_str (item_gaap r)
                                        && opt_str_eqb (item_gaap r) (Some g))
                                    section_rows)).
  { etransitivity; [apply (counts_fold section_rows g [])|]. simpl. lia. }
  pose proof (truthy_tag_filter section_rows g) as F.
  rewrite F in C. split; [|exact (nodup_keys_filter nat _ counts N)].
  rewrite in_map_iff. split.
  - intros ((g0 & c) & E0 & H). simpl in E0. subst g0.
    apply filter_In in H. destruct H as [H L]. simpl in L. apply Nat.ltb_lt in L.
    rewrite (get_nodup_in _ _ _ _ N H) in C.
    destruct (String.eqb g "") eqn:E; [simpl in C; lia|].
    apply String.eqb_neq in E. split; [exact E | lia].
  - intros [Hg L]. apply String.eqb_neq in Hg. rewrite Hg in C.
    destruct (Dict.get g counts) as [c|] eqn:G; [|lia].
    exists (g, c). split; [reflexivity|]. apply filter_In. split.
    + apply get_some_in. exact G.
    + simpl. apply Nat.ltb_lt. lia.
Qed.

(** *** The matcher *)

Lemma dict_eqb_incl (d1 d2 : Dict.t (option string)) :
  Matcher.dict_eqb d1 d2 = true ->
  List.length d1 = List.length d2
  /\ forall k v, In (k, v) d1 ->
       exists w, Dict.get k d2 = Some w /\ opt_str_eqb v w = true.
Proof.
  unfold Matcher.dict_eqb. intros H. apply andb_true_iff in H. destruct H as [L F].
  apply Nat.eqb_eq in L. split; [exact L|].
  intros k v I. rewrite forallb_forall in F. specialize (F (k, v) I). simpl in F.
  destruct (Dict.get k d2) as [w|]; [|discriminate]. exists w. split; [reflexivity|exact F].
Qed.

Lemma dict_eqb_swap (d1 d2 : Dict.t (option string)) :
  NoDup (Dict.keys d1) -> NoDup (Dict.keys d2) ->
  Matcher.dict_eqb d1 d2 = true -> Matcher.dict_eqb d2 d1 = true.
Proof.
  intros N1 N2 H. destruct (dict_eqb_incl d1 d2 H) as [L F].
  assert (I12 : incl (Dict.keys d1) (Dict.keys d2)).
  { intros k Hk. apply in_map_iff in Hk. destruct Hk as ([k0 v] & E & Hk). simpl in E.
    subst k0. destruct (F k v Hk) as (w & G & _).
    apply get_some_in in G. apply (in_map fst) in G. exact G. }
  assert (I21 : incl (Dict.keys d2) (Dict.keys d1)).
  { apply NoDup_length_incl; [exact N1 | | exact I12].
    unfold Dict.keys. rewrite !length_map. lia. }
  unfold Matcher.dict_eqb. apply andb_true_iff. split; [apply Nat.eqb_eq; lia|].
  apply forallb_forall. intros [k w] Hw. simpl.
  assert (Hk : In k (Dict.keys d1)) by (apply I21; apply (in_map fst _ _ Hw)).
  apply in_map_iff in Hk. destruct Hk as ([k0 v] & E & Hv). simpl in E. subst k0.
  destruct (F k v Hv) as (w' & G & Q).
  rewrite (get_nodup_in _ _ _ _ N2 Hw) in G. inversion G; subst w'.
  rewrite (get_nodup_in _ _ _ _ N1 Hv).
  unfold Matcher.opt_eqb. rewrite opt_str_eqb_sym. exact Q.
Qed.

Lemma kept_values_nodup (overlap_years : list string) (item : Payload) :
  NoDup (Dict.keys (values item)) ->
  NoDup (Dict.keys (Matcher.kept_values overlap_years item)).
Proof.
  unfold Matcher.kept_values. induction (values item) as [|[y v] l IH]; simpl; intros N;
    [constructor|].
  inversion N as [|? ? Hn Nd]; subst.
  destruct (in_strs y overlap_years && negb (is_blank (extract_value v))); simpl;
    [|apply IH; exact Nd].
  constructor; [|apply IH; exact Nd].
  intros H. apply Hn. clear -H. induction l as [|[y' v'] l IH]; simpl in *; [exact H|].
  destruct (in_strs y' overlap_years && negb (is_blank (extract_value v'))); simpl in H.
  - destruct H as [H|H]; [left; exact H | right; apply IH; exact H].
  - right. apply IH. exact H.
Qed.

Lemma keys_map_snd (A B : Type) (f : A -> B) (d : Dict.t A) :
  Dict.keys (map (fun yv : string * A => (fst yv, f (snd yv))) d) = Dict.keys d.
Proof. unfold Dict.keys. rewrite map_map. reflexivity. Qed.

Lemma value_tier_sym (overlap_years : list string) (a b : Payload) :
  NoDup (Dict.keys (values a)) -> NoDup (Dict.keys (values b)) ->
  Matcher.value_tier overlap_years a b = Matcher.value_tier overlap_years b a.
Proof.
  intros Na Nb. unfold Matcher.value_tier.
  set (oy := map normalize_year_key overlap_years).
  set (da := map (fun yv : string * scalar => (fst yv, Matcher.normalize_value (snd yv)))
                 (Matcher.kept_values oy a)).
  set (db := map (fun yv : string * scalar => (fst yv, Matcher.normalize_value (snd yv)))
                 (Matcher.kept_values oy b)).
  assert (Nda : NoDup (Dict.keys da)).
  { unfold da. rewrite keys_map_snd. apply kept_values_nodup. exact Na. }
  assert (Ndb : NoDup (Dict.keys db)).
  { unfold db. rewrite keys_map_snd. apply kept_values_nodup. exact Nb. }
  assert (E : Matcher.dict_eqb da db = Matcher.dict_eqb db da).
  { destruct (Matcher.dict_eqb da db) eqn:A.
    - symmetry. apply dict_eqb_swap; assumption.
    - destruct (Matcher.dict_eqb db da) eqn:B; [|reflexivity].
      rewrite (dict_eqb_swap db da Ndb Nda B) in A. discriminate. }
  rewrite E.
  destruct (Nat.eqb (List.length da) 0), (Nat.eqb (List.length db) 0); reflexivity.
Qed.

Lemma gaap_tier_sym (ignore_gaap : bool) (a b : Payload) :
  Matcher.gaap_tier ignore_gaap a b = Matcher.gaap_tier ignore_gaap b a.
Proof.
  unfold Matcher.gaap_tier. destruct ignore_gaap; [reflexivity|]. simpl.
  rewrite (opt_str_eqb_sym (item_gaap b)).
  destruct (opt_str_eqb (item_gaap a) (item_gaap b)) eqn:E.
  - apply opt_str_eqb_eq in E. rewrite E. reflexivity.
  - rewrite !andb_false_r. reflexivity.
Qed.

(** X7: the matcher is symmetric: which of two items is the candidate and
    which the catalog entry does not change the verdict. *)
Theorem match_line_items_symmetric (item1 item2 : Payload)
  (overlap_years : list string) (ignore_gaap : bool) :
  NoDup (Dict.keys (values item1)) -> NoDup (Dict.keys (values item2)) ->
  match_line_items item1 item2 overlap_years ignore_gaap
  = match_line_items item2 item1 overlap_years ignore_gaap.
Proof.
  intros N1 N2. unfold match_line_items.
  rewrite (gaap_tier_sym ignore_gaap item1 item2),
          (value_tier_sym overlap_years item1 item2 N1 N2).
  unfold Matcher.label_tier.
  rewrite (String.eqb_sym (normalize_label (item_label item1))).
  reflexivity.
Qed.

Lemma match_line_items_symmetric_witness :
  match_line_items Samples.cash_tagged Samples.cash_plain ["2023"] false
  = match_line_items Samples.cash_plain Samples.cash_tagged ["2023"] false.
Proof.
  apply match_line_items_symmetric; repeat constructor; simpl; intuition discriminate.
Defined.

Lemma kept_values_blank (overlap_years : list string) (item : Payload) :
  (forall y v, In (y, v) (values item) -> is_blank (extract_value v) = true) ->
  Matcher.kept_values overlap_years item = [].
Proof.
  unfold Matcher.kept_values. induction (values item) as [|[y v] l IH]; simpl; intros H;
    [reflexivity|].
  rewrite (H y v (or_introl eq_refl)), andb_false_r. simpl.
  apply IH. intros y' v' I. apply (H y' v'). right. exact I.
Qed.

(** X8: values that are all blank (zero, [None], the empty string or ["0"])
    never make two items match: when either item has only blank values, the
    verdict is that of the tag tier and the label tier alone. *)
Theorem blank_values_never_match (item1 item2 : Payload)
  (overlap_years : list string) (ignore_gaap : bool) :
  (forall y v, In (y, v) (values item1) -> is_blank (extract_value v) = true)
  \/ (forall y v, In (y, v) (values item2) -> is_blank (extract_value v) = true) ->
  Matcher.value_tier overlap_years item1 item2 = false
  /\ match_line_items item1 item2 overlap_years ignore_gaap
     = Matcher.gaap_tier ignore_gaap item1 item2 || Matcher.label_tier item1 item2.
Proof.
  intros H.
  assert (V : Matcher.value_tier overlap_years item1 item2 = false).
  { unfold Matcher.value_tier. destruct H as [H|H].
    - rewrite (kept_values_blank _ item1 H). reflexivity.
    - rewrite (kept_values_blank _ item2 H). simpl. rewrite andb_false_r. reflexivity. }
  split; [exact V|]. unfold match_line_items. rewrite V.
  destruct (Matcher.gaap_tier ignore_gaap item1 item2),
           (Matcher.label_tier item1 item2); reflexivity.
Qed.

Lemma blank_values_never_match_witness :
  Matcher.value_tier ["2023"; "2022"] Samples.blank_line Samples.cash_plain = false
  /\ match_line_items Samples.blank_line Samples.cash_plain ["2023"; "2022"] false
     = Matcher.gaap_tier false Samples.blank_line Samples.cash_plain
       || Matcher.label_tier Samples.blank_line Samples.cash_plain.
Proof.
  apply blank_values_never_match. left.
  intros y v [H|[H|[]]]; inversion H; reflexivity.
Defined.

(** ** The greedy aligners *)

Lemma first_sections_nodup (A : Type) (view : A -> Payload) (l : list A) :
  NoDup (Dict.keys (first_sections view l)).
Proof.
  rewrite first_sections_fold.
  pose proof (first_sections_groups_gen A view l []) as G. simpl in G.
  rewrite G by (intros k g []).
  rewrite rep_keys. apply group_fold_nodup. constructor.
Qed.

Lemma first_free_section_some (unified_secs : Dict.t (option string * option string))
  (used : list string) (cg cl : option string) (t : string) :
  first_free_section unified_secs used cg cl = Some t ->
  in_strs t used = false
  /\ exists ug ul, In (t, (ug, ul)) unified_secs /\ _same_section_gate ug ul cg cl = true.
Proof.
  induction unified_secs as [|[sk [ug ul]] rest IH]; simpl; [discriminate|].
  destruct (in_strs sk used) eqn:U.
  - intros H. destruct (IH H) as [N (ug' & ul' & I & G)].
    split; [exact N|]. exists ug', ul'. auto.
  - destruct (_same_section_gate ug ul cg cl) eqn:G.
    + intros H. inversion H; subst t. split; [exact U|]. exists ug, ul. auto.
    + intros H. destruct (IH H) as [N (ug' & ul' & I & G')].
      split; [exact N|]. exists ug', ul'. auto.
Qed.

Lemma first_free_section_none (unified_secs : Dict.t (option string * option string))
  (used : list string) (cg cl : option string) :
  first_free_section unified_secs used cg cl = None ->
  forall t ug ul, In (t, (ug, ul)) unified_secs ->
                  _same_section_gate ug ul cg cl = true -> in_strs t used = true.
Proof.
  induction unified_secs as [|[sk [ug ul]] rest IH]; simpl; [intros _ t ug ul []|].
  destruct (in_strs sk used) eqn:U.
  - intros H t ug' ul' [I|I] G; [inversion I; subst; exact U | eapply IH; eauto].
  - destruct (_same_section_gate ug ul cg cl) eqn:G0; [discriminate|].
    intros H t ug' ul' [I|I] G; [inversion I; subst; congruence | eapply IH; eauto].
Qed.

Section GreedySections.
Variable unified_secs : Dict.t (option string * option string).
Variable cand_secs : Dict.t (option string * option string).
Hypothesis cand_nodup : NoDup (Dict.keys cand_secs).

(** What the greedy pass keeps true of the targets it has used and of the
    map it has built so far. *)
Let invariant (st : list string * Dict.t (option string)) : Prop :=
  (forall t, In t (fst st) <-> exists c, Dict.get c (snd st) = Some (Some t))
  /\ (forall c1 c2 t, Dict.get c1 (snd st) = Some (Some t) ->
                      Dict.get c2 (snd st) = Some (Some t) -> c1 = c2)
  /\ (forall c t, Dict.get c (snd st) = Some (Some t) ->
        exists ug ul cg cl,
          In (t, (ug, ul)) unified_secs /\ In (c, (cg, cl)) cand_secs
          /\ _same_section_gate ug ul cg cl = true)
  /\ (forall c cg cl, Dict.get c (snd st) = Some None -> In (c, (cg, cl)) cand_secs ->
        forall t ug ul, In (t, (ug, ul)) unified_secs ->
                        _same_section_gate ug ul cg cl = true -> In t (fst st)).

Lemma greedy_section_invariant (l : Dict.t (option string * option string)) :
  forall st,
    incl l cand_secs ->
    NoDup (Dict.keys (snd st) ++ Dict.keys l) ->
    invariant st ->
    invariant (fold_left (greedy_section_step unified_secs) l st)
    /\ Dict.keys (snd (fold_left (greedy_section_step unified_secs) l st))
       = Dict.keys (snd st) ++ Dict.keys l.
Proof.
  induction l as [|[c [cg cl]] l IH]; intros [used m] Hin N Inv; simpl.
  - split; [exact Inv|]. rewrite app_nil_r. reflexivity.
  - simpl in N.
    assert (Hc : ~ In c (Dict.keys m)).
    { intros H. apply NoDup_remove_2 in N. apply N. apply in_or_app. left. exact H. }
    assert (Gc : Dict.get c m = None) by (apply get_none_keys; exact Hc).
    assert (Ic : In (c, (cg, cl)) cand_secs) by (apply Hin; left; reflexivity).
    destruct Inv as (I1 & I2 & I3 & I4). simpl in I1, I2, I3, I4.
    unfold greedy_section_step at 2. simpl fst. simpl snd.
    set (match_sk_u := first_free_section unified_secs used cg cl).
    assert (K : Dict.keys (Dict.set c match_sk_u m) = Dict.keys m ++ [c]).
    { rewrite (set_fresh _ m c match_sk_u Hc). unfold Dict.keys. rewrite map_app.
      reflexivity. }
    assert (G : forall c', Dict.get c' (Dict.set c match_sk_u m)
                           = if String.eqb c c' then Some match_sk_u else Dict.get c' m).
    { intros c'. destruct (String.eqb c c') eqn:E.
      - apply String.eqb_eq in E. subst c'. apply get_set_same.
      - apply get_set_other. apply String.eqb_neq in E. congruence. }
    match goal with
    | |- context [fold_left _ l ?s] =>
        destruct (IH s) as [Inv' K']
    end.
    + intros x Hx. apply Hin. right. exact Hx.
    + simpl snd. rewrite K, <- app_assoc. simpl.
      exact N.
    + unfold invariant. simpl fst. simpl snd.
      destruct (first_free_section unified_secs used cg cl) as [sk|] eqn:F;
        subst match_sk_u.
      * destruct (first_free_section_some _ _ _ _ _ F) as [U (ug & ul & Iu & Gt)].
        assert (Nu : ~ In sk used).
        { intros H. apply in_strs_In in H. congruence. }
        repeat split.
        -- intros [H|H].
           ++ subst t. exists c. rewrite G, String.eqb_refl. reflexivity.
           ++ apply I1 in H. destruct H as [c0 H]. exists c0. rewrite G.
              destruct (String.eqb c c0) eqn:E; [|exact H].
              apply String.eqb_eq in E. subst c0. congruence.
        -- intros [c0 H]. rewrite G in H. destruct (String.eqb c c0) eqn:E.
           ++ inversion H; subst. left. reflexivity.
           ++ right. apply I1. exists c0. exact H.
        -- intros c1 c2 t H1 H2. rewrite G in H1, H2.
           destruct (String.eqb c c1) eqn:E1, (String.eqb c c2) eqn:E2.
           ++ apply String.eqb_eq in E1, E2. congruence.
           ++ inversion H1; subst t. exfalso. apply Nu. apply I1. exists c2. exact H2.
           ++ inversion H2; subst t. exfalso. apply Nu. apply I1. exists c1. exact H1.
           ++ eapply I2; eauto.
        -- intros c0 t H. rewrite G in H. destruct (String.eqb c c0) eqn:E.
           ++ apply String.eqb_eq in E. subst c0. inversion H; subst t.
              exists ug, ul, cg, cl. auto.
           ++ apply I3. exact H.
        -- intros c0 cg0 cl0 H Hc0 t ug0 ul0 Hu Hg. rewrite G in H.
           destruct (String.eqb c c0) eqn:E; [discriminate|].
           right. eapply I4; eauto.
      * pose proof (first_free_section_none _ _ _ _ F) as Fn.
        repeat split.
        -- intros H. apply I1 in H. destruct H as [c0 H]. exists c0. rewrite G.
           destruct (String.eqb c c0) eqn:E; [|exact H].
           apply String.eqb_eq in E. subst c0. congruence.
        -- intros [c0 H]. rewrite G in H. destruct (String.eqb c c0) eqn:E;
             [discriminate|]. apply I1. exists c0. exact H.
        -- intros c1 c2 t H1 H2. rewrite G in H1, H2.
           destruct (String.eqb c c1) eqn:E1; [discriminate|].
           destruct (String.eqb c c2) eqn:E2; [discriminate|].
           eapply I2; eauto.
        -- intros c0 t H. rewrite G in H. destruct (String.eqb c c0) eqn:E;
             [discriminate|]. apply I3. exact H.
        -- intros c0 cg0 cl0 H Hc0 t ug0 ul0 Hu Hg. rewrite G in H.
           destruct (String.eqb c c0) eqn:E.
           ++ apply String.eqb_eq in E. subst c0.
              pose proof (get_nodup_in _ _ _ _ cand_nodup Ic) as A.
              pose proof (get_nodup_in _ _ _ _ cand_nodup Hc0) as B.
              rewrite A in B. inversion B; subst cg0 cl0.
              apply in_strs_In. eapply Fn; eauto.
           ++ eapply I4; eauto.
    + split; [exact Inv'|]. etransitivity; [exact K'|].
      simpl snd. rewrite K, <- app_assoc. reflexivity.
Qed.
End GreedySections.

Lemma greedy_section_map_facts (unified : Catalog) (rows : list Row) :
  let m := _build_greedy_section_map unified rows in
  let unified_secs := _list_unified_sections unified in
  let cand_secs := _candidate_sections_in_order rows in
  Dict.keys m = Dict.keys cand_secs
  /\ (forall c1 c2 t, Dict.get c1 m = Some (Some t) ->
                      Dict.get c2 m = Some (Some t) -> c1 = c2)
  /\ (forall c t, Dict.get c m = Some (Some t) ->
        exists ug ul cg cl,
          In (t, (ug, ul)) unified_secs /\ In (c, (cg, cl)) cand_secs
          /\ _same_section_gate ug ul cg cl = true)
  /\ (forall c cg cl, Dict.get c m = Some None -> In (c, (cg, cl)) cand_secs ->
        forall t ug ul, In (t, (ug, ul)) unified_secs ->
                        _same_section_gate ug ul cg cl = true ->
                        exists c', Dict.get c' m = Some (Some t)).
Proof.
  intros m unified_secs cand_secs.
  assert (N : NoDup (Dict.keys cand_secs)) by apply first_sections_nodup.
  destruct (greedy_section_invariant unified_secs cand_secs N cand_secs ([], []))
    as [(I1 & I2 & I3 & I4) K].
  - apply incl_refl.
  - exact N.
  - repeat split.
    + intros [].
    + intros [c H]. discriminate.
    + intros c1 c2 t H. discriminate.
    + intros c t H. discriminate.
    + intros c cg cl H. discriminate.
  - split; [exact K|]. split; [exact I2|]. split; [exact I3|].
    intros c cg cl H Hc t ug ul Hu Hg. apply I1. eapply I4; eauto.
Qed.

(** X9: the greedy section map gives every candidate section of the filing
    a verdict, in order of first appearance; no catalog section is the
    target of two candidate sections; and a candidate is only bound to a
    catalog section that shares its tag or its normalised label. *)
Theorem greedy_section_map_one_to_one (unified : Catalog) (rows : list Row) :
  let m := _build_greedy_section_map unified rows in
  Dict.keys m = Dict.keys (_candidate_sections_in_order rows)
  /\ (forall c1 c2 t, Dict.get c1 m = Some (Some t) ->
                      Dict.get c2 m = Some (Some t) -> c1 = c2)
  /\ (forall c t, Dict.get c m = Some (Some t) ->
        exists ug ul cg cl,
          Dict.get t (_list_unified_sections unified) = Some (ug, ul)
          /\ Dict.get c (_candidate_sections_in_order rows) = Some (cg, cl)
          /\ _same_section_gate ug ul cg cl = true).
Proof.
  destruct (greedy_section_map_facts unified rows) as (K & I2 & I3 & _).
  split; [exact K|]. split; [exact I2|].
  intros c t H. destruct (I3 c t H) as (ug & ul & cg & cl & Hu & Hc & G).
  exists ug, ul, cg, cl. split; [|split; [|exact G]].
  - apply get_nodup_in; [apply first_sections_nodup | exact Hu].
  - apply get_nodup_in; [apply first_sections_nodup | exact Hc].
Qed.

(** X10: a candidate section is left unbound only when every catalog
    section that shares its tag or its normalised label is already the
    target of another candidate section. *)
Theorem greedy_section_map_unbound (unified : Catalog) (rows : list Row)
  (c : string) (cg cl : option string) (t : string) (ug ul : option string) :
  Dict.get c (_build_greedy_section_map unified rows) = Some None ->
  Dict.get c (_candidate_sections_in_order rows) = Some (cg, cl) ->
  Dict.get t (_list_unified_sections unified) = Some (ug, ul) ->
  _same_section_gate ug ul cg cl = true ->
  exists c', c' <> c
             /\ Dict.get c' (_build_greedy_section_map unified rows) = Some (Some t).
Proof.
  intros H Hc Hu G.
  destruct (greedy_section_map_facts unified rows) as (_ & _ & _ & I4).
  destruct (I4 c cg cl H (get_some_in _ _ _ _ Hc) t ug ul (get_some_in _ _ _ _ Hu) G)
    as [c' H'].
  exists c'. split; [|exact H']. intros ->. congruence.
Qed.

Lemma greedy_section_map_unbound_witness :
  exists c', c' <> "us-gaap_AssetsAbstract"
             /\ Dict.get c' (_build_greedy_section_map Samples.assets_catalog
                                                        Samples.twin_sections)
                = Some (Some "assets").
Proof.
  apply (greedy_section_map_unbound Samples.assets_catalog Samples.twin_sections
           "us-gaap_AssetsAbstract" (Some "us-gaap_AssetsAbstract") (Some "Assets")
           "assets" None (Some "Assets")); reflexivity.
Defined.

(** *** Items *)

Lemma first_free_item_some (existing_pool : list (string * Payload))
  (used_keys : list string) (cand : Row) (ignore_gaap : bool) (key : string) :
  first_free_item existing_pool used_keys cand ignore_gaap = Some key ->
  in_strs key used_keys = false
  /\ exists ex, In (key, ex) existing_pool
                /\ match_line_items cand ex (overlap_of cand ex) ignore_gaap = true.
Proof.
  induction existing_pool as [|[k ex] rest IH]; simpl; [discriminate|].
  destruct (in_strs k used_keys) eqn:U.
  - intros H. destruct (IH H) as [N (ex' & I & M)]. split; [exact N|]. exists ex'. auto.
  - destruct (match_line_items cand ex (overlap_of cand ex) ignore_gaap) eqn:M.
    + intros H. inversion H; subst key. split; [exact U|]. exists ex. auto.
    + intros H. destruct (IH H) as [N (ex' & I & M')]. split; [exact N|].
      exists ex'. auto.
Qed.

Lemma first_free_item_none (existing_pool : list (string * Payload))
  (used_keys : list string) (cand : Row) (ignore_gaap : bool) :
  first_free_item existing_pool used_keys cand ignore_gaap = None ->
  forall key ex, In (key, ex) existing_pool ->
                 match_line_items cand ex (overlap_of cand ex) ignore_gaap = true ->
                 in_strs key used_keys = true.
Proof.
  induction existing_pool as [|[k ex] rest IH]; simpl; [intros _ key ex []|].
  destruct (in_strs k used_keys) eqn:U.
  - intros H key ex' [I|I] M; [inversion I; subst; exact U | eapply IH; eauto].
  - destruct (match_line_items cand ex (overlap_of cand ex) ignore_gaap) eqn:M0;
      [discriminate|].
    intros H key ex' [I|I] M; [inversion I; subst; congruence | eapply IH; eauto].
Qed.

Lemma enumerate_indices (A : Type) (l : list A) :
  forall n, map fst (combine (seq n (List.length l)) l) = seq n (List.length l).
Proof.
  induction l as [|x l IH]; intros n; simpl; [reflexivity|]. rewrite IH. reflexivity.
Qed.

Lemma enumerate_nth (A : Type) (l : list A) (i : nat) (x : A) :
  In (i, x) (enumerate l) <-> nth_error l i = Some x.
Proof.
  unfold enumerate.
  assert (G : forall n, In (i, x) (combine (seq n (List.length l)) l)
                        <-> n <= i /\ nth_error l (i - n) = Some x).
  { induction l as [|y l IH]; intros n; simpl.
    - split; [intros [] | intros [_ H]; destruct (i - n); discriminate].
    - rewrite IH. split.
      + intros [H|[H1 H2]].
        * inversion H; subst. rewrite Nat.sub_diag. split; [lia | reflexivity].
        * split; [lia|]. replace (i - n) with (S (i - S n)) by lia. exact H2.
      + intros [H1 H2]. destruct (i - n) as [|j] eqn:E.
        * left. inversion H2; subst. f_equal. lia.
        * right. split; [lia|]. replace (i - S n) with j by lia. exact H2. }
  rewrite G, Nat.sub_0_r. split; [tauto | intros H; split; [lia | exact H]].
Qed.

Section GreedyItems.
Variable existing_pool : list (string * Payload).
Variable collision_gaaps : list string.
Variable all_rows : list (nat * Row).
Hypothesis indices_nodup : NoDup (map fst all_rows).

Let pinned (st : list string * list (nat * string)) : Prop :=
  NoDup (fst st)
  /\ map snd (snd st) = rev (fst st)
  /\ (forall i k, In (i, k) (snd st) ->
        exists cand ex,
          In (i, cand) all_rows /\ In (k, ex) existing_pool
          /\ match_line_items cand ex (overlap_of cand ex)
               (in_collisions (item_gaap (cand : Row)) collision_gaaps) = true).

Lemma greedy_item_invariant (l : list (nat * Row)) :
  forall st,
    incl l all_rows ->
    NoDup (map fst (snd st) ++ map fst l) ->
    pinned st ->
    (forall i cand, In (i, cand) all_rows -> ~ In i (map fst l) ->
                    ~ In i (map fst (snd st)) ->
                    forall k ex, In (k, ex) existing_pool ->
                      match_line_items cand ex (overlap_of cand ex)
                        (in_collisions (item_gaap (cand : Row)) collision_gaaps) = true ->
                      In k (fst st)) ->
    let final := fold_left (greedy_item_step existing_pool collision_gaaps) l st in
    pinned final
    /\ NoDup (map fst (snd final))
    /\ (forall i cand, In (i, cand) all_rows -> ~ In i (map fst (snd final)) ->
                       forall k ex, In (k, ex) existing_pool ->
                         match_line_items cand ex (overlap_of cand ex)
                           (in_collisions (item_gaap (cand : Row)) collision_gaaps) = true ->
                         In k (fst final)).
Proof.
  induction l as [|[i0 c0] l IH]; intros [used m] Hin N P M; cbn [fold_left].
  - simpl in N. rewrite app_nil_r in N. split; [exact P|]. split; [exact N|].
    intros i cand Hi Hm k ex Hk Hmt.
    apply (M i cand Hi) with (ex := ex); auto.
  - simpl in N, M.
    assert (I0 : In (i0, c0) all_rows) by (apply Hin; left; reflexivity).
    destruct P as (P1 & P2 & P3). simpl in P1, P2, P3.
    destruct (first_free_item existing_pool used c0
                (in_collisions (item_gaap c0) collision_gaaps)) as [key|] eqn:F.
    + destruct (first_free_item_some _ _ _ _ _ F) as [U (ex & Ie & Mt)].
      assert (Nu : ~ In key used) by (intros H; apply in_strs_In in H; congruence).
      assert (S : greedy_item_step existing_pool collision_gaaps (used, m) (i0, c0)
                  = (key :: used, m ++ [(i0, key)])).
      { unfold greedy_item_step. simpl fst. simpl snd. rewrite F. reflexivity. }
      rewrite S. apply IH.
      * intros x Hx. apply Hin. right. exact Hx.
      * simpl snd. rewrite map_app, <- app_assoc. exact N.
      * repeat split; simpl fst; simpl snd.
        -- constructor; assumption.
        -- rewrite map_app, P2. reflexivity.
        -- intros i k H. apply in_app_or in H. destruct H as [H|[H|[]]].
           ++ apply P3. exact H.
           ++ inversion H; subst i k. exists c0, ex. auto.
      * simpl fst. simpl snd. intros i cand Hi Hl Hm k ex' Hk Hmt. right.
        apply (M i cand Hi) with (ex := ex'); auto.
        -- intros [E|E]; [|contradiction]. subst i0. apply Hm.
           rewrite map_app. apply in_or_app. right. left. reflexivity.
        -- intros E. apply Hm. rewrite map_app. apply in_or_app. left. exact E.
    + pose proof (first_free_item_none _ _ _ _ F) as Fn.
      assert (S : greedy_item_step existing_pool collision_gaaps (used, m) (i0, c0)
                  = (used, m)).
      { unfold greedy_item_step. simpl fst. simpl snd. rewrite F. reflexivity. }
      rewrite S. apply IH.
      * intros x Hx. apply Hin. right. exact Hx.
      * simpl snd. apply NoDup_remove_1 in N. exact N.
      * repeat split; assumption.
      * simpl fst. simpl snd. intros i cand Hi Hl Hm k ex' Hk Hmt.
        destruct (Nat.eq_dec i i0) as [E|E].
        -- subst i0. assert (cand = c0).
           { clear -indices_nodup Hi I0. induction all_rows as [|[j r] rest IHr];
               [contradiction|].
             simpl in indices_nodup. inversion indices_nodup as [|? ? Hn Nd]; subst.
             destruct Hi as [Hi|Hi], I0 as [H0|H0].
             - congruence.
             - inversion Hi; subst. exfalso. apply Hn. apply (in_map fst _ _ H0).
             - inversion H0; subst. exfalso. apply Hn. apply (in_map fst _ _ Hi).
             - apply IHr; assumption. }
           subst cand. apply in_strs_In. eapply Fn; eauto.
        -- apply (M i cand Hi) with (ex := ex'); auto.
           intros [E'|E']; [congruence | contradiction].
Qed.
End GreedyItems.

Lemma greedy_item_map_facts (unified : Catalog) (allowed : string)
  (section_rows : list Row) (collision_gaaps : list string) :
  let m := _build_greedy_item_map unified (Some allowed) section_rows collision_gaaps in
  NoDup (map fst m) /\ NoDup (map snd m)
  /\ (forall i k, In (i, k) m ->
        exists (cand : Row) ex,
          nth_error section_rows i = Some cand /\ In (k, ex) unified
          /\ sec_key_of ex = allowed
          /\ match_line_items cand ex (overlap_of cand ex)
               (in_collisions (item_gaap cand) collision_gaaps) = true)
  /\ (forall i (cand : Row), nth_error section_rows i = Some cand ->
        ~ In i (map fst m) ->
        forall k ex, In (k, ex) unified -> sec_key_of ex = allowed ->
          match_line_items cand ex (overlap_of cand ex)
            (in_collisions (item_gaap cand) collision_gaaps) = true ->
          exists j, j <> i /\ In (j, k) m).
Proof.
  intros m. unfold _build_greedy_item_map in m.
  set (pool := filter (fun kex : string * Payload =>
                         String.eqb (sec_key_of (snd kex)) allowed) unified) in m.
  assert (Nall : NoDup (map fst (enumerate section_rows))).
  { unfold enumerate. rewrite enumerate_indices. apply seq_NoDup. }
  destruct (greedy_item_invariant pool collision_gaaps (enumerate section_rows) Nall
              (enumerate section_rows) ([], []))
    as ((P1 & P2 & P3) & N & M).
  - apply incl_refl.
  - exact Nall.
  - repeat split; [constructor | intros i k []].
  - intros i cand Hi Hn. contradiction Hn. apply (in_map fst _ _ Hi).
  - fold m in P2, P3, N, M.
    split; [exact N|]. split.
    { rewrite P2. apply NoDup_rev. exact P1. }
    split.
    + intros i k H. destruct (P3 i k H) as (cand & ex & Hc & He & Mt).
      exists cand, ex. apply enumerate_nth in Hc. apply filter_In in He.
      destruct He as [He Hs]. simpl in Hs. apply String.eqb_eq in Hs. auto.
    + intros i cand Hi Hn k ex Hk Hs Mt.
      assert (U : In k (rev (fst (fold_left (greedy_item_step pool collision_gaaps)
                                            (enumerate section_rows) ([], []))))).
      { apply -> in_rev. apply (M i cand) with (ex := ex); auto.
        - apply enumerate_nth. exact Hi.
        - apply filter_In. split; [exact Hk|]. simpl. apply String.eqb_eq. exact Hs. }
      rewrite <- P2 in U. apply in_map_iff in U. destruct U as ([j k'] & E & Hj).
      simpl in E. subst k'. exists j. split; [|exact Hj].
      intros ->. apply Hn. apply (in_map fst _ _ Hj).
Qed.

(** X11: the greedy item map pins each row of the section to at most one
    catalog entry and each catalog entry to at most one row; a pinned entry
    lies in the allowed catalog section and matches its row; and without an
    allowed section nothing is pinned. *)
Theorem greedy_item_map_one_to_one (unified : Catalog) (allowed : string)
  (section_rows : list Row) (collision_gaaps : list string) :
  let m := _build_greedy_item_map unified (Some allowed) section_rows collision_gaaps in
  NoDup (map fst m) /\ NoDup (map snd m)
  /\ (forall i k, In (i, k) m ->
        exists (cand : Row) ex,
          nth_error section_rows i = Some cand /\ In (k, ex) unified
          /\ sec_key_of ex = allowed
          /\ match_line_items cand ex (overlap_of cand ex)
               (in_collisions (item_gaap cand) collision_gaaps) = true)
  /\ _build_greedy_item_map unified None section_rows collision_gaaps = [].
Proof.
  destruct (greedy_item_map_facts unified allowed section_rows collision_gaaps)
    as (A & B & C & _).
  repeat split; assumption.
Qed.

Lemma idx_get_none (m : list (nat * string)) (i : nat) :
  idx_get i m = None <-> ~ In i (map fst m).
Proof.
  induction m as [|[j k] m IH]; simpl; [tauto|].
  destruct (Nat.eqb j i) eqn:E.
  - apply Nat.eqb_eq in E. split; [discriminate | intros H; exfalso; apply H; auto].
  - apply Nat.eqb_neq in E. rewrite IH. tauto.
Qed.

Lemma idx_get_in (m : list (nat * string)) (i : nat) (k : string) :
  NoDup (map fst m) -> In (i, k) m -> idx_get i m = Some k.
Proof.
  induction m as [|[j k'] m IH]; simpl; intros N H; [contradiction|].
  destruct H as [H|H].
  - inversion H; subst. rewrite Nat.eqb_refl. reflexivity.
  - inversion N as [|? ? Hn Nd]; subst. destruct (Nat.eqb j i) eqn:E.
    + apply Nat.eqb_eq in E. subst j. exfalso. apply Hn. apply (in_map fst _ _ H).
    + apply IH; assumption.
Qed.

(** X12: a row is left without a pinned entry only when every entry of the
    allowed catalog section that matches it is already pinned to another
    row of the section. *)
Theorem greedy_item_map_unpinned (unified : Catalog) (allowed : string)
  (section_rows : list Row) (collision_gaaps : list string)
  (i : nat) (cand : Row) (k : string) (ex : Payload) :
  nth_error section_rows i = Some cand ->
  idx_get i (_build_greedy_item_map unified (Some allowed) section_rows collision_gaaps)
  = None ->
  In (k, ex) unified -> sec_key_of ex = allowed ->
  match_line_items cand ex (overlap_of cand ex)
    (in_collisions (item_gaap cand) collision_gaaps) = true ->
  exists j, j <> i
            /\ idx_get j (_build_greedy_item_map unified (Some allowed) section_rows
                                                 collision_gaaps) = Some k.
Proof.
  intros Hi Hn Hk Hs Mt.
  destruct (greedy_item_map_facts unified allowed section_rows collision_gaaps)
    as (A & _ & _ & D).
  apply idx_get_none in Hn.
  destruct (D i cand Hi Hn k ex Hk Hs Mt) as (j & Nj & Hj).
  exists j. split; [exact Nj|]. apply idx_get_in; assumption.
Qed.

Lemma greedy_item_map_unpinned_witness :
  exists j, j <> 1
            /\ idx_get j (_build_greedy_item_map Samples.assets_catalog (Some "assets")
                            Samples.twin_items []) = Some "cash|assets".
Proof.
  apply (greedy_item_map_unpinned Samples.assets_catalog "assets" Samples.twin_items []
           1 (Samples.row None "Assets" "Cash" None [("2023", Examples.s "9")] 1)
           "cash|assets"
           (Samples.entry None "Assets" "Cash" None [("2024", Examples.s "10")]));
    [reflexivity | reflexivity | left; reflexivity | reflexivity | reflexivity].
Defined.

(** ** Recycled section tags *)

Lemma flag_row_cases (d : Dict.t string) (r : Row) :
  let g := PyStr.strip (str_or_empty (section_gaap r)) in
  let lbl := normalize_label (Some (str_or_empty (section_label r))) in
  (flag_row d r = (d, r)
   /\ (g = "" \/ Dict.get g d = Some lbl))
  \/ (flag_row d r = (Dict.set g lbl d, r) /\ g <> "" /\ Dict.get g d = None)
  \/ (flag_row d r
      = (d, mkRow (set_section r (Some "") (section_label r)) (position r) true)
      /\ g <> "" /\ exists first, Dict.get g d = Some first /\ first <> lbl).
Proof.
  intros g lbl. unfold flag_row. fold g. fold lbl.
  destruct (String.eqb g "") eqn:E.
  - left. apply String.eqb_eq in E. auto.
  - apply String.eqb_neq in E. destruct (Dict.get g d) as [first|] eqn:G.
    + destruct (String.eqb first lbl) eqn:F.
      * apply String.eqb_eq in F. subst first. left. auto.
      * apply String.eqb_neq in F. right. right. split; [reflexivity|].
        split; [exact E|]. exists first. auto.
    + right. left. auto.
Qed.

Lemma flag_rows_labels (rows : list Row) :
  forall d : Dict.t string,
  exists d',
    (forall g l, Dict.get g d = Some l -> Dict.get g d' = Some l)
    /\ forall o : Row, In o (flag_rows d rows) ->
         PyStr.strip (str_or_empty (section_gaap o)) <> "" ->
         Dict.get (PyStr.strip (str_or_empty (section_gaap o))) d'
         = Some (normalize_label (Some (str_or_empty (section_label o)))).
Proof.
  induction rows as [|r rows IH]; intros d; simpl.
  - exists d. split; [auto | intros o []].
  - destruct (flag_row_cases d r) as [[E C]|[[E [Ng G]]|[E [Ng (first & G & Nf)]]]];
      rewrite E; simpl fst; simpl snd.
    + destruct (IH d) as (d' & Sub & L). exists d'. split; [exact Sub|].
      intros o [<-|Ho] No; [|apply L; assumption].
      destruct C as [C|C]; [contradiction|]. apply Sub. exact C.
    + destruct (IH (Dict.set (PyStr.strip (str_or_empty (section_gaap r)))
                             (normalize_label (Some (str_or_empty (section_label r)))) d))
        as (d' & Sub & L).
      exists d'. split.
      * intros g l Hg. apply Sub. rewrite get_set_other; [exact Hg|]. congruence.
      * intros o [<-|Ho] No; [|apply L; assumption]. apply Sub. apply get_set_same.
    + destruct (IH d) as (d' & Sub & L). exists d'. split; [exact Sub|].
      intros o [<-|Ho] No; [|apply L; assumption]. simpl in No. contradiction No.
      reflexivity.
Qed.

Lemma flag_rows_frame (rows : list Row) :
  forall d : Dict.t string,
    Forall2 (fun (r o : Row) =>
               item_gaap o = item_gaap r /\ item_label o = item_label r
               /\ values o = values r /\ section_label o = section_label r
               /\ position o = position r
               /\ (o = r \/ (section_gaap o = Some ""
                             /\ force_label_only o = true
                             /\ PyStr.strip (str_or_empty (section_gaap r)) <> "")))
            rows (flag_rows d rows).
Proof.
  induction rows as [|r rows IH]; intros d; simpl; constructor.
  - destruct (flag_row_cases d r) as [[E C]|[[E [Ng G]]|[E [Ng (first & G & Nf)]]]];
      rewrite E; simpl; repeat split; auto.
  - apply IH.
Qed.

Lemma flag_rows_again (rows : list Row) :
  forall d : Dict.t string,
    flag_rows d (flag_rows d rows) = flag_rows d rows.
Proof.
  induction rows as [|r rows IH]; intros d; simpl; [reflexivity|].
  destruct (flag_row_cases d r) as [[E C]|[[E [Ng G]]|[E [Ng (first & G & Nf)]]]];
    rewrite E; simpl fst; simpl snd.
  - rewrite E. simpl. rewrite IH. reflexivity.
  - rewrite E. simpl. rewrite IH. reflexivity.
  - change (flag_row d (mkRow (set_section r (Some "") (section_label r))
                              (position r) true))
      with (d, mkRow (set_section r (Some "") (section_label r)) (position r) true).
    simpl. rewrite IH. reflexivity.
Qed.

(** X13: the pass over recycled section tags changes nothing but the
    section tag of a row: a row is either left as it is or has its section
    tag blanked and is flagged; afterwards any two rows that carry the same
    section tag have the same normalised section label; and running the
    pass a second time changes nothing. *)
Theorem flag_duplicates_effect (rows : list Row) :
  let out := _flag_duplicate_section_gaaps_label_only rows in
  Forall2 (fun (r o : Row) =>
             item_gaap o = item_gaap r /\ item_label o = item_label r
             /\ values o = values r /\ section_label o = section_label r
             /\ position o = position r
             /\ (o = r \/ (section_gaap o = Some ""
                           /\ force_label_only o = true
                           /\ PyStr.strip (str_or_empty (section_gaap r)) <> "")))
          rows out
  /\ (forall o1 o2 : Row, In o1 out -> In o2 out ->
        PyStr.strip (str_or_empty (section_gaap o1)) <> "" ->
        PyStr.strip (str_or_empty (section_gaap o1))
        = PyStr.strip (str_or_empty (section_gaap o2)) ->
        normalize_label (Some (str_or_empty (section_label o1)))
        = normalize_label (Some (str_or_empty (section_label o2))))
  /\ _flag_duplicate_section_gaaps_label_only out = out.
Proof.
  split; [apply flag_rows_frame|]. split; [|apply flag_rows_again].
  intros o1 o2 H1 H2 N E.
  destruct (flag_rows_labels rows []) as (d' & _ & L).
  pose proof (L o1 H1 N) as A. pose proof (L o2 H2) as B.
  rewrite <- E in B. specialize (B N). rewrite A in B. congruence.
Qed.

(** ** Presence reconciler: what it leaves alone *)

Lemma zero_if_set_sections (p : Payload) (y : string) :
  section_gaap (Reconciler.zero_if_set p y) = section_gaap p
  /\ section_label (Reconciler.zero_if_set p y) = section_label p.
Proof.
  unfold Reconciler.zero_if_set.
  destruct (Dict.get y (values p)) as [v|]; [|now split].
  destruct (Reconciler.ne_zero v); now split.
Qed.

Lemma zero_if_set_value (p : Payload) (y P : string) :
  Dict.get P (values (Reconciler.zero_if_set p y)) = Dict.get P (values p)
  \/ Dict.get P (values (Reconciler.zero_if_set p y)) = Some zero.
Proof.
  unfold Reconciler.zero_if_set.
  destruct (Dict.get y (values p)) as [v|] eqn:G; [|left; reflexivity].
  destruct (Reconciler.ne_zero v); [|left; reflexivity]. simpl.
  destruct (String.eqb P y) eqn:E.
  - apply String.eqb_eq in E. subst y. right. apply get_set_same.
  - apply String.eqb_neq in E. left. apply get_set_other. exact E.
Qed.

(** What a pass over the period keys of one entry keeps. *)
Lemma check_fold_frame (y2a : Dict.t string) (fs : Dict.t (Dict.t (list Row)))
  (sk : string) (ks : list string) :
  forall p,
    let p' := fold_left (Reconciler.check_year y2a fs sk) ks p in
    section_gaap p' = section_gaap p /\ section_label p' = section_label p
    /\ item_gaap p' = item_gaap p /\ item_label p' = item_label p
    /\ Dict.keys (values p') = Dict.keys (values p)
    /\ forall P, Dict.get P (values p') = Dict.get P (values p)
                 \/ Dict.get P (values p') = Some zero.
Proof.
  induction ks as [|y ks IH]; intros p; simpl; [repeat split; auto|].
  destruct (IH (Reconciler.check_year y2a fs sk p y)) as (A & B & C & D & K & V).
  destruct (check_year_cases y2a fs sk p y) as [E|E]; rewrite E in *.
  - repeat split; auto.
  - destruct (zero_if_set_sections p y) as [A' B'].
    destruct (zero_if_set_fields p y) as [C' D'].
    repeat split; try congruence.
    + rewrite K. apply zero_if_set_keys.
    + intros P. destruct (V P) as [H|H]; [|right; exact H].
      rewrite H. apply zero_if_set_value.
Qed.

(** X14: the reconciler changes nothing but values, and only to [0.0]: the
    catalog it returns has the same keys in the same order, every entry
    keeps its tags, labels and period keys, and each value is either the
    stored one or [0.0]. *)
Theorem reconciler_only_zeroes (unified unified' : Catalog)
  (flat_all : Dict.t (list Row)) (years_sorted : list string) :
  zero_out_overlapping_years_for_new_items unified flat_all years_sorted = Ok unified' ->
  Forall2 (fun kp kp' : string * Payload =>
             fst kp' = fst kp
             /\ section_gaap (snd kp') = section_gaap (snd kp)
             /\ section_label (snd kp') = section_label (snd kp)
             /\ item_gaap (snd kp') = item_gaap (snd kp)
             /\ item_label (snd kp') = item_label (snd kp)
             /\ Dict.keys (values (snd kp')) = Dict.keys (values (snd kp))
             /\ forall P, Dict.get P (values (snd kp')) = Dict.get P (values (snd kp))
                          \/ Dict.get P (values (snd kp')) = Some zero)
          unified unified'.
Proof.
  unfold zero_out_overlapping_years_for_new_items, bind.
  destruct (Reconciler.year_to_authoritative_filing flat_all years_sorted) as [y2a|];
    [|discriminate].
  intros E. inversion E; subst unified'; clear E.
  induction unified as [|[k p] u IH]; simpl; constructor; [|exact IH].
  simpl. split; [reflexivity|]. unfold Reconciler.check_payload.
  apply check_fold_frame.
Qed.

Lemma reconciler_only_zeroes_witness :
  Forall2 (fun kp kp' : string * Payload =>
             fst kp' = fst kp
             /\ section_gaap (snd kp') = section_gaap (snd kp)
             /\ section_label (snd kp') = section_label (snd kp)
             /\ item_gaap (snd kp') = item_gaap (snd kp)
             /\ item_label (snd kp') = item_label (snd kp)
             /\ Dict.keys (values (snd kp')) = Dict.keys (values (snd kp))
             /\ forall P, Dict.get P (values (snd kp')) = Dict.get P (values (snd kp))
                          \/ Dict.get P (values (snd kp')) = Some zero)
          Examples.ghost_catalog
          [("a|main", mkPayload None (Some "Main") None (Some "A")
                                [("2024", Examples.s "1"); ("2023", Examples.s "2")]);
           ("b|main", mkPayload None (Some "Main") None (Some "B")
                                [("2023", zero); ("2022", Examples.s "3")])].
Proof.
  apply (reconciler_only_zeroes Examples.ghost_catalog _ Examples.ghost_rows
           ["2024"; "2023"]).
  vm_compute. reflexivity.
Defined.

(** X15: the reconciler raises exactly when one of the periods it is told
    to walk has no rows in [flat_all], and then with a [KeyError]. *)
Theorem reconciler_raises_on_missing_period (unified : Catalog)
  (flat_all : Dict.t (list Row)) (years_sorted : list string) :
  ((exists unified',
       zero_out_overlapping_years_for_new_items unified flat_all years_sorted
       = Ok unified')
   <-> forall y, In y years_sorted -> Dict.get y flat_all <> None)
  /\ forall e,
       zero_out_overlapping_years_for_new_items unified flat_all years_sorted = Raise e ->
       e = KeyError.
Proof.
  unfold zero_out_overlapping_years_for_new_items, bind,
         Reconciler.year_to_authoritative_filing.
  split; [split|].
  - intros [u' E].
    destruct (foldM (Reconciler.authoritative_step flat_all) years_sorted [])
      as [y2a|] eqn:Y; [|discriminate].
    exact (authoritative_all_present flat_all years_sorted [] y2a Y).
  - intros H. destruct (authoritative_returns flat_all years_sorted [] H) as [y2a Y].
    rewrite Y. eexists. reflexivity.
  - intros e.
    destruct (foldM (Reconciler.authoritative_step flat_all) years_sorted [])
      as [y2a|e0] eqn:Y; [discriminate|].
    intros E. inversion E; subst e0. clear E. revert Y.
    generalize (@nil (string * string)) as m0.
    induction years_sorted as [|y ys IH]; simpl; intros m0; [discriminate|].
    unfold bind. unfold Reconciler.authoritative_step at 1.
    destruct (Dict.get y flat_all) as [rows|]; [apply IH | congruence].
Qed.

Lemma check_year_other (y2a : Dict.t string) (fs : Dict.t (Dict.t (list Row)))
  (sk : string) (p : Payload) (y P : string) :
  P <> y ->
  Dict.get P (values (Reconciler.check_year y2a fs sk p y)) = Dict.get P (values p).
Proof.
  intros N. destruct (check_year_cases y2a fs sk p y) as [-> | ->];
    [reflexivity | apply zero_if_set_other; exact N].
Qed.

Lemma check_year_fields (y2a : Dict.t string) (fs : Dict.t (Dict.t (list Row)))
  (sk : string) (p : Payload) (y : string) :
  item_gaap (Reconciler.check_year y2a fs sk p y) = item_gaap p
  /\ item_label (Reconciler.check_year y2a fs sk p y) = item_label p.
Proof.
  destruct (check_year_cases y2a fs sk p y) as [-> | ->];
    [split; reflexivity | apply zero_if_set_fields].
Qed.

Lemma check_fold_keeps (y2a : Dict.t string) (fs : Dict.t (Dict.t (list Row)))
  (payload : Payload) (P : string) :
  Dict.get P y2a = None
  \/ (exists a r, Dict.get P y2a = Some a
                  /\ In r (Reconciler.auth_section_items fs a (sec_key_of payload))
                  /\ Reconciler.item_matches payload P r = true) ->
  forall ks p,
    item_gaap p = item_gaap payload -> item_label p = item_label payload ->
    Dict.get P (values p) = Dict.get P (values payload) ->
    Dict.get P (values (fold_left (Reconciler.check_year y2a fs (sec_key_of payload))
                                  ks p))
    = Dict.get P (values payload).
Proof.
  intros H. induction ks as [|y ks IH]; simpl; intros p G L V; [exact V|].
  destruct (check_year_fields y2a fs (sec_key_of payload) p y) as [G' L'].
  apply IH; try congruence.
  destruct (String.eqb P y) eqn:E.
  - apply String.eqb_eq in E. subst y. rewrite <- V. f_equal. f_equal.
    unfold Reconciler.check_year. destruct H as [H|(a & r & Ha & Hr & Hm)].
    + rewrite H. reflexivity.
    + rewrite Ha.
      assert (X : existsb (Reconciler.item_matches p P)
                          (Reconciler.auth_section_items fs a (sec_key_of payload))
                  = true).
      { apply existsb_exists. exists r. split; [exact Hr|].
        rewrite (item_matches_ext p payload P r G L V). exact Hm. }
      rewrite X.
      destruct (Reconciler.auth_section_items fs a (sec_key_of payload));
        [contradiction | reflexivity].
  - apply String.eqb_neq in E. rewrite check_year_other by exact E. exact V.
Qed.

(** X16: the reconciler keeps the value an entry holds for period key [P]
    when no period mentions [P], or when the first period, newest first,
    that mentions [P] has a row under the entry's section key that matches
    the entry by tag, by non-empty normalised label or by the value for
    [P]. *)
Theorem reconciler_keeps_confirmed
  (unified : Catalog) (flat_all : Dict.t (list Row))
  (years_sorted : list string) (key : string) (payload : Payload) (P : string) :
  (forall y, In y years_sorted -> Dict.get y flat_all <> None) ->
  In (key, payload) unified ->
  authoritative_period flat_all years_sorted P = None
  \/ (exists auth r,
        authoritative_period flat_all years_sorted P = Some auth
        /\ In r (rows_under flat_all auth (sec_key_of payload))
        /\ Reconciler.item_matches payload P r = true) ->
  exists unified' payload',
    zero_out_overlapping_years_for_new_items unified flat_all years_sorted = Ok unified'
    /\ In (key, payload') unified'
    /\ Dict.get P (values payload') = Dict.get P (values payload).
Proof.
  intros Hall Hin H.
  destruct (authoritative_returns flat_all years_sorted [] Hall) as [y2a Y].
  unfold zero_out_overlapping_years_for_new_items, bind.
  fold (Reconciler.year_to_authoritative_filing flat_all years_sorted) in Y.
  rewrite Y.
  set (fs := Reconciler.filing_sections flat_all years_sorted).
  eexists. exists (Reconciler.check_payload y2a fs payload).
  split; [reflexivity|]. split.
  - apply (in_map (fun kp => (fst kp, Reconciler.check_payload y2a fs (snd kp)))
                  unified (key, payload) Hin).
  - unfold Reconciler.check_payload.
    apply check_fold_keeps; [|reflexivity|reflexivity|reflexivity].
    rewrite (authoritative_spec flat_all years_sorted y2a P Y).
    destruct H as [H|(auth & r & Ha & Hr & Hm)]; [left; exact H|].
    right. exists auth, r. split; [exact Ha|]. split; [|exact Hm].
    assert (Hy : In auth years_sorted).
    { unfold authoritative_period in Ha. apply find_some in Ha. tauto. }
    unfold fs. rewrite auth_section_items_spec; auto.
Qed.

Lemma reconciler_keeps_confirmed_witness :
  exists unified' payload',
    zero_out_overlapping_years_for_new_items
      Examples.ghost_catalog Examples.ghost_rows ["2024"; "2023"] = Ok unified'
    /\ In ("b|main", payload') unified'
    /\ Dict.get "2022" (values payload') = Some (Examples.s "3").
Proof.
  apply (reconciler_keeps_confirmed
           Examples.ghost_catalog Examples.ghost_rows ["2024"; "2023"]
           "b|main" Examples.ghost_entry "2022").
  - intros y [<-|[<-|[]]]; discriminate.
  - right. left. reflexivity.
  - right. exists "2023".
    exists (Samples.row None "Main" "B" None
              [("2023", Examples.s "7"); ("2022", Examples.s "3")] 0).
    split; [reflexivity|]. split; [left; reflexivity | reflexivity].
Defined.

(** ** Target years and padding *)

Lemma strongly_sorted_strict (A : Type) (le : A -> A -> Prop) (l : list A) :
  StronglySorted le l -> NoDup l ->
  StronglySorted (fun a b => le a b /\ a <> b) l.
Proof.
  induction 1 as [|a l S IH F]; intros N; constructor.
  - apply IH. inversion N; assumption.
  - inversion N as [|? ? Hn Nd]; subst.
    rewrite Forall_forall in *. intros x Hx. split; [apply F; exact Hx|].
    intros ->. contradiction.
Qed.

(** X17: the target years are the period keys that occur in the rows of
    the filings, each once, in strictly ascending order. *)
Theorem target_years_sorted (flat_all : Dict.t (list Row)) :
  let target_years := _collect_all_target_years flat_all in
  StronglySorted (fun a b => str_leb a b = true /\ a <> b) target_years
  /\ NoDup target_years
  /\ forall y, In y target_years
               <-> exists filing (r : Row),
                     In filing flat_all /\ In r (snd filing)
                     /\ In y (Dict.keys (values r)).
Proof.
  intros target_years.
  assert (N : NoDup target_years).
  { unfold target_years, _collect_all_target_years, sorted_set.
    eapply Permutation_NoDup.
    - apply Permutation_sym. apply stable_sort_perm.
    - apply NoDup_nodup. }
  split; [|split; [exact N|]].
  - apply strongly_sorted_strict; [|exact N].
    unfold target_years, _collect_all_target_years, sorted_set.
    apply (stable_sort_strongly string str_leb str_leb_total str_leb_trans).
  - intros y. unfold target_years. rewrite target_years_spec.
    rewrite in_flat_map. unfold Dict.vals, Reconciler.years_in. split.
    + intros (rows & Hr & Hy). apply in_map_iff in Hr. destruct Hr as (filing & E & Hf).
      subst rows. apply in_flat_map in Hy. destruct Hy as (r & Hr & Hy).
      exists filing, r. auto.
    + intros (filing & r & Hf & Hr & Hy). exists (snd filing). split.
      * apply in_map. exact Hf.
      * apply in_flat_map. exists r. auto.
Qed.

Lemma pad_year_get (vals : Values) (t y : string) :
  Dict.get y (pad_year vals t)
  = if String.eqb y t
    then Some (match Dict.get y vals with
               | Some v => Builder.clean v
               | None => zero
               end)
    else Dict.get y vals.
Proof.
  unfold pad_year, Builder.clean. destruct (String.eqb y t) eqn:E.
  - apply String.eqb_eq in E. subst t.
    destruct (Dict.get y vals) as [v|] eqn:G.
    + destruct (is_none_cell v); [apply get_set_same | exact G].
    + apply get_set_same.
  - apply String.eqb_neq in E.
    destruct (Dict.get t vals) as [v|].
    + destruct (is_none_cell v); [apply get_set_other; exact E | reflexivity].
    + apply get_set_other. exact E.
Qed.

Lemma clean_clean (v : cell) : Builder.clean (Builder.clean v) = Builder.clean v.
Proof. unfold Builder.clean. destruct v as [[| | |]|]; reflexivity. Qed.

Lemma pad_fold_get (target_years : list string) :
  forall (vals : Values) (y : string),
    Dict.get y (fold_left pad_year target_years vals)
    = if in_strs y target_years
      then Some (match Dict.get y vals with
                 | Some v => Builder.clean v
                 | None => zero
                 end)
      else Dict.get y vals.
Proof.
  induction target_years as [|t T IH]; intros vals y; simpl; [reflexivity|].
  rewrite IH, pad_year_get.
  destruct (String.eqb y t); simpl; [|reflexivity].
  destruct (in_strs y T); [|reflexivity].
  destruct (Dict.get y vals) as [v|]; [rewrite clean_clean|]; reflexivity.
Qed.

Lemma pad_year_prefix (vals : Values) (t : string) :
  exists added, Dict.keys (pad_year vals t) = Dict.keys vals ++ added.
Proof.
  unfold pad_year. destruct (Dict.get t vals) as [v|] eqn:G.
  - exists []. rewrite app_nil_r. destruct (is_none_cell v); [|reflexivity].
    apply keys_set_present. unfold Dict.mem. rewrite G. reflexivity.
  - exists [t]. rewrite set_fresh by (apply get_none_keys; exact G).
    unfold Dict.keys. rewrite map_app. reflexivity.
Qed.

Lemma pad_fold_prefix (target_years : list string) :
  forall vals : Values,
  exists added,
    Dict.keys (fold_left pad_year target_years vals) = Dict.keys vals ++ added.
Proof.
  induction target_years as [|t T IH]; intros vals; simpl.
  - exists []. rewrite app_nil_r. reflexivity.
  - destruct (IH (pad_year vals t)) as [a1 E1].
    destruct (pad_year_prefix vals t) as [a0 E0].
    exists (a0 ++ a1). rewrite E1, E0, app_assoc. reflexivity.
Qed.

Lemma pad_fold_settled (target_years : list string) :
  forall vals : Values,
    (forall y, In y target_years ->
               exists v, Dict.get y vals = Some v /\ is_none_cell v = false) ->
    fold_left pad_year target_years vals = vals.
Proof.
  induction target_years as [|t T IH]; intros vals H; simpl; [reflexivity|].
  assert (E : pad_year vals t = vals).
  { destruct (H t (or_introl eq_refl)) as (v & G & Nn).
    unfold pad_year. rewrite G, Nn. reflexivity. }
  rewrite E. apply IH. intros y Hy. apply H. right. exact Hy.
Qed.

Lemma pad_payload_again (target_years : list string) (p : Payload) :
  pad_payload target_years (pad_payload target_years p) = pad_payload target_years p.
Proof.
  unfold pad_payload. simpl.
  rewrite (pad_fold_settled target_years
             (fold_left pad_year target_years (values p))); [reflexivity|].
  intros y Hy.
  rewrite pad_fold_get. apply in_strs_In in Hy. rewrite Hy.
  eexists. split; [reflexivity|].
  destruct (Dict.get y (values p)) as [v|]; [|reflexivity].
  unfold Builder.clean. destruct (is_none_cell v) eqn:E; [reflexivity | exact E].
Qed.

(** X18: padding a catalog keeps its keys and their order and binds, in
    every entry, every target year: to the stored value when there is one
    other than [None], to [0.0] otherwise; values for other period keys, the
    order of the period keys already there, and the tags and labels stay as
    they were.  Padding is idempotent: a second padding for the same years
    changes nothing. *)
Theorem pad_missing_years_effect (mapping : Catalog) (target_years : list string) :
  let padded := _pad_missing_years_in_mapping mapping target_years in
  Forall2 (fun kp kp' : string * Payload =>
             fst kp' = fst kp
             /\ (forall y,
                    Dict.get y (values (snd kp'))
                    = if in_strs y target_years
                      then Some (match Dict.get y (values (snd kp)) with
                                 | Some v => if is_none_cell v then zero else v
                                 | None => zero
                                 end)
                      else Dict.get y (values (snd kp)))
             /\ (exists added,
                    Dict.keys (values (snd kp'))
                    = Dict.keys (values (snd kp)) ++ added)
             /\ section_gaap (snd kp') = section_gaap (snd kp)
             /\ section_label (snd kp') = section_label (snd kp)
             /\ item_gaap (snd kp') = item_gaap (snd kp)
             /\ item_label (snd kp') = item_label (snd kp))
          mapping padded
  /\ _pad_missing_years_in_mapping padded target_years = padded.
Proof.
  cbv zeta. split.
  - unfold _pad_missing_years_in_mapping.
    induction mapping as [|[k p] m IH]; simpl; constructor; [|exact IH].
    unfold pad_payload. simpl. split; [reflexivity|].
    split; [intros y; apply pad_fold_get|].
    split; [apply pad_fold_prefix|]. repeat split.
  - unfold _pad_missing_years_in_mapping. rewrite map_map. apply map_ext.
    intros [k p]. simpl. rewrite pad_payload_again. reflexivity.
Qed.

(** ** Merging: what the catalog keeps and when the merge raises *)

Lemma foldM_outcome (S X : Type) (body : S -> X -> res S) (P : S -> Prop)
  (Q : exn -> Prop) (l : list X) :
  forall s,
    P s ->
    (forall s0 x, In x l -> P s0 -> outcome P Q (body s0 x)) ->
    outcome P Q (foldM body l s).
Proof.
  induction l as [|x l IH]; intros s Hs Hstep; simpl; [exact Hs|].
  pose proof (Hstep s x (or_introl eq_refl) Hs) as O.
  destruct (body s x) as [s1|e]; simpl in *; [|exact O].
  apply IH; [exact O|]. intros s0 x0 Hx. apply Hstep. right. exact Hx.
Qed.

Lemma outcome_weaken (A : Type) (P P' : A -> Prop) (Q : exn -> Prop) (r : res A) :
  (forall a, P a -> P' a) -> outcome P Q r -> outcome P' Q r.
Proof. intros H. destruct r; simpl; auto. Qed.

Lemma set_keys_incl (V : Type) (d : Dict.t V) (k : string) (v : V) :
  incl (Dict.keys d) (Dict.keys (Dict.set k v d)).
Proof. intros y Hy. apply keys_set. right. exact Hy. Qed.

Lemma set_keys_prefix (V : Type) (d : Dict.t V) (k : string) (v : V) :
  exists added, Dict.keys (Dict.set k v d) = Dict.keys d ++ added.
Proof.
  destruct (Dict.get k d) as [v0|] eqn:G.
  - exists []. rewrite app_nil_r. apply keys_set_present. unfold Dict.mem.
    rewrite G. reflexivity.
  - exists [k]. rewrite set_fresh by (apply get_none_keys; exact G).
    unfold Dict.keys. rewrite map_app. reflexivity.
Qed.

Lemma update_block_prefix (yr : string) (cleaning : bool) (matched_key : option string)
  (ignore_gaap : bool) (row : Row) (sec : string) (unified unified' : Catalog) :
  Builder.update_block yr cleaning matched_key ignore_gaap row sec unified = Ok unified' ->
  exists added, Dict.keys unified' = Dict.keys unified ++ added.
Proof.
  intros E. unfold Builder.update_block, Builder.create, bind in E.
  destruct matched_key as [k|].
  - destruct (String.eqb k "").
    + inversion E; subst. apply set_keys_prefix.
    + destruct (PyStr.startswith "review_needed" k).
      { inversion E; subst. exists []. rewrite app_nil_r. reflexivity. }
      destruct (Dict.get k unified) as [existing|]; [|discriminate].
      destruct (Builder.merge_values yr cleaning row (values existing)); [|discriminate].
      inversion E; subst. apply set_keys_prefix.
  - inversion E; subst. apply set_keys_prefix.
Qed.

Lemma prefix_trans (l1 l2 l3 : list string) :
  (exists a, l2 = l1 ++ a) -> (exists b, l3 = l2 ++ b) -> exists c, l3 = l1 ++ c.
Proof.
  intros [a ->] [b ->]. exists (a ++ b). rewrite app_assoc. reflexivity.
Qed.

Lemma Forall2_transitive (A : Type) (R : A -> A -> Prop) (l1 l2 l3 : list A) :
  (forall x y z, R x y -> R y z -> R x z) ->
  Forall2 R l1 l2 -> Forall2 R l2 l3 -> Forall2 R l1 l3.
Proof.
  intros T H. revert l3. induction H as [|x y l1 l2 Hxy H IH]; intros l3 H';
    inversion H'; subst; constructor; eauto.
Qed.

Lemma rewrite_step_frame (unified_by_sec : Dict.t (list Payload)) (rows : list Row)
  (entry : string * option string) :
  Forall2 (fun r r' : Row =>
             item_gaap r' = item_gaap r /\ item_label r' = item_label r
             /\ values r' = values r /\ position r' = position r
             /\ force_label_only r' = force_label_only r)
          rows (Builder.rewrite_step unified_by_sec rows entry).
Proof.
  assert (R : Forall2 (fun r r' : Row =>
                         item_gaap r' = item_gaap r /\ item_label r' = item_label r
                         /\ values r' = values r /\ position r' = position r
                         /\ force_label_only r' = force_label_only r) rows rows).
  { induction rows; constructor; auto. }
  unfold Builder.rewrite_step. destruct (snd entry) as [target_sk|]; [|exact R].
  destruct (String.eqb (fst entry) target_sk); [exact R|].
  destruct (Dict.get target_sk unified_by_sec) as [[|target ?]|]; try exact R.
  clear R. induction rows as [|r rows IH]; simpl; constructor; [|exact IH].
  destruct (String.eqb (sec_key_of r) (fst entry)); simpl; auto.
Qed.

Lemma rewrite_fold_frame (unified_by_sec : Dict.t (list Payload))
  (greedy_sec_map : Dict.t (option string)) :
  forall rows,
    Forall2 (fun r r' : Row =>
               item_gaap r' = item_gaap r /\ item_label r' = item_label r
               /\ values r' = values r /\ position r' = position r
               /\ force_label_only r' = force_label_only r)
            rows (fold_left (Builder.rewrite_step unified_by_sec) greedy_sec_map rows).
Proof.
  induction greedy_sec_map as [|e m IH]; simpl; intros rows.
  - induction rows; constructor; auto.
  - eapply Forall2_transitive; [|apply rewrite_step_frame|apply IH].
    intros x y z (a1 & a2 & a3 & a4 & a5) (b1 & b2 & b3 & b4 & b5).
    repeat split; congruence.
Qed.

(** X19: merging a filing never removes or reorders catalog entries: the
    keys of the catalog it returns start with the keys of the catalog it
    was given, new keys following; and the rows it hands back differ from
    the rows it was given in their section tag and label at most. *)
Theorem merge_filing_keeps_keys (yr : string) (unified unified' : Catalog)
  (rows rows' : list Row) :
  Builder.merge_filing yr unified rows = Ok (unified', rows') ->
  (exists added, Dict.keys unified' = Dict.keys unified ++ added)
  /\ Forall2 (fun r r' : Row =>
                item_gaap r' = item_gaap r /\ item_label r' = item_label r
                /\ values r' = values r /\ position r' = position r
                /\ force_label_only r' = force_label_only r)
             rows rows'.
Proof.
  intros E. unfold Builder.merge_filing, bind in E.
  destruct (foldM _ _ unified) as [u|] eqn:F; [|discriminate].
  inversion E; subst u rows'; clear E. split; [|apply rewrite_fold_frame].
  apply (foldM_ok_inv _ _ _ _ _ _ F
           (fun u => exists added, Dict.keys u = Dict.keys unified ++ added)).
  - exists []. rewrite app_nil_r. reflexivity.
  - intros u0 group u1 _ P0 S. unfold Builder.merge_section in S.
    apply (foldM_ok_inv _ _ _ _ _ _ S
             (fun u => exists added, Dict.keys u = Dict.keys unified ++ added));
      [exact P0|].
    intros u2 ir u3 _ P2 R. unfold Builder.merge_row, bind in R.
    destruct (Builder.confirm u2 (snd ir) _ _) as [matched_key|]; [|discriminate].
    destruct (Builder.update_block yr false matched_key _ (snd ir) (fst group) u2)
      as [u4|] eqn:B; [|discriminate].
    eapply prefix_trans; [|eapply update_block_prefix; exact R].
    eapply prefix_trans; [exact P2 | eapply update_block_prefix; exact B].
Qed.

Lemma merge_filing_keeps_keys_witness :
  exists unified' rows',
    Builder.merge_filing "2023" Samples.assets_catalog Samples.twin_sections
    = Ok (unified', rows')
    /\ (exists added, Dict.keys unified' = Dict.keys Samples.assets_catalog ++ added)
    /\ Forall2 (fun r r' : Row =>
                  item_gaap r' = item_gaap r /\ item_label r' = item_label r
                  /\ values r' = values r /\ position r' = position r
                  /\ force_label_only r' = force_label_only r)
               Samples.twin_sections rows'.
Proof.
  eexists. eexists. split; [vm_compute; reflexivity|].
  apply (merge_filing_keeps_keys "2023"). vm_compute. reflexivity.
Defined.

Lemma idx_get_some_in (m : list (nat * string)) (i : nat) (k : string) :
  idx_get i m = Some k -> In (i, k) m.
Proof.
  induction m as [|[j k'] m IH]; simpl; [discriminate|].
  destruct (Nat.eqb j i) eqn:E.
  - apply Nat.eqb_eq in E. subst j. intros H. inversion H; subst. left. reflexivity.
  - intros H. right. apply IH. exact H.
Qed.

Lemma greedy_item_map_keys (unified : Catalog) (allowed_sec_key : option string)
  (section_rows : list Row) (collision_gaaps : list string) (i : nat) (k : string) :
  In (i, k) (_build_greedy_item_map unified allowed_sec_key section_rows collision_gaaps) ->
  In k (Dict.keys unified).
Proof.
  destruct allowed_sec_key as [allowed|]; [|intros []].
  intros H.
  destruct (greedy_item_map_facts unified allowed section_rows collision_gaaps)
    as (_ & _ & C & _).
  destruct (C i k H) as (cand & ex & _ & He & _). apply (in_map fst _ _ He).
Qed.

Section MergeOutcome.
Variable yr : string.
Variable K : string -> Prop.
Variable Q : exn -> Prop.
Hypothesis newer_outcome :
  forall vals : Values,
    (forall y, In y (Dict.keys vals) -> K y) -> Dict.keys vals <> [] ->
    outcome (fun _ => True) Q (Builder.newer_than_first yr vals).

Let good (vals : Values) : Prop := forall y, In y (Dict.keys vals) -> K y.

Lemma merge_value_outcome (vals : Values) (yv : string * cell) :
  good vals -> K (fst yv) -> outcome good Q (Builder.merge_value yr vals yv).
Proof.
  intros G Ky. unfold Builder.merge_value.
  destruct (Dict.mem (fst yv) vals) eqn:M; simpl.
  - assert (Ne : Dict.keys vals <> []).
    { apply mem_keys in M. intros E. rewrite E in M. contradiction. }
    pose proof (newer_outcome vals G Ne) as O.
    destruct (Builder.newer_than_first yr vals) as [b|e]; simpl in *; [|exact O].
    destruct b; [|exact G].
    intros y Hy. apply keys_set in Hy. destruct Hy as [->|Hy]; auto.
  - intros y Hy. apply keys_set in Hy. destruct Hy as [->|Hy]; auto.
Qed.

Lemma merge_values_outcome (cleaning : bool) (row : Row) (vals : Values) :
  good vals -> good (values row) ->
  outcome good Q (Builder.merge_values yr cleaning row vals).
Proof.
  intros G R. unfold Builder.merge_values. apply foldM_outcome; [exact G|].
  intros v0 yv Hin G0. apply merge_value_outcome; [exact G0|].
  apply R. destruct cleaning.
  - apply in_map_iff in Hin. destruct Hin as ([k c] & E & Hin). subst yv. simpl.
    apply (in_map fst _ _ Hin).
  - apply (in_map fst _ _ Hin).
Qed.

Lemma create_satisfies (ignore_gaap : bool) (row : Row) (sec : string)
  (unified : Catalog) :
  good (values row) -> entry_keys_satisfy K unified ->
  entry_keys_satisfy K (Builder.create ignore_gaap row sec unified).
Proof.
  intros R G k p Hin y Hy. unfold Builder.create in Hin.
  apply in_set in Hin. destruct Hin as [Eq|Hin]; [|apply (G k p Hin y Hy)].
  inversion Eq; subst k p; clear Eq. simpl in Hy.
  unfold Dict.of_list in Hy. apply of_list_keys in Hy.
  destruct Hy as [[]|Hy]. apply R. rewrite map_map in Hy. exact Hy.
Qed.

Lemma update_block_outcome (cleaning : bool) (matched_key : option string)
  (ignore_gaap : bool) (row : Row) (sec : string) (unified : Catalog) :
  good (values row) -> entry_keys_satisfy K unified ->
  (forall k, matched_key = Some k -> In k (Dict.keys unified)) ->
  outcome (fun unified' => entry_keys_satisfy K unified'
                           /\ incl (Dict.keys unified) (Dict.keys unified'))
          Q (Builder.update_block yr cleaning matched_key ignore_gaap row sec unified).
Proof.
  intros R G Hk. unfold Builder.update_block.
  assert (C : outcome (fun unified' => entry_keys_satisfy K unified'
                                       /\ incl (Dict.keys unified) (Dict.keys unified'))
                      Q (Ok (Builder.create ignore_gaap row sec unified))).
  { simpl. split; [apply create_satisfies; assumption | apply set_keys_incl]. }
  destruct matched_key as [k|]; [|exact C].
  destruct (String.eqb k ""); [exact C|].
  destruct (PyStr.startswith "review_needed" k).
  { simpl. split; [exact G | apply incl_refl]. }
  destruct (Dict.get k unified) as [existing|] eqn:E.
  - assert (Ge : good (values existing)).
    { intros y Hy. apply (G k existing); [apply get_some_in; exact E | exact Hy]. }
    pose proof (merge_values_outcome cleaning row (values existing) Ge R) as O.
    unfold bind.
    destruct (Builder.merge_values yr cleaning row (values existing)) as [vals|e];
      simpl in *; [|exact O].
    split; [|apply set_keys_incl].
    intros k0 p Hin y Hy. apply in_set in Hin.
    destruct Hin as [Eq|Hin]; [|apply (G k0 p Hin y Hy)].
    inversion Eq; subst k0 p. simpl in Hy. apply O. exact Hy.
  - exfalso. apply get_none_keys in E. apply E. apply Hk. reflexivity.
Qed.

Lemma confirm_returns (unified : Catalog) (row : Row) (ignore_gaap : bool)
  (pre_key : option string) :
  (forall k, pre_key = Some k -> In k (Dict.keys unified)) ->
  exists matched_key,
    Builder.confirm unified row ignore_gaap pre_key = Ok matched_key
    /\ forall k, matched_key = Some k -> In k (Dict.keys unified).
Proof.
  intros Hk. unfold Builder.confirm. destruct pre_key as [k|].
  - destruct (Dict.get k unified) as [existing|] eqn:E.
    + match goal with
      | |- context [if ?c then _ else _] => destruct c
      end.
      * exists (Some k). split; [reflexivity | exact Hk].
      * exists None. split; [reflexivity | discriminate].
    + exfalso. apply get_none_keys in E. apply E. apply Hk. reflexivity.
  - exists None. split; [reflexivity | discriminate].
Qed.

Lemma merge_row_outcome (allowed_unified_sk : option string)
  (greedy_item_map : list (nat * string)) (collision_gaaps : list string)
  (sec : string) (unified : Catalog) (ir : nat * Row) :
  good (values (snd ir)) -> entry_keys_satisfy K unified ->
  (forall i k, In (i, k) greedy_item_map -> In k (Dict.keys unified)) ->
  outcome (fun unified' => entry_keys_satisfy K unified'
                           /\ incl (Dict.keys unified) (Dict.keys unified'))
          Q (Builder.merge_row yr allowed_unified_sk greedy_item_map collision_gaaps
                               sec unified ir).
Proof.
  intros R G Hm. unfold Builder.merge_row.
  set (pre_key := match allowed_unified_sk with
                  | Some _ => idx_get (fst ir) greedy_item_map
                  | None => None
                  end).
  assert (Hp : forall k, pre_key = Some k -> In k (Dict.keys unified)).
  { intros k E. unfold pre_key in E. destruct allowed_unified_sk; [|discriminate].
    apply (Hm (fst ir) k). apply idx_get_some_in. exact E. }
  destruct (confirm_returns unified (snd ir)
              (in_collisions (item_gaap (snd ir)) collision_gaaps) pre_key Hp)
    as (matched_key & C & Hk).
  rewrite C. unfold bind.
  pose proof (update_block_outcome false matched_key
                (in_collisions (item_gaap (snd ir)) collision_gaaps)
                (snd ir) sec unified R G Hk) as O1.
  destruct (Builder.update_block yr false matched_key _ (snd ir) sec unified)
    as [unified1|e]; simpl in O1; [|exact O1].
  destruct O1 as [G1 I1].
  pose proof (update_block_outcome true matched_key
                (in_collisions (item_gaap (snd ir)) collision_gaaps)
                (snd ir) sec unified1 R G1
                (fun k E => I1 k (Hk k E))) as O2.
  eapply outcome_weaken; [|exact O2].
  intros u [G2 I2]. split; [exact G2|]. intros y Hy. apply I2, I1. exact Hy.
Qed.

Lemma merge_section_outcome (greedy_sec_map : Dict.t (option string))
  (unified : Catalog) (group : string * list Row) :
  row_keys_satisfy K (snd group) -> entry_keys_satisfy K unified ->
  outcome (entry_keys_satisfy K) Q
          (Builder.merge_section yr greedy_sec_map unified group).
Proof.
  intros R G. unfold Builder.merge_section.
  eapply outcome_weaken;
    [|apply (foldM_outcome _ _ _
               (fun u => entry_keys_satisfy K u
                         /\ incl (Dict.keys unified) (Dict.keys u)) Q)].
  - intros u [Gu _]. exact Gu.
  - split; [exact G | apply incl_refl].
  - intros u0 ir Hin [G0 I0].
    eapply outcome_weaken; [|apply merge_row_outcome].
    + intros u [Gu Iu]. split; [exact Gu|]. intros y Hy. apply Iu, I0. exact Hy.
    + intros y Hy. apply (R (snd ir)); [apply enumerate_in; exact Hin | exact Hy].
    + exact G0.
    + intros i k Hik. apply I0. eapply greedy_item_map_keys. exact Hik.
Qed.

Lemma merge_filing_outcome (unified : Catalog) (rows : list Row) :
  row_keys_satisfy K rows -> entry_keys_satisfy K unified ->
  outcome (fun ur => entry_keys_satisfy K (fst ur)) Q
          (Builder.merge_filing yr unified rows).
Proof.
  intros R G. unfold Builder.merge_filing.
  set (rw := fold_left (Builder.rewrite_step (_build_unified_section_index unified))
                       (_build_greedy_section_map unified rows) rows).
  assert (Rw : row_keys_satisfy K rw).
  { pose proof (rewrite_fold_frame (_build_unified_section_index unified)
                  (_build_greedy_section_map unified rows) rows) as F.
    fold rw in F. clear -F R. induction F as [|r r' rows rw (_ & _ & V & _) F IH].
    - intros r [].
    - intros x [<-|Hx] y Hy.
      + rewrite V in Hy. apply (R r); [left; reflexivity | exact Hy].
      + apply (IH (fun r0 H0 => R r0 (or_intror H0)) x Hx y Hy). }
  pose proof (foldM_outcome _ _ (Builder.merge_section yr
                                   (_build_greedy_section_map unified rows))
                (entry_keys_satisfy K) Q
                (Builder.section_groups (map (fun r : Row => Builder.sec_of r) rows) rw)
                unified G) as O.
  unfold bind.
  match type of O with
  | _ -> outcome _ _ ?f => destruct f as [u|e] eqn:F
  end.
  - simpl. apply O. intros u0 group Hin G0. apply merge_section_outcome; [|exact G0].
    unfold Builder.section_groups in Hin. apply in_map_iff in Hin.
    destruct Hin as ([sec g] & <- & Hin). simpl.
    intros r Hr. apply in_map_iff in Hr. destruct Hr as ([s r0] & <- & Hsr).
    destruct (group_by_key _ fst _ _ _ _ Hin Hsr) as [_ Hc].
    apply in_combine_r in Hc. apply Rw. exact Hc.
  - simpl. apply O. intros u0 group Hin G0. apply merge_section_outcome; [|exact G0].
    unfold Builder.section_groups in Hin. apply in_map_iff in Hin.
    destruct Hin as ([sec g] & <- & Hin). simpl.
    intros r Hr. apply in_map_iff in Hr. destruct Hr as ([s r0] & <- & Hsr).
    destruct (group_by_key _ fst _ _ _ _ Hin Hsr) as [_ Hc].
    apply in_combine_r in Hc. apply Rw. exact Hc.
Qed.

Lemma merge_all_outcome (flat_all : Dict.t (list Row)) :
  (forall filing, In filing flat_all -> row_keys_satisfy K (snd filing)) ->
  outcome (fun st => entry_keys_satisfy K (fst st)
                     /\ forall y, Dict.get y flat_all <> None ->
                                  Dict.get y (snd st) <> None)
          Q (Builder.merge_all yr flat_all).
Proof.
  intros R. unfold Builder.merge_all.
  apply foldM_outcome.
  - simpl. split; [intros k p [] | auto].
  - intros [u fl] [y rows] Hin [G I]. simpl in *.
    pose proof (merge_filing_outcome u rows (R _ Hin) G) as O.
    destruct (Builder.merge_filing yr u rows) as [[u' rows']|e]; simpl in *; [|exact O].
    split; [exact O|]. intros y0 H0. specialize (I y0 H0).
    destruct (String.eqb y0 y) eqn:E.
    + apply String.eqb_eq in E. subst y0. rewrite get_set_same. discriminate.
    + apply String.eqb_neq in E. rewrite get_set_other by exact E. exact I.
Qed.
End MergeOutcome.

Lemma int_raises_value_error (s : string) (e : exn) :
  PyStr.int s = Raise e -> e = ValueError.
Proof.
  unfold PyStr.int.
  match goal with
  | |- match ?p with Some _ => _ | None => _ end = _ -> _ => destruct p
  end; [discriminate | congruence].
Qed.

Lemma newer_than_first_value_error (yr : string) (vals : Values) :
  Dict.keys vals <> [] ->
  outcome (fun _ => True) (fun e => e = ValueError) (Builder.newer_than_first yr vals).
Proof.
  intros Ne. unfold Builder.newer_than_first, bind.
  destruct (PyStr.int (normalize_year_key (PyStr.take 4 yr))) as [fy|e] eqn:E1;
    [|simpl; eapply int_raises_value_error; exact E1].
  destruct (Dict.keys vals) as [|first rest]; [contradiction|].
  destruct (PyStr.int (normalize_year_key first)) as [rec|e] eqn:E2; simpl; [exact I|].
  eapply int_raises_value_error; exact E2.
Qed.

(** X20: merging the filings either returns or raises a [ValueError]
    (a period key, or the filing year left in [yr], that [int] cannot
    read): a pinned entry is always found in the catalog, and the overwrite
    test never looks at an entry without values. *)
Theorem merge_raises_only_value_error (yr : string) (flat_all : Dict.t (list Row)) :
  (exists merged, Builder.merge_all yr flat_all = Ok merged)
  \/ Builder.merge_all yr flat_all = Raise ValueError.
Proof.
  pose proof (merge_all_outcome yr (fun _ => True) (fun e => e = ValueError)
                (fun vals _ Ne => newer_than_first_value_error yr vals Ne)
                flat_all (fun _ _ _ _ _ _ => I)) as O.
  destruct (Builder.merge_all yr flat_all) as [merged|e]; simpl in O.
  - left. exists merged. reflexivity.
  - right. rewrite O. reflexivity.
Qed.

Lemma newer_than_first_returns (yr : string) (vals : Values) :
  year_like (PyStr.take 4 yr) ->
  (forall y, In y (Dict.keys vals) -> year_like y) -> Dict.keys vals <> [] ->
  outcome (fun _ => True) (fun _ => False) (Builder.newer_than_first yr vals).
Proof.
  intros [zy Hy] G Ne. unfold Builder.newer_than_first, bind. rewrite Hy.
  destruct (Dict.keys vals) as [|first rest]; [contradiction|].
  destruct (G first (or_introl eq_refl)) as [z Hz]. rewrite Hz. exact I.
Qed.

(** X21: when the filing year left in [yr] and every period key of every
    row read as years, merging the filings returns, and every period key of
    the merged catalog reads as a year. *)
Theorem merge_returns_on_year_keys (yr : string) (flat_all : Dict.t (list Row)) :
  year_like (PyStr.take 4 yr) ->
  (forall filing, In filing flat_all -> row_keys_satisfy year_like (snd filing)) ->
  exists unified flat_all',
    Builder.merge_all yr flat_all = Ok (unified, flat_all')
    /\ entry_keys_satisfy year_like unified.
Proof.
  intros Hy R.
  pose proof (merge_all_outcome yr year_like (fun _ => False)
                (fun vals G Ne => newer_than_first_returns yr vals Hy G Ne)
                flat_all R) as O.
  destruct (Builder.merge_all yr flat_all) as [[unified flat_all']|e]; simpl in O;
    [|contradiction].
  exists unified, flat_all'. split; [reflexivity | apply O].
Qed.

Lemma merge_returns_on_year_keys_witness :
  exists unified flat_all',
    Builder.merge_all "2023" Examples.ghost_rows = Ok (unified, flat_all')
    /\ entry_keys_satisfy year_like unified.
Proof.
  apply (merge_returns_on_year_keys "2023" Examples.ghost_rows).
  - exists 2023%Z. reflexivity.
  - intros filing Hf r Hr y Hy. vm_compute in Hf.
    destruct Hf as [<-|[<-|[]]]; vm_compute in Hr; destruct Hr as [<-|[]];
      vm_compute in Hy; destruct Hy as [<-|[<-|[]]]; eexists; vm_compute; reflexivity.
Defined.

(** ** Catalog keys *)

Lemma chars_app (s1 s2 : string) :
  PyStr.chars (s1 ++ s2) = PyStr.chars s1 ++ PyStr.chars s2.
Proof.
  unfold PyStr.chars. induction s1 as [|c s1 IH]; simpl; [reflexivity|].
  rewrite IH. reflexivity.
Qed.

Lemma split_first_no_bar (a b : list ascii) :
  ~ In PyStr.bar a -> PyStr.split_first (a ++ PyStr.bar :: b) = Some (a, b).
Proof.
  induction a as [|c a IH]; simpl; intros N.
  - reflexivity.
  - destruct (Ascii.eqb c PyStr.bar) eqn:E.
    + apply Ascii.eqb_eq in E. exfalso. apply N. left. exact E.
    + rewrite IH; [reflexivity|]. intros H. apply N. right. exact H.
Qed.

Lemma split_first_none (l : list ascii) :
  PyStr.split_first l = None <-> ~ In PyStr.bar l.
Proof.
  induction l as [|c l IH]; simpl; [tauto|].
  destruct (Ascii.eqb c PyStr.bar) eqn:E.
  - apply Ascii.eqb_eq in E. split; [discriminate | intros H; exfalso; apply H; auto].
  - assert (N : c <> PyStr.bar) by (intros ->; rewrite Ascii.eqb_refl in E; discriminate).
    destruct (PyStr.split_first l) as [[a b]|].
    + split; [discriminate|]. intros H. exfalso.
      assert (X : ~ In PyStr.bar l) by (intros I; apply H; right; exact I).
      apply IH in X. discriminate.
    + split; [|reflexivity]. intros _ [H|H]; [congruence|].
      destruct IH as [IH _]. apply (IH eq_refl). exact H.
Qed.

Lemma split_last_no_bar (a b : list ascii) :
  ~ In PyStr.bar b -> PyStr.split_last (a ++ PyStr.bar :: b) = Some (a, b).
Proof.
  intros N. unfold PyStr.split_last. rewrite rev_app_distr. simpl.
  rewrite <- app_assoc. simpl. rewrite split_first_no_bar.
  - rewrite !rev_involutive. reflexivity.
  - intros H. apply N. apply in_rev. exact H.
Qed.

(** X22: a catalog key is read back into its parts: for a key built from an
    item identity and a section key without ["|"], the parser returns that
    section key and that item identity, unless the key starts with
    ["review_needed|"]; and the parser raises, with a [ValueError], exactly
    on the keys that start with ["review_needed|"] and hold no further
    ["|"]. *)
Theorem parse_unified_key_round_trip :
  (forall item sec : string,
      ~ In PyStr.bar (PyStr.chars sec) ->
      PyStr.startswith "review_needed|" (item ++ "|" ++ sec) = false ->
      Orderer._parse_unified_key (item ++ "|" ++ sec) = Ok (sec, item))
  /\ (forall key : string,
         (exists e, Orderer._parse_unified_key key = Raise e)
         <-> PyStr.startswith "review_needed|" key = true
             /\ ~ In PyStr.bar (skipn 14 (PyStr.chars key)))
  /\ (forall key e, Orderer._parse_unified_key key = Raise e -> e = ValueError).
Proof.
  split; [|split].
  - intros item sec N S. unfold Orderer._parse_unified_key. rewrite S.
    rewrite !chars_app. change (PyStr.chars "|") with [PyStr.bar]. simpl.
    rewrite split_last_no_bar by exact N. rewrite !str_chars. reflexivity.
  - intros key. unfold Orderer._parse_unified_key.
    destruct (PyStr.startswith "review_needed|" key).
    + destruct (PyStr.split_first (skipn 14 (PyStr.chars key))) as [[a b]|] eqn:E.
      * split; [intros [e H]; discriminate|]. intros [_ H].
        apply split_first_none in H. congruence.
      * split; [|intros _; eexists; reflexivity]. intros _. split; [reflexivity|].
        apply split_first_none. exact E.
    + destruct (PyStr.split_last (PyStr.chars key)) as [[a b]|].
      * split; [intros [e H]; discriminate | intros [H _]; discriminate].
      * split; [intros [e H]; discriminate | intros [H _]; discriminate].
  - intros key e. unfold Orderer._parse_unified_key.
    destruct (PyStr.startswith "review_needed|" key).
    + destruct (PyStr.split_first _) as [[a b]|]; [discriminate | congruence].
    + destruct (PyStr.split_last _) as [[a b]|]; discriminate.
Qed.

(** ** Stability of the sort *)

Section SortStable.
Variable A : Type.
Variables (leb : A -> A -> bool) (keep : A -> bool).
Hypothesis leb_trans :
  forall a b c : A, leb a b = true -> leb b c = true -> leb a c = true.

Lemma insert_sorted_head (x : A) (l : list A) :
  Forall (fun y => leb x y = true) l -> insert_sorted leb x l = x :: l.
Proof.
  intros F. destruct l as [|y l]; simpl; [reflexivity|].
  inversion F as [|? ? Hy _]; subst. rewrite Hy. reflexivity.
Qed.

Lemma insert_sorted_filter (x : A) (l : list A) :
  StronglySorted (fun a b => leb a b = true) l ->
  filter keep (insert_sorted leb x l)
  = if keep x then insert_sorted leb x (filter keep l) else filter keep l.
Proof.
  induction 1 as [|y l S IH F]; simpl.
  - destruct (keep x); reflexivity.
  - destruct (leb x y) eqn:E; simpl.
    + destruct (keep x) eqn:Kx; [|reflexivity].
      destruct (keep y) eqn:Ky; simpl; [rewrite E; reflexivity|].
      rewrite insert_sorted_head; [reflexivity|].
      rewrite Forall_forall in *. intros z Hz. apply filter_In in Hz.
      eapply leb_trans; [exact E | apply F; tauto].
    + rewrite IH. destruct (keep y) eqn:Ky; destruct (keep x) eqn:Kx; simpl;
        try rewrite E; reflexivity.
Qed.

Lemma sorted_stable_sort (l : list A) :
  StronglySorted (fun a b => leb a b = true) l -> stable_sort leb l = l.
Proof.
  induction 1 as [|x l S IH F]; simpl; [reflexivity|].
  fold (stable_sort leb l). rewrite IH. apply insert_sorted_head. exact F.
Qed.
End SortStable.

Lemma stable_sort_filter (A : Type) (leb : A -> A -> bool) (keep : A -> bool)
  (l : list A) :
  (forall x y, leb x y = true \/ leb y x = true) ->
  (forall x y z, leb x y = true -> leb y z = true -> leb x z = true) ->
  filter keep (stable_sort leb l) = stable_sort leb (filter keep l).
Proof.
  intros total trans. induction l as [|x l IH]; simpl; [reflexivity|].
  fold (stable_sort leb l).
  rewrite (insert_sorted_filter A leb keep trans x (stable_sort leb l)
             (stable_sort_strongly A leb total trans l)).
  rewrite IH. destruct (keep x); reflexivity.
Qed.

Lemma index_of_mono (sp : list Z) (p q : Z) :
  StronglySorted Z.le sp -> In p sp -> In q sp -> (p < q)%Z ->
  Orderer.index_of sp p < Orderer.index_of sp q.
Proof.
  induction 1 as [|s rest S IH F]; simpl; intros Hp Hq L; [contradiction|].
  rewrite Forall_forall in F.
  destruct (Z.eqb s p) eqn:Ep.
  - apply Z.eqb_eq in Ep. subst s.
    destruct (Z.eqb p q) eqn:Eq; [apply Z.eqb_eq in Eq; lia | lia].
  - apply Z.eqb_neq in Ep. destruct Hp as [Hp|Hp]; [contradiction|].
    destruct (Z.eqb s q) eqn:Eq.
    + apply Z.eqb_eq in Eq. subst s. specialize (F p Hp). lia.
    + apply Z.eqb_neq in Eq. destruct Hq as [Hq|Hq]; [contradiction|].
      apply -> Nat.succ_lt_mono. apply IH; assumption.
Qed.

Lemma strongly_sorted_map (A B : Type) (R : A -> A -> Prop) (R' : B -> B -> Prop)
  (f : A -> B) (l : list A) :
  (forall a b, In a l -> In b l -> R a b -> R' (f a) (f b)) ->
  StronglySorted R l -> StronglySorted R' (map f l).
Proof.
  intros H S. induction S as [|a l S IH F]; simpl; constructor.
  - apply IH. intros x y Hx Hy. apply H; right; assumption.
  - rewrite Forall_forall in *. intros y Hy. apply in_map_iff in Hy.
    destruct Hy as (b & <- & Hb). apply H; [left; reflexivity | right; exact Hb|].
    apply F. exact Hb.
Qed.

(** X23: the latest-year items of a section are never reordered: taken out
    of the section's final sequence, they stand in the order of their
    latest-year positions (ties by normalised label), whatever older-only
    items were placed among them. *)
Theorem spine_order_preserved (latest_items older_only_items : list Orderer.Placed) :
  map Orderer.item
      (filter (fun e => Nat.eqb (Orderer.priority_flag e) 1)
              (Orderer.arrange latest_items older_only_items))
  = stable_sort Orderer.spine_leb latest_items.
Proof.
  unfold Orderer.arrange.
  set (spine := stable_sort Orderer.spine_leb latest_items).
  set (sp := map Orderer.pos spine).
  rewrite (stable_sort_filter _ Orderer.sortable_leb _ _
             sortable_leb_total sortable_leb_trans).
  rewrite filter_app.
  rewrite (filter_none _ _ (map _ older_only_items)).
  2:{ intros e He. apply in_map_iff in He. destruct He as (x & <- & _). reflexivity. }
  rewrite (filter_all _ _ (map _ spine)).
  2:{ intros e He. apply in_map_iff in He. destruct He as (x & <- & _). reflexivity. }
  simpl. rewrite sorted_stable_sort.
  - rewrite map_map. simpl. apply map_id.
  - apply (strongly_sorted_map _ _ (fun a b => Orderer.spine_leb a b = true)).
    + intros a b Ha Hb L. apply sortable_leb_spec. simpl.
      apply spine_leb_spec in L.
      assert (Ia : In (Orderer.pos a) sp) by (apply in_map; exact Ha).
      assert (Ib : In (Orderer.pos b) sp) by (apply in_map; exact Hb).
      destruct L as [L|[E L]].
      * left. apply index_of_mono; auto. apply spine_positions_sorted.
      * right. split; [rewrite E; reflexivity|]. right. split; [reflexivity | exact L].
    + apply (stable_sort_strongly _ Orderer.spine_leb spine_leb_total spine_leb_trans).
Qed.

(** ** The ordered catalog holds the entries of the merged one *)

Lemma filter_by_key_skip (A : Type) (f : A -> string) (x : A) (l : list A)
  (sks : list string) :
  ~ In (f x) sks ->
  flat_map (fun sk => filter (fun y => String.eqb (f y) sk) (x :: l)) sks
  = flat_map (fun sk => filter (fun y => String.eqb (f y) sk) l) sks.
Proof.
  induction sks as [|sk sks IH]; intros N; [reflexivity|].
  cbn [flat_map]. rewrite IH by (intros H; apply N; right; exact H).
  f_equal. cbn [filter]. destruct (String.eqb (f x) sk) eqn:E; [|reflexivity].
  apply String.eqb_eq in E. exfalso. apply N. left. symmetry. exact E.
Qed.

Lemma partition_cons (A : Type) (f : A -> string) (x : A) (l : list A)
  (sks : list string) :
  NoDup sks -> In (f x) sks ->
  Permutation
    (flat_map (fun sk => filter (fun y => String.eqb (f y) sk) (x :: l)) sks)
    (x :: flat_map (fun sk => filter (fun y => String.eqb (f y) sk) l) sks).
Proof.
  induction sks as [|sk sks IH]; intros N Hin; [contradiction|].
  inversion N as [|? ? Hn Nd]; subst. cbn [flat_map].
  destruct (String.eqb (f x) sk) eqn:E.
  - apply String.eqb_eq in E. subst sk. rewrite filter_by_key_skip by exact Hn.
    cbn [filter]. rewrite String.eqb_refl. reflexivity.
  - assert (F : filter (fun y => String.eqb (f y) sk) (x :: l)
                = filter (fun y => String.eqb (f y) sk) l).
    { cbn [filter]. rewrite E. reflexivity. }
    rewrite F. apply String.eqb_neq in E. destruct Hin as [Hin|Hin]; [congruence|].
    rewrite (IH Nd Hin). apply Permutation_sym, Permutation_middle.
Qed.

Lemma partition_perm (A : Type) (f : A -> string) (l : list A) (sks : list string) :
  NoDup sks -> (forall x, In x l -> In (f x) sks) ->
  Permutation (flat_map (fun sk => filter (fun y => String.eqb (f y) sk) l) sks) l.
Proof.
  intros N. induction l as [|x l IH]; intros H.
  - clear. induction sks as [|sk sks IHs]; simpl; [constructor | exact IHs].
  - rewrite partition_cons; [|exact N | apply H; left; reflexivity].
    constructor. apply IH. intros y Hy. apply H. right. exact Hy.
Qed.

Lemma group_by_covers (A : Type) (key : A -> string) (l : list A) (x : A) :
  In x l -> In (key x) (Dict.keys (group_by key l)).
Proof.
  intros Hx. pose proof (get_group_by A key (key x) l) as G.
  destruct (Dict.get (key x) (group_by key l)) as [g|] eqn:E.
  - apply get_some_in in E. apply (in_map fst _ _ E).
  - exfalso. assert (I : In x (filter (fun y => String.eqb (key y) (key x)) l)).
    { apply filter_In. split; [exact Hx | apply String.eqb_refl]. }
    rewrite <- G in I. contradiction.
Qed.


Lemma sections_perm (unified : Catalog) (positions_map : Orderer.PosMap)
  (latest_year : string) (years_sorted : list string)
  (sks : list string) (outs : list (list Orderer.Sortable)) :
  Forall2 (fun sk out =>
             Orderer.order_section positions_map latest_year years_sorted sk
                                   (entries_under unified sk) = Ok out)
          sks outs ->
  Permutation (flat_map (fun out => Dict.keys (map sortable_binding out)) outs)
              (Dict.keys (flat_map (entries_under unified) sks)).
Proof.
  induction 1 as [|sk out sks outs O F IH]; simpl; [constructor|].
  unfold Dict.keys in *. rewrite map_app. apply Permutation_app; [|exact IH].
  apply Permutation_map. eapply order_section_perm. exact O.
Qed.

(** X24: ordering loses no entry and invents none: the keys of the ordered
    catalog are the keys of the catalog it was given, rearranged, and each
    entry is the given entry with that key, padded for the target years. *)
Theorem order_catalog_keeps_entries (unified : Catalog) (flat_all : Dict.t (list Row))
  (positions_map : Orderer.PosMap) (latest_section_order : Dict.t Z)
  (latest_year : string) (years_sorted : list string) (ordered : Catalog) :
  NoDup (Dict.keys unified) ->
  order_catalog unified flat_all positions_map latest_section_order latest_year years_sorted
  = Ok ordered ->
  Permutation (Dict.keys ordered) (Dict.keys unified)
  /\ forall k p', In (k, p') ordered ->
       exists p, In (k, p) unified
                 /\ p' = pad_payload (_collect_all_target_years flat_all) p.
Proof.
  intros NU E. split.
  - destruct (order_catalog_layout _ _ _ _ _ _ _ NU E) as (outs & F & K).
    rewrite K. rewrite (sections_perm _ _ _ _ _ _ F).
    apply Permutation_map. unfold entries_under.
    apply (partition_perm _ (fun kp : string * Payload => Builder.sec_of (snd kp))).
    + unfold section_keys_sorted.
      apply (Permutation_NoDup (Permutation_sym (stable_sort_perm _ _ _))).
      apply group_by_nodup.
    + intros x Hx. unfold section_keys_sorted.
      apply (Permutation_in _ (Permutation_sym (stable_sort_perm _ _ _))).
      apply (group_by_covers _ (fun kp : string * Payload => Builder.sec_of (snd kp))).
      exact Hx.
  - unfold order_catalog in E.
    apply (foldM_ok_inv _ _ _ _ _ _ E
             (fun ordered => forall k p', In (k, p') ordered ->
                exists p, In (k, p) unified
                          /\ p' = pad_payload (_collect_all_target_years flat_all) p)).
    + intros k p' [].
    + intros ordered0 sk ordered1 _ Inv S k p' Hin.
      unfold emit_section, bind in S.
      destruct (Orderer.order_section positions_map latest_year years_sorted sk _)
        as [sortable|] eqn:O; [|discriminate].
      inversion S; subst ordered1; clear S.
      unfold _pad_missing_years_in_mapping in Hin.
      apply in_map_iff in Hin. destruct Hin as ([k0 p0] & Eq & Hin).
      simpl in Eq. inversion Eq; subst k0 p'; clear Eq.
      destruct (emit_in _ _ _ _ Hin) as [H|(e & He & Eq)].
      * destruct (Inv k p0 H) as (p & Hp & ->). exists p. split; [exact Hp|].
        apply pad_payload_again.
      * exists p0. split; [|reflexivity].
        pose proof (order_section_from_items _ _ _ _ _ _ O e He) as I.
        rewrite <- Eq in I. rewrite get_group_by in I.
        apply filter_In in I. tauto.
Qed.

Lemma order_catalog_keeps_entries_witness :
  exists ordered,
    order_catalog Examples.ghost_catalog Examples.ghost_rows
      (Orderer.build_positions_map Examples.ghost_rows ["2024"; "2023"])
      (Orderer.build_latest_section_order (Orderer.rows_of Examples.ghost_rows "2024"))
      "2024" ["2024"; "2023"] = Ok ordered
    /\ Permutation (Dict.keys ordered) (Dict.keys Examples.ghost_catalog)
    /\ forall k p', In (k, p') ordered ->
         exists p, In (k, p) Examples.ghost_catalog
                   /\ p' = pad_payload (_collect_all_target_years Examples.ghost_rows) p.
Proof.
  eexists. split; [vm_compute; reflexivity|].
  apply (order_catalog_keeps_entries Examples.ghost_catalog Examples.ghost_rows
           (Orderer.build_positions_map Examples.ghost_rows ["2024"; "2023"])
           (Orderer.build_latest_section_order
              (Orderer.rows_of Examples.ghost_rows "2024"))
           "2024" ["2024"; "2023"]).
  - repeat constructor; simpl; intuition discriminate.
  - vm_compute. reflexivity.
Defined.

(** ** The order of the sections *)

Lemma mem_same_keys (V W : Type) (d : Dict.t V) (e : Dict.t W) (k : string) :
  Dict.keys d = Dict.keys e -> Dict.mem k d = Dict.mem k e.
Proof.
  intros E. destruct (Dict.mem k d) eqn:M.
  - apply mem_keys in M. rewrite E in M. apply mem_keys in M. symmetry. exact M.
  - destruct (Dict.mem k e) eqn:M'; [|reflexivity].
    apply mem_keys in M'. rewrite <- E in M'. apply mem_keys in M'. congruence.
Qed.

Lemma latest_section_order_fold (rows : list Row) :
  forall (order : Dict.t Z) (seen : Dict.t (option string * option string)),
    Dict.keys order = Dict.keys seen ->
    Dict.vals order = map Z.of_nat (seq 0 (List.length order)) ->
    let order' :=
      fold_left (fun order (r : Row) =>
                   let sk := sec_key_of r in
                   if Dict.mem sk order then order
                   else Dict.set sk (Z.of_nat (List.length order)) order)
                rows order in
    Dict.keys order' = Dict.keys (fold_left (first_sections_step data) rows seen)
    /\ Dict.vals order' = map Z.of_nat (seq 0 (List.length order')).
Proof.
  induction rows as [|r rows IH]; intros order seen K V; simpl; [auto|].
  unfold first_sections_step at 2.
  rewrite <- (mem_same_keys _ _ order seen (sec_key_of r) K).
  destruct (Dict.mem (sec_key_of r) order) eqn:M; [apply IH; assumption|].
  assert (N : ~ In (sec_key_of r) (Dict.keys order)).
  { intros H. apply mem_keys in H. congruence. }
  apply IH.
  - rewrite !set_fresh; [|rewrite <- K; exact N | exact N].
    unfold Dict.keys in *. rewrite !map_app, K. reflexivity.
  - rewrite set_fresh by exact N. unfold Dict.vals in *.
    rewrite map_app, length_app, V. simpl.
    rewrite Nat.add_1_r, seq_S, map_app. reflexivity.
Qed.

(** X25: the rank of a section is the place of its first appearance in the
    latest filing: the ranked sections are the sections of the filing in
    order of first appearance, and their ranks are 0, 1, 2, ... in that
    order. *)
Theorem latest_section_order_ranks (rows : list Row) :
  let order := Orderer.build_latest_section_order rows in
  Dict.keys order = Dict.keys (_candidate_sections_in_order rows)
  /\ Dict.vals order = map Z.of_nat (seq 0 (List.length order))
  /\ NoDup (Dict.keys order).
Proof.
  destruct (latest_section_order_fold rows [] [] eq_refl eq_refl) as [K V].
  split; [exact K|]. split; [exact V|].
  pose proof (first_sections_nodup Row data rows) as N.
  rewrite first_sections_fold in N. rewrite <- K in N. exact N.
Qed.

(** ** Sections follow one another by rank *)

Lemma app_eq_cons_cases (A : Type) (l1 l2 a r : list A) (k : A) :
  l1 ++ l2 = a ++ k :: r ->
  (exists r1, l1 = a ++ k :: r1 /\ r = r1 ++ l2)
  \/ (exists a2, a = l1 ++ a2 /\ l2 = a2 ++ k :: r).
Proof.
  revert a. induction l1 as [|x l1 IH]; intros a E.
  - right. exists a. auto.
  - destruct a as [|y a]; simpl in E; inversion E; subst.
    + left. exists l1. auto.
    + destruct (IH a H1) as [(r1 & -> & ->)|(a2 & -> & ->)].
      * left. exists r1. auto.
      * right. exists a2. auto.
Qed.

Lemma Forall2_in_l (A B : Type) (R : A -> B -> Prop) (l : list A) (l' : list B) (y : B) :
  Forall2 R l l' -> In y l' -> exists x, In x l /\ R x y.
Proof.
  induction 1 as [|a b l l' Hab F IH]; intros H; [contradiction|].
  destruct H as [<-|H].
  - exists a. split; [left; reflexivity | exact Hab].
  - destruct (IH H) as (x & Hx & Rx). exists x. split; [right; exact Hx | exact Rx].
Qed.

Lemma sections_in_rank_order (A : Type) (rank : string -> Z) (holds : string -> A -> Prop)
  (g : A -> list string) (sks : list string) (outs : list A) :
  Forall2 holds sks outs ->
  StronglySorted (fun s1 s2 => (rank s1 <= rank s2)%Z) sks ->
  forall a k1 b k2 c,
    flat_map g outs = a ++ k1 :: b ++ k2 :: c ->
    exists s1 out1 s2 out2,
      holds s1 out1 /\ In k1 (g out1) /\ holds s2 out2 /\ In k2 (g out2)
      /\ (rank s1 <= rank s2)%Z.
Proof.
  induction 1 as [|sk out sks outs H F IH]; intros S a k1 b k2 c E.
  - destruct a; discriminate.
  - inversion S as [|? ? S' Hd]; subst. simpl in E.
    destruct (app_eq_cons_cases _ _ _ _ _ _ E) as [(r1 & E1 & E2)|(a2 & E1 & E2)].
    + assert (I1 : In k1 (g out)).
      { rewrite E1. apply in_or_app. right. left. reflexivity. }
      assert (I2 : In k2 (r1 ++ flat_map g outs)).
      { rewrite <- E2. apply in_or_app. right. left. reflexivity. }
      apply in_app_or in I2. destruct I2 as [I2|I2].
      * exists sk, out, sk, out. repeat split; auto; [|lia].
        rewrite E1. apply in_or_app. right. right. exact I2.
      * apply in_flat_map in I2. destruct I2 as (out2 & Ho & I2).
        destruct (Forall2_in_l _ _ _ _ _ _ F Ho) as (s2 & Hs & H2).
        exists sk, out, s2, out2. repeat split; auto.
        rewrite Forall_forall in Hd. apply Hd. exact Hs.
    + apply (IH S' a2 k1 b k2 c E2).
Qed.



(** ** Aggregate entry point: the documents and source URLs of a statement type *)

Lemma collect_fold (stmt_type : string) (d : Dict.t YearData) :
  forall st stmt_years source_urls,
    foldM (Aggregate.collect_year stmt_type) d st = Ok (stmt_years, source_urls) ->
    (NoDup (snd st) -> NoDup source_urls)
    /\ (forall u, In u source_urls
                  <-> In u (snd st)
                      \/ (u <> ""
                          /\ exists y year_data doc,
                               In (y, YearDict year_data) d
                               /\ Dict.get stmt_type year_data = Some doc
                               /\ Aggregate.has_error doc = false
                               /\ Aggregate.url_of doc = Some u))
    /\ (forall y docs, In (y, docs) stmt_years ->
          In (y, docs) (fst st)
          \/ exists doc, docs = [(stmt_type, doc)] /\ Aggregate.has_error doc = false).
Proof.
  induction d as [|[y yd] d IH]; intros [sy urls] stmt_years source_urls E.
  - simpl in E. inversion E; subst. simpl. split; [auto|]. split; [|auto].
    intros u. split; [auto|]. intros [H|(_ & y & yd & doc & [] & _)]. exact H.
  - simpl in E. unfold bind in E.
    destruct (Aggregate.collect_year stmt_type (sy, urls) (y, yd)) as [[sy1 urls1]|]
      eqn:S; [|discriminate].
    destruct (IH _ _ _ E) as (N & U & D). simpl in N, U, D.
    unfold Aggregate.collect_year in S. simpl in S.
    destruct yd as [year_data|]; [|discriminate].
    destruct (Dict.get stmt_type year_data) as [doc|] eqn:G.
    + destruct (Aggregate.has_error doc) eqn:He.
      * inversion S; subst sy1 urls1. simpl. split; [exact N|]. split.
        -- intros u. rewrite U. split.
           ++ intros [H|(Nu & y0 & yd0 & doc0 & Hin & R)]; [left; exact H|].
              right. split; [exact Nu|]. exists y0, yd0, doc0. split; [right; exact Hin|].
              exact R.
           ++ intros [H|(Nu & y0 & yd0 & doc0 & [Hin|Hin] & G0 & He0 & Hu)];
                [left; exact H | |].
              ** inversion Hin; subst y0 yd0. congruence.
              ** right. split; [exact Nu|]. exists y0, yd0, doc0. auto.
        -- exact D.
      * inversion S; subst sy1 urls1; clear S. simpl. split; [|split].
        -- intros Nd. apply N.
           destruct (truthy_str (Aggregate.url_of doc)
                     && negb (in_strs (str_or_empty (Aggregate.url_of doc)) urls)) eqn:C;
             [|exact Nd].
           apply andb_true_iff in C. destruct C as [_ C].
           apply NoDup_rev in Nd. rewrite <- (rev_involutive (urls ++ _)).
           apply NoDup_rev. rewrite rev_app_distr. simpl. constructor; [|exact Nd].
           intros H. apply in_rev in H. apply in_strs_In in H. rewrite H in C.
           discriminate.
        -- intros u. rewrite U. clear U N D IH E.
           assert (X : In u (if truthy_str (Aggregate.url_of doc)
                                && negb (in_strs (str_or_empty (Aggregate.url_of doc)) urls)
                             then urls ++ [str_or_empty (Aggregate.url_of doc)]
                             else urls)
                       <-> In u urls \/ (u <> "" /\ Aggregate.url_of doc = Some u)).
           { destruct (Aggregate.url_of doc) as [s|]; simpl.
             - destruct (String.eqb s "") eqn:Es; simpl.
               + apply String.eqb_eq in Es. subst s. split; [auto|].
                 intros [H|[Nu H]]; [exact H|]. inversion H. congruence.
               + apply String.eqb_neq in Es. destruct (in_strs s urls) eqn:I; simpl.
                 * apply in_strs_In in I. split; [auto|].
                   intros [H|[Nu H]]; [exact H|]. inversion H; subst. exact I.
                 * rewrite in_app_iff. simpl. split.
                   -- intros [H|[H|[]]]; [left; exact H|]. subst u. right. auto.
                   -- intros [H|[Nu H]]; [left; exact H|]. inversion H. right. left.
                      reflexivity.
             - split; [auto|]. intros [H|[_ H]]; [exact H | discriminate]. }
           rewrite X. split.
           ++ intros [[H|[Nu Hu]]|(Nu & y0 & yd0 & doc0 & Hin & R)].
              ** left. exact H.
              ** right. split; [exact Nu|]. exists y, year_data, doc.
                 split; [left; reflexivity|]. auto.
              ** right. split; [exact Nu|]. exists y0, yd0, doc0.
                 split; [right; exact Hin | exact R].
           ++ intros [H|(Nu & y0 & yd0 & doc0 & [Hin|Hin] & G0 & He0 & Hu)].
              ** left. left. exact H.
              ** inversion Hin; subst y0 yd0. rewrite G in G0. inversion G0; subst doc0.
                 left. right. auto.
              ** right. split; [exact Nu|]. exists y0, yd0, doc0. auto.
        -- intros y0 docs Hin. destruct (D y0 docs Hin) as [H|H]; [|right; exact H].
           apply in_set in H. destruct H as [H|H]; [|left; exact H].
           inversion H; subst. right. exists doc. auto.
    + inversion S; subst sy1 urls1. split; [exact N|]. split; [|exact D].
      intros u. rewrite U. split.
      * intros [H|(Nu & y0 & yd0 & doc0 & Hin & R)]; [left; exact H|].
        right. split; [exact Nu|]. exists y0, yd0, doc0. split; [right; exact Hin|].
        exact R.
      * intros [H|(Nu & y0 & yd0 & doc0 & [Hin|Hin] & G0 & He0 & Hu)];
          [left; exact H | |].
        -- inversion Hin; subst y0 yd0. congruence.
        -- right. split; [exact Nu|]. exists y0, yd0, doc0. auto.
Qed.

(** X27: for a statement type, the aggregate entry point hands the builder
    one document per period, none with an ['error'] field, and lists as
    source URLs exactly the non-empty URLs of the documents it kept, each
    once. *)
Theorem collect_source_urls (stmt_type : string) (d : Dict.t YearData)
  (stmt_years : Dict.t (Dict.t StmtValue)) (source_urls : list string) :
  Aggregate.collect stmt_type (YearsDict d) = Ok (stmt_years, source_urls) ->
  NoDup source_urls
  /\ (forall u, In u source_urls
                <-> u <> ""
                    /\ exists y year_data doc,
                         In (y, YearDict year_data) d
                         /\ Dict.get stmt_type year_data = Some doc
                         /\ Aggregate.has_error doc = false
                         /\ Aggregate.url_of doc = Some u)
  /\ (forall y docs, In (y, docs) stmt_years ->
        exists doc, docs = [(stmt_type, doc)] /\ Aggregate.has_error doc = false).
Proof.
  intros E. unfold Aggregate.collect in E.
  destruct (collect_fold stmt_type d _ _ _ E) as (N & U & D). simpl in N, U, D.
  split; [apply N; constructor|]. split.
  - intros u. rewrite U. split; [intros [[]|H]; exact H | intros H; right; exact H].
  - intros y docs H. destruct (D y docs H) as [[]|X]. exact X.
Qed.

Lemma collect_source_urls_witness :
  exists stmt_years source_urls,
    Aggregate.collect "balance_sheet" Examples.one_bad = Ok (stmt_years, source_urls)
    /\ NoDup source_urls
    /\ (forall y docs, In (y, docs) stmt_years ->
          exists doc, docs = [("balance_sheet", doc)] /\ Aggregate.has_error doc = false).
Proof.
  eexists. eexists. split; [vm_compute; reflexivity|].
  match goal with
  | |- NoDup ?u /\ (forall y docs, In (y, docs) ?s -> _) =>
      destruct (collect_source_urls "balance_sheet"
                  [("2024",
                    YearDict
                      [("income_statement", StmtOther);
                       ("balance_sheet",
                        StmtDict false (Some "https://example.org/10k")
                          (Examples.statement
                             [Examples.section "Assets"
                                [Examples.item "Cash" [("2024", Examples.s "10")]]]))])]
                  s u eq_refl) as (N & _ & D)
  end.
  split; [exact N | exact D].
Defined.

(** ** When the builder returns *)

Lemma prefix_chars (p : string) :
  forall s, String.prefix p s = true -> exists rest, PyStr.chars s = PyStr.chars p ++ rest.
Proof.
  induction p as [|a p IH]; intros s H.
  - exists (PyStr.chars s). reflexivity.
  - destruct s as [|b s]; simpl in H; [discriminate|].
    destruct (ascii_dec a b) as [->|]; [|discriminate].
    destruct (IH s H) as [rest E]. exists rest.
    unfold PyStr.chars in *. simpl. rewrite E. reflexivity.
Qed.

Lemma app_bar_cases (p : list ascii) :
  forall a b rest,
    ~ In PyStr.bar p ->
    a ++ PyStr.bar :: b = p ++ PyStr.bar :: rest ->
    a = p \/ In PyStr.bar rest.
Proof.
  induction p as [|x p IH]; intros a b rest N E.
  - destruct a as [|c a]; [left; reflexivity|]. simpl in E. inversion E; subst.
    right. apply in_or_app. right. left. reflexivity.
  - destruct a as [|c a]; simpl in E.
    + inversion E; subst. exfalso. apply N. left. reflexivity.
    + inversion E; subst.
      destruct (IH a b rest) as [->|H]; auto.
      intros H. apply N. right. exact H.
Qed.

Lemma parse_unified_key_returns (item sec : string) :
  item <> "review_needed" ->
  exists parsed, Orderer._parse_unified_key (item ++ "|" ++ sec) = Ok parsed.
Proof.
  intros N. unfold Orderer._parse_unified_key.
  destruct (PyStr.startswith "review_needed|" (item ++ "|" ++ sec)) eqn:S.
  - destruct (prefix_chars _ _ S) as [rest E].
    rewrite E. change (PyStr.chars "review_needed|")
      with (PyStr.chars "review_needed" ++ [PyStr.bar]).
    rewrite <- app_assoc.
    change (skipn 14 (PyStr.chars "review_needed" ++ [PyStr.bar] ++ rest)) with rest.
    rewrite !chars_app in E. change (PyStr.chars "|") with [PyStr.bar] in E.
    change (PyStr.chars "review_needed|")
      with (PyStr.chars "review_needed" ++ [PyStr.bar]) in E.
    rewrite <- app_assoc in E. simpl app in E.
    destruct (app_bar_cases (PyStr.chars "review_needed") (PyStr.chars item)
                (PyStr.chars sec) rest) as [H|H].
    + simpl. intros H. repeat (destruct H as [H|H]; [discriminate|]). exact H.
    + exact E.
    + exfalso. apply N. rewrite <- (str_chars item), H. reflexivity.
    + destruct (PyStr.split_first rest) as [[a b]|] eqn:F; [eexists; reflexivity|].
      apply split_first_none in F. contradiction.
  - destruct (PyStr.split_last _) as [[a b]|]; eexists; reflexivity.
Qed.

Lemma normalize_label_not_review (label : option string) :
  normalize_label label <> "review_needed".
Proof.
  intros E.
  pose proof (squeeze_label_chars
                (map clean_char (PyStr.chars (str_or_empty label))) false false
                (cleaned_label_chars _)) as F.
  destruct label as [s|]; [|discriminate]. unfold normalize_label in E. simpl in F.
  destruct (String.eqb s ""); [discriminate|].
  apply (f_equal PyStr.chars) in E. rewrite chars_str in E. rewrite E in F.
  rewrite Forall_forall in F. specialize (F "_"%char).
  destruct F as [H|H]; [|discriminate|discriminate].
  simpl. tauto.
Qed.

Lemma unified_key_parses (ignore_gaap : bool) (row : Row) (sec : string) :
  item_gaap row <> Some "review_needed" ->
  exists parsed,
    Orderer._parse_unified_key (Builder.unified_key ignore_gaap row sec) = Ok parsed.
Proof.
  intros N. unfold Builder.unified_key. apply parse_unified_key_returns.
  unfold Builder.item_key. destruct ignore_gaap; [apply normalize_label_not_review|].
  destruct (truthy_str (item_gaap row)); [|apply normalize_label_not_review].
  destruct (item_gaap row) as [g|]; simpl; [congruence | discriminate].
Qed.

Section KeysParse.

Let parses (c : Catalog) : Prop :=
  forall k, In k (Dict.keys c) -> exists parsed, Orderer._parse_unified_key k = Ok parsed.

Let tagged (rows : list Row) : Prop :=
  forall r : Row, In r rows -> item_gaap r <> Some "review_needed".

Lemma update_block_parses (yr : string) (cleaning : bool) (matched_key : option string)
  (ignore_gaap : bool) (row : Row) (sec : string) (unified unified' : Catalog) :
  item_gaap row <> Some "review_needed" -> parses unified ->
  Builder.update_block yr cleaning matched_key ignore_gaap row sec unified = Ok unified' ->
  parses unified'.
Proof.
  intros T P E. unfold Builder.update_block, Builder.create, bind in E.
  assert (C : parses (Dict.set (Builder.unified_key ignore_gaap row sec)
                               (Builder.new_payload row) unified)).
  { intros k Hk. apply keys_set in Hk. destruct Hk as [->|Hk]; [|apply P; exact Hk].
    apply unified_key_parses. exact T. }
  destruct matched_key as [k|]; [|inversion E; subst; exact C].
  destruct (String.eqb k ""); [inversion E; subst; exact C|].
  destruct (PyStr.startswith "review_needed" k); [inversion E; subst; exact P|].
  destruct (Dict.get k unified) as [existing|] eqn:G; [|discriminate].
  destruct (Builder.merge_values yr cleaning row (values existing)); [|discriminate].
  inversion E; subst. intros k0 Hk. apply keys_set in Hk.
  destruct Hk as [->|Hk]; [|apply P; exact Hk].
  apply P. apply get_some_in in G. apply (in_map fst _ _ G).
Qed.

Lemma merge_filing_parses (yr : string) (unified unified' : Catalog)
  (rows rows' : list Row) :
  tagged rows -> parses unified ->
  Builder.merge_filing yr unified rows = Ok (unified', rows') ->
  parses unified'.
Proof.
  intros T P E. unfold Builder.merge_filing, bind in E.
  set (rw := fold_left (Builder.rewrite_step (_build_unified_section_index unified))
                       (_build_greedy_section_map unified rows) rows) in *.
  assert (Tw : tagged rw).
  { pose proof (rewrite_fold_frame (_build_unified_section_index unified)
                  (_build_greedy_section_map unified rows) rows) as F.
    fold rw in F. clear -F T. induction F as [|r r' rows rw (G & _) F IH].
    - intros r [].
    - intros x [<-|Hx].
      + rewrite G. apply T. left. reflexivity.
      + apply IH; [|exact Hx]. intros r0 H0. apply T. right. exact H0. }
  destruct (foldM _ _ unified) as [u|] eqn:F; [|discriminate].
  inversion E; subst u rows'; clear E.
  apply (foldM_ok_inv _ _ _ _ _ _ F parses); [exact P|].
  intros u0 group u1 Hin P0 S. unfold Builder.merge_section in S.
  assert (Tg : tagged (snd group)).
  { unfold Builder.section_groups in Hin. apply in_map_iff in Hin.
    destruct Hin as ([sec g] & <- & Hin). simpl.
    intros r Hr. apply in_map_iff in Hr. destruct Hr as ([s r0] & <- & Hsr).
    destruct (group_by_key _ fst _ _ _ _ Hin Hsr) as [_ Hc].
    apply in_combine_r in Hc. apply Tw. exact Hc. }
  apply (foldM_ok_inv _ _ _ _ _ _ S parses); [exact P0|].
  intros u2 ir u3 Hir P2 R. unfold Builder.merge_row, bind in R.
  destruct (Builder.confirm u2 (snd ir) _ _) as [matched_key|]; [|discriminate].
  destruct (Builder.update_block yr false matched_key _ (snd ir) (fst group) u2)
    as [u4|] eqn:B; [|discriminate].
  assert (Ti : item_gaap (snd ir) <> Some "review_needed").
  { apply Tg. apply enumerate_in. exact Hir. }
  eapply update_block_parses; [exact Ti| |exact R].
  eapply update_block_parses; [exact Ti|exact P2|exact B].
Qed.

Lemma merge_all_parses (yr : string) (flat_all flat_all' : Dict.t (list Row))
  (unified : Catalog) :
  (forall filing, In filing flat_all -> tagged (snd filing)) ->
  Builder.merge_all yr flat_all = Ok (unified, flat_all') ->
  parses unified.
Proof.
  intros T E. unfold Builder.merge_all in E.
  apply (foldM_ok_inv _ _ _ _ _ _ E (fun st => parses (fst st))).
  - intros k [].
  - intros [u fl] [y rows] st1 Hin P B. simpl in *. unfold bind in B.
    destruct (Builder.merge_filing yr u rows) as [[u' rows']|] eqn:M; [|discriminate].
    inversion B; subst st1. simpl.
    eapply merge_filing_parses; [exact (T _ Hin) | exact P | exact M].
Qed.

Lemma order_catalog_returns (unified : Catalog) (flat_all : Dict.t (list Row))
  (positions_map : Orderer.PosMap) (latest_section_order : Dict.t Z)
  (latest_year : string) (years_sorted : list string) :
  parses unified ->
  exists ordered,
    order_catalog unified flat_all positions_map latest_section_order
                  latest_year years_sorted = Ok ordered.
Proof.
  intros P. unfold order_catalog.
  match goal with
  | |- exists ordered, foldM ?body ?l ?s = Ok ordered =>
      pose proof (foldM_outcome _ _ body (fun _ => True) (fun _ => False) l s I) as O;
      destruct (foldM body l s) as [ordered|e]
  end.
  - exists ordered. reflexivity.
  - exfalso. apply O. clear O. intros ordered0 sk _ _.
    unfold emit_section, bind.
    match goal with
    | |- outcome _ _ (match ?o with Ok _ => _ | Raise _ => _ end) =>
        assert (Os : outcome (fun _ => True) (fun _ => False) o)
    end.
    { unfold Orderer.order_section, bind.
      match goal with
      | |- outcome _ _ (match foldM ?body ?l ?s with Ok _ => _ | Raise _ => _ end) =>
          pose proof (foldM_outcome _ _ body (fun _ => True) (fun _ => False) l s I) as O;
          destruct (foldM body l s) as [parts|e']; [exact I|]
      end.
      apply O. intros st kp Hin _.
      assert (Hu : In kp unified).
      { pose proof (get_group_by _ (fun kp : string * Payload => Builder.sec_of (snd kp))
                                 sk unified) as G.
        rewrite G in Hin. apply filter_In in Hin. tauto. }
      destruct (P (fst kp) (in_map fst _ _ Hu)) as [parsed Hp].
      unfold Orderer.separate_step, Orderer._item_identity_from_unified_key, bind.
      rewrite Hp.
      destruct (negb (String.eqb (fst parsed) "") && negb (String.eqb (fst parsed) sk));
        simpl; destruct (Dict.get latest_year _); exact I. }
    destruct (Orderer.order_section positions_map latest_year years_sorted sk _);
      [exact I | exact Os].
Qed.
End KeysParse.

Lemma Forall2_in_r (A B : Type) (R : A -> B -> Prop) (l : list A) (l' : list B) (y : B) :
  Forall2 R l l' -> In y l' -> exists x, In x l /\ R x y.
Proof.
  induction 1 as [|a b l l' Hab F IH]; intros H; [contradiction|].
  destruct H as [<-|H].
  - exists a. split; [left; reflexivity | exact Hab].
  - destruct (IH H) as (x & Hx & Rx). exists x. split; [right; exact Hx | exact Rx].
Qed.

Lemma flattened_row_item (stmt : Filing) (r : Row) :
  In r (_flag_duplicate_section_gaaps_label_only (fst (flatten_with_positions stmt))) ->
  exists item, In item (document_items stmt) /\ item_gaap r = i_gaap item.
Proof.
  intros H.
  destruct (Forall2_in_r _ _ _ _ _ _ (flag_rows_frame _ []) H) as (r0 & H0 & G & _).
  unfold flatten_with_positions in H0. simpl in H0.
  apply in_flat_map in H0. destruct H0 as (section & Hs & Hr).
  unfold flatten_section in Hr. apply in_map_iff in Hr. destruct Hr as (ix & E & Hix).
  exists (snd ix). split.
  - unfold document_items. apply in_flat_map. exists section. split; [exact Hs|].
    apply enumerate_in. exact Hix.
  - rewrite G, <- E. reflexivity.
Qed.

Lemma flatten_all_returns (years_json : Dict.t (Dict.t Filing)) :
  (forall y docs, In (y, docs) years_json -> docs <> []) ->
  forall acc : Dict.t (list Row),
  exists flat_all,
    foldM (fun flat_all yf =>
             do stmt <- first_value (snd yf) ;;
             let rows := fst (flatten_with_positions stmt) in
             Ok (Dict.set (fst yf) (_flag_duplicate_section_gaaps_label_only rows) flat_all))
          years_json acc = Ok flat_all
    /\ (forall y, In y (Dict.keys years_json) \/ In y (Dict.keys acc) ->
                  Dict.get y flat_all <> None)
    /\ (forall filing, In filing flat_all ->
          In filing acc
          \/ exists y name stmt rest,
               In (y, (name, stmt) :: rest) years_json
               /\ snd filing
                  = _flag_duplicate_section_gaaps_label_only
                      (fst (flatten_with_positions stmt))).
Proof.
  induction years_json as [|[y docs] years_json IH]; intros H acc.
  - exists acc. split; [reflexivity|]. split; [|auto].
    intros y [[]|Hy]. apply get_none_keys_neg. exact Hy.
  - destruct docs as [|[name stmt] rest] eqn:D.
    { exfalso. apply (H y []); [left; reflexivity | reflexivity]. }
    simpl. 
    destruct (IH (fun y0 d0 H0 => H y0 d0 (or_intror H0))
                 (Dict.set y (_flag_duplicate_section_gaaps_label_only
                                (fst (flatten_with_positions stmt))) acc))
      as (flat_all & E & Kf & Ff).
    exists flat_all. split; [exact E|]. split.
    + intros y0 [[<-|Hy]|Hy]; apply Kf.
      * right. apply keys_set. left. reflexivity.
      * left. exact Hy.
      * right. apply keys_set. right. exact Hy.
    + intros filing Hf. destruct (Ff filing Hf) as [Ha|(y0 & n0 & s0 & r0 & Hin & Es)].
      * destruct filing as [fy frows]. apply in_set in Ha. destruct Ha as [Ha|Ha].
        -- inversion Ha; subst. right. exists y, name, stmt, rest.
           split; [left; reflexivity | reflexivity].
        -- left. exact Ha.
      * right. exists y0, n0, s0, r0. split; [right; exact Hin | exact Es].
Qed.

(** X28: the builder returns a catalog whenever it is given at least one
    period, every period holds a document, the period names and the period
    keys of the values read as years, and no item carries the tag
    ["review_needed"]. *)
Theorem build_returns (years_json : Dict.t (Dict.t Filing)) (statement_type : string) :
  years_json <> [] ->
  (forall y docs, In (y, docs) years_json -> docs <> []) ->
  (forall y, In y (Dict.keys years_json) -> year_like (PyStr.take 4 y)) ->
  (forall y, In y (observed_period_keys years_json) -> year_like y) ->
  (forall stmt item, In stmt (first_documents years_json) ->
                     In item (document_items stmt) ->
                     i_gaap item <> Some "review_needed") ->
  exists ordered, build_unified_catalog years_json statement_type = Ok ordered.
Proof.
  intros Hne Hdocs Hyears Hkeys Htags. unfold build_unified_catalog.
  assert (Sorted_in : forall y, In y (sorted_desc (Dict.keys years_json))
                                -> In y (Dict.keys years_json)).
  { intros y Hy. unfold sorted_desc in Hy.
    apply (Permutation_in _ (stable_sort_perm _ _ _)) in Hy. exact Hy. }
  destruct (sorted_desc (Dict.keys years_json)) as [|latest_year older] eqn:Ys.
  { exfalso. unfold sorted_desc in Ys.
    pose proof (stable_sort_perm _ (fun a b => str_leb b a) (Dict.keys years_json)) as Pm.
    rewrite Ys in Pm. apply Permutation_nil in Pm.
    destruct years_json; [contradiction | discriminate]. }
  destruct (flatten_all_returns years_json Hdocs []) as (flat_all & F & Kf & Ff).
  assert (F' : flatten_all years_json = Ok flat_all) by exact F.
  rewrite F'. unfold bind at 1.
  assert (Rows : forall filing, In filing flat_all ->
                   row_keys_satisfy year_like (snd filing)
                   /\ forall r : Row, In r (snd filing) ->
                                      item_gaap r <> Some "review_needed").
  { intros filing Hf. destruct (Ff filing Hf) as [[]|(y & name & stmt & rest & Hin & E)].
    rewrite E. split.
    - intros r Hr k Hk. apply Hkeys. unfold observed_period_keys.
      apply in_flat_map. exists (y, (name, stmt) :: rest). split; [exact Hin|]. simpl.
      apply flatten_period_keys. unfold Reconciler.years_in. apply in_flat_map.
      exists r. split; [exact Hr | exact Hk].
    - intros r Hr. destruct (flattened_row_item stmt r Hr) as (item & Hi & ->).
      apply (Htags stmt item); [|exact Hi].
      unfold first_documents. apply in_flat_map.
      exists (y, (name, stmt) :: rest). split; [exact Hin | left; reflexivity]. }
  set (yr := last (latest_year :: older) latest_year).
  assert (Hyr : year_like (PyStr.take 4 yr)).
  { apply Hyears, Sorted_in. unfold yr.
    destruct (exists_last (l := latest_year :: older)) as (l' & a & E);
      [discriminate|].
    rewrite E, last_last. apply in_or_app. right. left. reflexivity. }
  pose proof (merge_all_outcome yr year_like (fun _ => False)
                (fun vals G Ne => newer_than_first_returns yr vals Hyr G Ne)
                flat_all (fun filing Hf => proj1 (Rows filing Hf))) as O.
  destruct (Builder.merge_all yr flat_all) as [[merged flat_all']|e] eqn:M;
    simpl in O; [|contradiction].
  destruct O as [_ Kept]. unfold bind at 1. simpl fst. simpl snd.
  assert (Pm : forall k, In k (Dict.keys merged) ->
                         exists parsed, Orderer._parse_unified_key k = Ok parsed).
  { apply (merge_all_parses yr flat_all flat_all' merged);
      [|exact M]. intros filing Hf. apply (Rows filing Hf). }
  assert (Hall : forall y, In y (latest_year :: older) -> Dict.get y flat_all' <> None).
  { intros y Hy. apply Kept, Kf. left. apply Sorted_in. exact Hy. }
  destruct (authoritative_returns flat_all' (latest_year :: older) [] Hall) as [y2a Y].
  unfold zero_out_overlapping_years_for_new_items, bind at 1.
  fold (Reconciler.year_to_authoritative_filing flat_all' (latest_year :: older)) in Y.
  rewrite Y. unfold bind.
  apply order_catalog_returns.
  intros k Hk. apply Pm. unfold Dict.keys in *. rewrite !map_map in Hk. exact Hk.
Qed.

Lemma build_returns_witness :
  exists ordered, build_unified_catalog Examples.restated "income_statement" = Ok ordered.
Proof.
  apply build_returns.
  - discriminate.
  - intros y docs [H|[H|[]]]; inversion H; discriminate.
  - intros y [<-|[<-|[]]]; eexists; vm_compute; reflexivity.
  - intros y H. vm_compute in H.
    destruct H as [<-|[<-|[<-|[]]]]; eexists; vm_compute; reflexivity.
  - intros stmt item Hs Hi. vm_compute in Hs.
    destruct Hs as [<-|[<-|[]]]; vm_compute in Hi; destruct Hi as [<-|[]]; discriminate.
Defined.

Lemma flatten_all_raises (years_json : Dict.t (Dict.t Filing)) :
  (exists y, In (y, []) years_json) ->
  forall acc : Dict.t (list Row),
    foldM (fun flat_all yf =>
             do stmt <- first_value (snd yf) ;;
             let rows := fst (flatten_with_positions stmt) in
             Ok (Dict.set (fst yf) (_flag_duplicate_section_gaaps_label_only rows) flat_all))
          years_json acc = Raise IndexError.
Proof.
  induction years_json as [|[y docs] years_json IH]; intros [y0 H] acc;
    [contradiction|].
  simpl. destruct docs as [|[name stmt] rest]; [reflexivity|]. simpl.
  apply IH. destruct H as [H|H]; [inversion H|]. exists y0. exact H.
Qed.

(** X29: without any period, or with a period that holds no document, the
    builder raises an [IndexError]. *)
Theorem build_raises_without_document (years_json : Dict.t (Dict.t Filing))
  (statement_type : string) :
  years_json = [] \/ (exists y, In (y, []) years_json) ->
  build_unified_catalog years_json statement_type = Raise IndexError.
Proof.
  intros [->|H]; [reflexivity|]. unfold build_unified_catalog.
  destruct (sorted_desc (Dict.keys years_json)) as [|latest_year older]; [reflexivity|].
  assert (F : flatten_all years_json = Raise IndexError)
    by exact (flatten_all_raises years_json H []).
  rewrite F. reflexivity.
Qed.

Lemma build_raises_without_document_witness :
  build_unified_catalog [("2024", [])] "income_statement" = Raise IndexError.
Proof.
  apply build_raises_without_document. right. exists "2024". left. reflexivity.
Defined.

(** ** From the flat table to sections *)

Lemma append_item_last (sections : list Section) (current : Section) (item : Item) :
  Restructure.append_item (sections ++ [current]) item
  = sections ++ [mkSection (s_section current) (s_gaap current)
                           (Some (or_nil (s_items current) ++ [item]))].
Proof.
  unfold Restructure.append_item. rewrite rev_app_distr. simpl.
  rewrite rev_involutive. reflexivity.
Qed.

Lemma document_items_app (periods : option (list string)) (s1 s2 : list Section) :
  document_items (mkFiling periods (Some (s1 ++ s2)))
  = document_items (mkFiling periods (Some s1))
    ++ document_items (mkFiling periods (Some s2)).
Proof. unfold document_items. simpl. apply flat_map_app. Qed.

Section RestructureFold.

Let well_formed (sections : list Section) : Prop :=
  forall section, In section sections ->
                  s_gaap section = None /\ or_nil (s_items section) <> [].

Let items_of (sections : list Section) : list Item :=
  document_items (mkFiling None (Some sections)).

Lemma append_item_effect (sections : list Section) (item : Item) :
  sections <> [] ->
  (forall section, In section (removelast sections) ->
                   s_gaap section = None /\ or_nil (s_items section) <> []) ->
  s_gaap (last sections (Restructure.new_section "")) = None ->
  well_formed (Restructure.append_item sections item)
  /\ items_of (Restructure.append_item sections item) = items_of sections ++ [item].
Proof.
  intros Ne W G.
  destruct (exists_last Ne) as (before & current & E). subst sections.
  rewrite removelast_last in W. rewrite last_last in G.
  rewrite append_item_last. split.
  - intros section H. apply in_app_or in H. destruct H as [H|[<-|[]]].
    + apply W. exact H.
    + simpl. split; [exact G|]. destruct (or_nil (s_items current)); discriminate.
  - unfold items_of. rewrite !document_items_app. rewrite <- app_assoc. f_equal.
    unfold document_items. simpl. rewrite !app_nil_r. reflexivity.
Qed.

Lemma restructure_fold (rows : list Restructure.FlatRow) :
  forall st,
    well_formed (fst st) ->
    let out := fst (fold_left Restructure.step rows st) in
    well_formed out
    /\ items_of out
       = items_of (fst st)
         ++ map Restructure.item_of (filter Restructure.has_values rows).
Proof.
  induction rows as [|row rows IH]; intros [sections pending] W; simpl.
  - split; [exact W|]. rewrite app_nil_r. reflexivity.
  - unfold Restructure.step at 2 4. simpl fst. simpl snd.
    destruct (Restructure.has_values row) eqn:H; simpl negb; cbv iota.
    + set (sections1 := match pending with
                        | [] => sections
                        | _ :: _ =>
                            sections
                            ++ [Restructure.new_section
                                  (PyStr.strip (Restructure.rstrip_colons
                                                  (last pending "")))]
                        end).
      set (sections2 := match sections1 with
                        | [] => [Restructure.new_section "Main"]
                        | _ :: _ => sections1
                        end).
      assert (S2 : exists before label,
                 (sections2 = sections /\ sections <> [])
                 \/ (sections2 = before ++ [Restructure.new_section label]
                     /\ before = sections)).
      { unfold sections2, sections1. destruct pending as [|p ps].
        - destruct sections as [|s ss].
          + exists [], "Main". right. auto.
          + exists [], "". left. split; [reflexivity | discriminate].
        - exists sections, (PyStr.strip (Restructure.rstrip_colons (last (p :: ps) ""))).
          right. split; [|reflexivity].
          destruct (sections ++ _) eqn:E; [|reflexivity].
          destruct sections; discriminate. }
      destruct S2 as (before & label & [[E Ne]|[E Eb]]).
      * rewrite E.
        destruct (append_item_effect sections (Restructure.item_of row) Ne)
          as [W' I'].
        { intros section Hs. apply W.
          destruct (exists_last Ne) as (b & c & Eq). rewrite Eq in Hs |- *.
          rewrite removelast_last in Hs. apply in_or_app. left. exact Hs. }
        { destruct (exists_last Ne) as (b & c & Eq). rewrite Eq, last_last.
          apply W. simpl. rewrite Eq. apply in_or_app. right. left. reflexivity. }
        destruct (IH (Restructure.append_item sections (Restructure.item_of row), [])
                     W') as [Wf If].
        split; [exact Wf|]. simpl in If. rewrite If, I', <- app_assoc. reflexivity.
      * rewrite E. subst before.
        destruct (append_item_effect (sections ++ [Restructure.new_section label])
                    (Restructure.item_of row)) as [W' I'].
        { destruct sections; discriminate. }
        { rewrite removelast_last. exact W. }
        { rewrite last_last. reflexivity. }
        destruct (IH (Restructure.append_item
                        (sections ++ [Restructure.new_section label])
                        (Restructure.item_of row), []) W') as [Wf If].
        split; [exact Wf|]. simpl in If. rewrite If, I'.
        unfold items_of. rewrite document_items_app.
        unfold document_items at 2. simpl. rewrite !app_nil_r, <- app_assoc.
        reflexivity.
    + apply (IH (sections, pending ++ [Restructure.label_of_row row])). exact W.
Qed.
End RestructureFold.

Lemma flatten_section_labels (section : Section) :
  map (fun r : Row => item_label r) (flatten_section section)
  = map i_label (or_nil (s_items section)).
Proof.
  unfold flatten_section, enumerate. rewrite map_map. simpl.
  generalize 0 as n. induction (or_nil (s_items section)) as [|x l IH]; intros n; simpl;
    [reflexivity|].
  rewrite IH. reflexivity.
Qed.

Lemma flattened_labels (secs : list Section) :
  map (fun r : Row => item_label r) (flat_map flatten_section secs)
  = map i_label (flat_map (fun section : Section => or_nil (s_items section)) secs).
Proof.
  induction secs as [|s l IH]; simpl; [reflexivity|].
  rewrite !map_app, IH, flatten_section_labels. reflexivity.
Qed.

(** X30: the restructurer turns every line with values into one item, in
    the order of the lines, and loses none; every section it builds has at
    least one item and no tag; and the flattener then yields one row per
    such line, labelled by the stripped line item. *)
Theorem restructure_keeps_rows (years : option (list string))
  (rows : option (list Restructure.FlatRow)) :
  let doc := _restructure_for_merger years rows in
  document_items doc
  = map Restructure.item_of (filter Restructure.has_values (or_nil rows))
  /\ (forall section, In section (or_nil (sections doc)) ->
        s_gaap section = None /\ or_nil (s_items section) <> [])
  /\ periods doc = Some (or_nil years)
  /\ map (fun r : Row => item_label r) (fst (flatten_with_positions doc))
     = map (fun row => Some (Restructure.label_of_row row))
           (filter Restructure.has_values (or_nil rows)).
Proof.
  destruct (restructure_fold (or_nil rows) ([], [])) as [W I].
  { intros section []. }
  simpl in W, I. cbv zeta. unfold _restructure_for_merger.
  assert (D : document_items
                (mkFiling (Some (or_nil years))
                          (Some (fst (fold_left Restructure.step (or_nil rows) ([], [])))))
              = map Restructure.item_of
                    (filter Restructure.has_values (or_nil rows))) by exact I.
  split; [exact D|]. split; [exact W|]. split; [reflexivity|].
  unfold flatten_with_positions. simpl.
  rewrite flattened_labels.
  change (flat_map (fun section : Section => or_nil (s_items section))
                   (fst (fold_left Restructure.step (or_nil rows) ([], []))))
    with (document_items
            (mkFiling (Some (or_nil years))
               (Some (fst (fold_left Restructure.step (or_nil rows) ([], [])))))).
  rewrite D, map_map. reflexivity.
Qed.
